(** * Parrot: the recording-to-transcription pipeline, embedded in Rocq

    A shallow embedding of the main-process services of Parrot
    (audio capture, WAV encoder, transcription manager, history database,
    clipboard manager and the IPC handlers that sequence them), followed by
    the properties of the specification that were checked against it.

    Conventions of the embedding:
    - a Node [Buffer] is a [list byte]; allocation always succeeds (the
      runtime's limits on buffer size and memory are not modelled);
    - a finite JavaScript [number] is a rational ([Q]); [NaN] and the
      infinities are not represented; where the program multiplies numbers
      that need not be integers the product is rounded to binary64
      ([Js.mul]);
    - a JavaScript exception is a value of [Js.Thrown] returned on the left
      of a sum; object fields that the code mutates are threaded through as
      explicit state, and a state change made before a throw is kept;
    - everything outside the process (audio hardware, the remote API, the
      OS clipboard automation, the wall clock, SQLite faults) is an explicit
      argument of the operation that consults it; the tokenizer and the
      query language of SQLite's FTS5, which are not part of the
      repository, are parameters of the database model. *)

From Stdlib Require Import ZArith QArith Qround Qabs List Bool Lia.
From Stdlib Require Import Strings.String Strings.Ascii Strings.Byte.
From stdpp Require Import base option list list_numbers sorting strings gmap.

Local Open Scope Z_scope.

(* ===================================================================== *)
(** * Part I: the model *)
(* ===================================================================== *)

(** ** JavaScript values the services exchange *)
Module Js.

(** Finite JavaScript numbers. *)
Definition number : Type := Q.

Definition of_nat (n : nat) : number := inject_Z (Z.of_nat n).

(** What a [throw] (or a rejected promise) carries: an [Error] object with
    its [message], or anything else.  Errors raised by the runtime itself
    carry the runtime's error code as their message. *)
Inductive Thrown : Type :=
| Error (message : string)
| NonError.

Definition ERR_OUT_OF_RANGE : Thrown := Error "ERR_OUT_OF_RANGE".

(** [error instanceof Error ? error.message : fallback] *)
Definition message_or (fallback : string) (e : Thrown) : string :=
  match e with
  | Error m => m
  | NonError => fallback
  end.

(** [Math.round]: the nearest integer, a tie going up. *)
Definition Math_round (x : number) : Z := Qfloor (x + (1 # 2))%Q.

(** The nearest integer, a tie going to the even one. *)
Definition round_half_even (q : Q) : Z :=
  let f := Qfloor q in
  match (q - inject_Z f ?= 1 # 2)%Q with
  | Lt => f
  | Gt => f + 1
  | Eq => if Z.even f then f else f + 1
  end.

(** The exponent [l] with [2^l <= a < 2^(l+1)], for [a > 0]. *)
Definition ilog2 (a : Q) : Z :=
  let l := Z.log2 (Qnum a) - Z.log2 (Zpos (Qden a)) in
  if Qle_bool (2 ^ l)%Q a then l else l - 1.

(** The binary64 value nearest to a rational, a tie going to the even
    significand: 53 significant bits, and no bit below [2^-1074].  A
    magnitude that would round to infinity is not represented. *)
Definition binary64 (q : Q) : number :=
  match (q ?= 0)%Q with
  | Eq => 0%Q
  | c =>
      let a := Qabs q in
      let e := Z.max (ilog2 a - 52) (-1074) in
      let m := round_half_even (a / 2 ^ e)%Q in
      let r := Qred (inject_Z m * 2 ^ e)%Q in
      match c with Lt => (- r)%Q | _ => r end
  end.

(** [x * y] on two numbers. *)
Definition mul (x y : number) : number := binary64 (x * y)%Q.

(** Truthiness of a string: only the empty string is falsy. *)
Definition truthy (s : string) : bool :=
  match s with
  | EmptyString => false
  | String _ _ => true
  end.

(** A computation that returns or throws. *)
Definition Result (A : Type) : Type := Thrown + A.

Definition bind {A B} (m : Result A) (k : A -> Result B) : Result B :=
  match m with
  | inl e => inl e
  | inr a => k a
  end.

End Js.

Notation "'do' x <- m ; k" := (Js.bind m (fun x => k))
  (at level 10, x name, m at level 100, k at level 200,
   format "'[v' 'do'  x  <-  m ; '/' k ']'").

(** ** Node buffers *)
Module Buf.

Definition Buffer : Type := list byte.

(** [Buffer.alloc(size)]: zero-filled. *)
Definition alloc (size : nat) : Buffer := replicate size x00.

(** [Buffer.concat(list)] *)
Definition concat (chunks : list Buffer) : Buffer := mjoin chunks.

(** Overwrite [target] from [targetStart] with as much of [src] as fits;
    the length of [target] never changes. *)
Definition blit (target : Buffer) (targetStart : nat) (src : list byte) : Buffer :=
  take targetStart target
    ++ take (length target - targetStart) src
    ++ drop (targetStart + length src) target.

(** [buf.write(string, offset)] for the ASCII tags the encoder writes. *)
Definition write (buf : Buffer) (s : string) (offset : nat) : Js.Result Buffer :=
  if decide (offset <= length buf)%nat
  then inr (blit buf offset (list_byte_of_string s))
  else inl Js.ERR_OUT_OF_RANGE.

(** The low eight bits of an integer, as a byte. *)
Definition byte_of_Z (z : Z) : byte :=
  default x00 (Byte.of_N (Z.to_N (Z.land z 255))).

Definition Z_of_byte (b : byte) : Z := Z.of_N (Byte.to_N b).

(** [width] bytes of [v], least significant first. *)
Definition le_bytes (width : nat) (v : Z) : list byte :=
  byte_of_Z <$> Z_to_little_endian (Z.of_nat width) 8 v.

Definition le_value (bs : list byte) : Z :=
  little_endian_to_Z 8 (Z_of_byte <$> bs).

(** [buf.writeUIntLE]-family: the value must lie in [0, 2^(8*width) - 1]
    and the field must lie inside the buffer, otherwise a RangeError is
    thrown; a fractional value is truncated when stored. *)
Definition writeUIntLE (width : nat) (buf : Buffer) (value : Js.number) (offset : nat)
  : Js.Result Buffer :=
  if Qle_bool 0 value && Qle_bool value (inject_Z (2 ^ (8 * Z.of_nat width) - 1))
  then if decide (offset + width <= length buf)%nat
       then inr (blit buf offset (le_bytes width (Qfloor value)))
       else inl Js.ERR_OUT_OF_RANGE
  else inl Js.ERR_OUT_OF_RANGE.

Definition writeUInt32LE := writeUIntLE 4.
Definition writeUInt16LE := writeUIntLE 2.

(** [buf.readUInt32LE(offset)] *)
Definition readUInt32LE (buf : Buffer) (offset : nat) : Js.Result Z :=
  if decide (offset + 4 <= length buf)%nat
  then inr (le_value (take 4 (drop offset buf)))
  else inl Js.ERR_OUT_OF_RANGE.

(** [source.copy(target, targetStart)]: returns the updated target. *)
Definition copy (source target : Buffer) (targetStart : nat) : Buffer :=
  blit target targetStart source.

End Buf.

(** ** wav-encoder.ts *)
Module Wav.
Import Buf.

(** [encodeWav(audioBuffer, sampleRate, channels, bitsPerSample)] *)
Definition encodeWav (audioBuffer : Buffer)
    (sampleRate channels bitsPerSample : Js.number) : Js.Result Buffer :=
  let dataLength := length audioBuffer in
  let headerLength := 44%nat in
  let totalLength := (headerLength + dataLength)%nat in
  let buffer := alloc totalLength in
  let offset := 0%nat in
  (* RIFF header *)
  do buffer <- write buffer "RIFF" offset;
  let offset := (offset + 4)%nat in
  do buffer <- writeUInt32LE buffer (Js.of_nat totalLength - 8)%Q offset;
  let offset := (offset + 4)%nat in
  do buffer <- write buffer "WAVE" offset;
  let offset := (offset + 4)%nat in
  (* fmt chunk *)
  do buffer <- write buffer "fmt " offset;
  let offset := (offset + 4)%nat in
  do buffer <- writeUInt32LE buffer 16%Q offset;
  let offset := (offset + 4)%nat in
  do buffer <- writeUInt16LE buffer 1%Q offset;
  let offset := (offset + 2)%nat in
  do buffer <- writeUInt16LE buffer channels offset;
  let offset := (offset + 2)%nat in
  do buffer <- writeUInt32LE buffer sampleRate offset;
  let offset := (offset + 4)%nat in
  do buffer <- writeUInt32LE buffer (sampleRate * channels * bitsPerSample / 8)%Q offset;
  let offset := (offset + 4)%nat in
  do buffer <- writeUInt16LE buffer (channels * bitsPerSample / 8)%Q offset;
  let offset := (offset + 2)%nat in
  do buffer <- writeUInt16LE buffer bitsPerSample offset;
  let offset := (offset + 2)%nat in
  (* data chunk *)
  do buffer <- write buffer "data" offset;
  let offset := (offset + 4)%nat in
  do buffer <- writeUInt32LE buffer (Js.of_nat dataLength) offset;
  let offset := (offset + 4)%nat in
  (* Audio data *)
  inr (copy audioBuffer buffer offset).

(** The defaults of the signature: 16 kHz, mono, 16 bits per sample. *)
Definition encodeWav_default (audioBuffer : Buffer) : Js.Result Buffer :=
  encodeWav audioBuffer 16000%Q 1%Q 16%Q.

End Wav.

(** ** services/audio.ts *)
Module Audio.
Import Buf.

Record AudioConfig : Type := mkAudioConfig {
  sampleRate : Js.number;
  channels : Js.number;
  deviceId : option Z
}.

(** The [inOptions] an input stream was opened with. *)
Record AudioIO : Type := mkAudioIO {
  channelCount : Js.number;
  io_sampleRate : Js.number;
  io_deviceId : Z
}.

(** What [this.emit] delivered to the listeners of the service. *)
Inductive Event : Type :=
| Started
| Level (level : Js.number)
| Stopped (buffer : Buffer) (duration : Js.number)
| Cancelled.

Record AudioService : Type := mkAudioService {
  audioIO : option AudioIO;
  chunks : list Buffer;
  isRecording : bool;
  config : AudioConfig;
  emitted : list Event
}.

(** The private [calculateLevel], a floating-point root mean square of the
    chunk's samples clamped to [0, 1]; only its being a function of the
    chunk matters here. *)
Class LevelMeter : Type := calculateLevel : Buffer -> Js.number.

(** How the audio hardware answers an attempt to open and start a stream. *)
Inductive IoOutcome : Type :=
| IoOk
| IoOpenFails (e : Js.Thrown)
| IoStartFails (e : Js.Thrown).

(** [new AudioService(config)] with the defaults of the constructor. *)
Definition new_AudioService (sampleRate channels : option Js.number)
    (deviceId : option Z) : AudioService :=
  {| audioIO := None; chunks := []; isRecording := false;
     config := {| sampleRate := default 16000%Q sampleRate;
                  channels := default 1%Q channels;
                  deviceId := deviceId |};
     emitted := [] |}.

Definition setDevice (id : Z) (s : AudioService) : AudioService :=
  {| audioIO := audioIO s; chunks := chunks s; isRecording := isRecording s;
     config := {| sampleRate := sampleRate (config s);
                  channels := channels (config s);
                  deviceId := Some id |};
     emitted := emitted s |}.

Definition emit (ev : Event) (s : AudioService) : AudioService :=
  {| audioIO := audioIO s; chunks := chunks s; isRecording := isRecording s;
     config := config s; emitted := emitted s ++ [ev] |}.

(** [this.emit('error', e)]: no listener for ['error'] is ever attached to
    the service, and an EventEmitter without one throws instead. *)
Definition emit_error (e : Js.Thrown) : Js.Thrown :=
  match e with
  | Js.Error m => Js.Error m
  | Js.NonError => Js.Error "ERR_UNHANDLED_ERROR"
  end.

Definition open_options (s : AudioService) : AudioIO :=
  {| channelCount := channels (config s);
     io_sampleRate := sampleRate (config s);
     io_deviceId := default (-1) (deviceId (config s)) |}.

(** [startRecording()]: the new state and what, if anything, it throws. *)
Definition startRecording (hw : IoOutcome) (s : AudioService)
  : AudioService * option Js.Thrown :=
  if isRecording s then (s, None)            (* console.warn, return *)
  else
    let cfg := config s in
    let opened := Some (open_options s) in
    match hw with
    | IoOk =>
        (emit Started
           {| audioIO := opened; chunks := []; isRecording := true;
              config := cfg; emitted := emitted s |}, None)
    | IoOpenFails e =>
        ({| audioIO := audioIO s; chunks := []; isRecording := false;
            config := cfg; emitted := emitted s |}, Some (emit_error e))
    | IoStartFails e =>
        ({| audioIO := opened; chunks := []; isRecording := false;
            config := cfg; emitted := emitted s |}, Some (emit_error e))
    end.

(** The ['data'] listener installed by [startRecording]; it runs for every
    chunk a stream delivers, also one that arrives after the capture has
    ended. *)
Definition onData `{LevelMeter} (chunk : Buffer) (s : AudioService) : AudioService :=
  emit (Level (calculateLevel chunk))
    {| audioIO := audioIO s; chunks := chunks s ++ [chunk];
       isRecording := isRecording s; config := config s;
       emitted := emitted s |}.

(** The private [cleanup()]. *)
Definition cleanup (s : AudioService) : AudioService :=
  {| audioIO := None; chunks := []; isRecording := false;
     config := config s; emitted := emitted s |}.

(** The ['error'] listener installed by [startRecording]: the emit throws
    before [cleanup] is reached. *)
Definition onError (err : Js.Thrown) (s : AudioService)
  : AudioService * option Js.Thrown :=
  (s, Some (emit_error err)).

(** [stopRecording()] *)
Definition stopRecording (s : AudioService) : Js.Result (AudioService * Buffer) :=
  if negb (isRecording s) then inl (Js.Error "Not recording")
  else
    let s := cleanup s in
    let audioBuffer := concat (chunks s) in
    let duration :=
      (Js.of_nat (length audioBuffer) / 2 / sampleRate (config s) * 1000)%Q in
    inr (emit (Stopped audioBuffer duration) s, audioBuffer).

(** [cancelRecording()] *)
Definition cancelRecording (s : AudioService) : AudioService :=
  if negb (isRecording s) then s else emit Cancelled (cleanup s).

Definition getIsRecording (s : AudioService) : bool := isRecording s.

End Audio.

(** ** A JavaScript [Map] with string keys: entries in insertion order *)
Module JsMap.

Definition t (V : Type) : Type := list (string * V).

Definition empty {V} : t V := [].

Fixpoint get {V} (k : string) (m : t V) : option V :=
  match m with
  | [] => None
  | (k', v) :: rest => if String.eqb k k' then Some v else get k rest
  end.

Definition has {V} (k : string) (m : t V) : bool :=
  match get k m with Some _ => true | None => false end.

(** [m.set(k, v)]: an existing key keeps its position and takes the new
    value; a new key goes last. *)
Fixpoint set {V} (k : string) (v : V) (m : t V) : t V :=
  match m with
  | [] => [(k, v)]
  | (k', v') :: rest =>
      if String.eqb k k' then (k', v) :: rest else (k', v') :: set k v rest
  end.

(** Mutation of the object stored under [k], through the reference that
    [get] returned. *)
Fixpoint mutate {V} (f : V -> V) (k : string) (m : t V) : t V :=
  match m with
  | [] => []
  | (k', v') :: rest =>
      if String.eqb k k' then (k', f v') :: rest else (k', v') :: mutate f k rest
  end.

Definition keys {V} (m : t V) : list string := map fst m.

End JsMap.

(** ** services/transcription: types.ts, openai.ts, manager.ts *)
Module Transcription.
Import Buf.

(** *** types.ts *)
Record TranscriptionOptions : Type := mkOptions {
  language : option string;
  prompt : option string;
  temperature : option Js.number;
  wordTimestamps : option bool
}.

(** The default [options = {}]. *)
Definition no_options : TranscriptionOptions :=
  {| language := None; prompt := None; temperature := None; wordTimestamps := None |}.

Record Segment : Type := mkSegment {
  seg_start : Js.number; seg_end : Js.number; seg_text : string
}.

Record Word : Type := mkWord {
  word_start : Js.number; word_end : Js.number; word_word : string
}.

Record TranscriptionResult : Type := mkResult {
  text : string;
  res_language : string;
  duration : Js.number;
  segments : option (list Segment);
  words : option (list Word)
}.

(** *** openai.ts *)
Inductive OpenAIModel : Type := whisper_1 | gpt_4o_transcribe.

(** The request the service hands to the client library. *)
Record TranscriptionCreateParams : Type := mkParams {
  file : Buffer;                         (* the bytes of audio.wav *)
  p_model : OpenAIModel;
  response_format : string;
  p_language : option string;
  p_prompt : option string;
  p_temperature : option Js.number;
  timestamp_granularities : option (list string)
}.

(** The [verbose_json] answer, times in seconds. *)
Record VerboseJson : Type := mkVerbose {
  v_text : string;
  v_language : option string;
  v_duration : option Js.number;
  v_segments : option (list Segment);
  v_words : option (list Word)
}.

(** The remote endpoint, reached with the client's API key: it answers or
    the call is rejected. *)
Definition RemoteApi : Type :=
  string -> TranscriptionCreateParams -> Js.Result VerboseJson.

Record OpenAITranscriptionService : Type := mkService {
  name : string;
  apiKey : string;                       (* the key held by [client] *)
  model : OpenAIModel
}.

(** [new OpenAITranscriptionService(apiKey, model)] *)
Definition new_service (key : string) (m : OpenAIModel) : OpenAITranscriptionService :=
  {| name := "OpenAI Whisper"; apiKey := key; model := m |}.

Definition setModel (m : OpenAIModel) (s : OpenAITranscriptionService) :=
  {| name := name s; apiKey := apiKey s; model := m |}.

Definition setApiKey (key : string) (s : OpenAITranscriptionService) :=
  {| name := name s; apiKey := key; model := model s |}.

(** [if (x) params.x = x] for an optional string. *)
Definition if_truthy (o : option string) : option string :=
  match o with
  | Some s => if Js.truthy s then Some s else None
  | None => None
  end.

Definition to_ms_segment (s : Segment) : Segment :=
  {| seg_start := Js.mul (seg_start s) 1000%Q; seg_end := Js.mul (seg_end s) 1000%Q;
     seg_text := seg_text s |}.

Definition to_ms_word (w : Word) : Word :=
  {| word_start := Js.mul (word_start w) 1000%Q; word_end := Js.mul (word_end w) 1000%Q;
     word_word := word_word w |}.

(** [OpenAITranscriptionService.transcribe(audio, options)] *)
Definition service_transcribe (api : RemoteApi) (s : OpenAITranscriptionService)
    (audio : Buffer) (options : TranscriptionOptions)
  : Js.Result TranscriptionResult :=
  (* Encode to WAV *)
  do wavBuffer <- Wav.encodeWav_default audio;
  (* Build request parameters *)
  let params :=
    {| file := wavBuffer;
       p_model := model s;
       response_format := "verbose_json";
       p_language := if_truthy (language options);
       p_prompt := if_truthy (prompt options);
       p_temperature := temperature options;
       timestamp_granularities :=
         match wordTimestamps options with
         | Some true => Some ["word"; "segment"]%string
         | _ => None
         end |} in
  (* Call API *)
  do result <- api (apiKey s) params;
  inr {| text := v_text result;
         res_language := default "unknown"%string (if_truthy (v_language result));
         duration := Js.mul (default 0%Q (v_duration result)) 1000%Q;
         segments := fmap (M := option) (map to_ms_segment) (v_segments result);
         words := fmap (M := option) (map to_ms_word) (v_words result) |}.

(** *** manager.ts *)
Record TranscriptionManager : Type := mkManager {
  services : JsMap.t OpenAITranscriptionService;
  primaryService : string
}.

(** [new TranscriptionManager()] *)
Definition new_manager : TranscriptionManager :=
  {| services := JsMap.empty; primaryService := "openai" |}.

(** [configureOpenAI(apiKey, model)] *)
Definition configureOpenAI (key : string) (m : OpenAIModel)
    (mgr : TranscriptionManager) : TranscriptionManager :=
  match JsMap.get "openai" (services mgr) with
  | Some existing =>
      {| services :=
           JsMap.mutate (fun s => setModel m (setApiKey key s)) "openai" (services mgr);
         primaryService := primaryService mgr |}
  | None =>
      {| services := JsMap.set "openai" (new_service key m) (services mgr);
         primaryService := primaryService mgr |}
  end.

(** [setPrimaryService(name)] *)
Definition setPrimaryService (n : string) (mgr : TranscriptionManager)
  : Js.Result TranscriptionManager :=
  if negb (JsMap.has n (services mgr))
  then inl (Js.Error ("Service " ++ n ++ " not configured"))
  else inr {| services := services mgr; primaryService := n |}.

Definition getPrimaryService (mgr : TranscriptionManager) : string :=
  primaryService mgr.

(** [transcribe(audio, options)] *)
Definition transcribe (api : RemoteApi) (mgr : TranscriptionManager)
    (audio : Buffer) (options : TranscriptionOptions)
  : Js.Result TranscriptionResult :=
  match JsMap.get (primaryService mgr) (services mgr) with
  | None =>
      inl (Js.Error ("Transcription service '" ++ primaryService mgr
                       ++ "' not configured"))
  | Some service => service_transcribe api service audio options
  end.

(** [getAvailableServices()] *)
Definition getAvailableServices (mgr : TranscriptionManager) : list string :=
  JsMap.keys (services mgr).

(** [isConfigured()] *)
Definition isConfigured (mgr : TranscriptionManager) : bool :=
  JsMap.has (primaryService mgr) (services mgr).

(** [getServiceName()] *)
Definition getServiceName (mgr : TranscriptionManager) : string :=
  match JsMap.get (primaryService mgr) (services mgr) with
  | Some service => if Js.truthy (name service) then name service else "Unknown"
  | None => "Unknown"
  end.

End Transcription.

(** ** services/database.ts

    The SQLite file is modelled by its logical content: the rows of
    [transcriptions] in rowid order, the AUTOINCREMENT counter, and the
    inverted index behind the FTS5 table [transcriptions_fts].  One call of
    a method runs one SQL statement; the triggers of [initSchema] run inside
    that statement, so a method maps a database to the database after the
    statement and its triggers. *)
Module Database.
Import Transcription.

Record StoredTranscription : Type := mkStored {
  id : Z;
  st_text : string;
  st_language : string;
  st_duration : Z;                       (* duration INTEGER *)
  service : string;
  createdAt : string                     (* 'YYYY-MM-DD HH:MM:SS' *)
}.

(** One entry of the inverted index: a token, the rowid of the row whose
    text contains it, and the position of the token in that text. *)
Definition Occurrence : Type := (string * Z * nat)%type.

Definition Index : Type := gset Occurrence.

(** The tokenizer of the FTS5 table (the default, [unicode61]). *)
Class Tokenizer : Type := tokenize : string -> list string.

(** What FTS5 makes of the argument of [MATCH] against an index: a syntax
    error, or the rowids that match.  The query language (bare words,
    quoted phrases, [AND], [OR], [NOT], [NEAR], prefixes, column filters)
    belongs to SQLite. *)
Class QueryEngine : Type := fts5_match : Index -> string -> Js.Result (gset Z).

Record Db : Type := mkDb {
  rows : list StoredTranscription;
  seq : Z;                               (* largest rowid ever assigned *)
  fts : Index
}.

(** A fresh file after [initSchema]. *)
Definition empty_db : Db := {| rows := []; seq := 0; fts := ∅ |}.

(** The rowids the index lists under a token. *)
Definition postings (idx : Index) (token : string) : gset Z :=
  set_map (fun o : Occurrence => o.1.2)
          (filter (fun o : Occurrence => o.1.1 = token) idx).

Section WithTokenizer.
Context `{Tokenizer}.

(** The index entries of one row. *)
Definition occurrences (rowid : Z) (txt : string) : Index :=
  list_to_set (imap (fun pos token => (token, rowid, pos)) (tokenize txt)).

(** [INSERT INTO transcriptions_fts(rowid, text) VALUES (id, text)] *)
Definition fts_insert (rowid : Z) (txt : string) (idx : Index) : Index :=
  idx ∪ occurrences rowid txt.

(** [INSERT INTO transcriptions_fts(transcriptions_fts, rowid, text)
     VALUES ('delete', id, text)] *)
Definition fts_delete (rowid : Z) (txt : string) (idx : Index) : Index :=
  idx ∖ occurrences rowid txt.

(** Trigger [transcriptions_ai], AFTER INSERT. *)
Definition transcriptions_ai (new : StoredTranscription) : Index -> Index :=
  fts_insert (id new) (st_text new).

(** Trigger [transcriptions_ad], AFTER DELETE. *)
Definition transcriptions_ad (old : StoredTranscription) : Index -> Index :=
  fts_delete (id old) (st_text old).

(** Trigger [transcriptions_au], AFTER UPDATE. *)
Definition transcriptions_au (old new : StoredTranscription) (idx : Index) : Index :=
  fts_insert (id new) (st_text new) (fts_delete (id old) (st_text old) idx).

(** [insert(result, service)]; [now] is CURRENT_TIMESTAMP.  Returns the
    database after the statement and [lastInsertRowid]. *)
Definition insert (now : string) (db : Db) (result : TranscriptionResult)
    (svc : string) : Db * Z :=
  let new :=
    {| id := seq db + 1;
       st_text := text result;
       st_language := res_language result;
       st_duration := Js.Math_round (duration result);
       service := svc;
       createdAt := now |} in
  ({| rows := rows db ++ [new];
      seq := id new;
      fts := transcriptions_ai new (fts db) |},
   id new).

(** [delete(id)] *)
Definition delete (k : Z) (db : Db) : Db :=
  let deleted := filter (fun r => id r = k) (rows db) in
  {| rows := filter (fun r => id r <> k) (rows db);
     seq := seq db;
     fts := foldr transcriptions_ad (fts db) deleted |}.

(** [clear()] *)
Definition clear (db : Db) : Db :=
  {| rows := [];
     seq := seq db;
     fts := foldr transcriptions_ad (fts db) (rows db) |}.

(** A row with another text. *)
Definition with_text (txt : string) (r : StoredTranscription) : StoredTranscription :=
  {| id := id r; st_text := txt; st_language := st_language r;
     st_duration := st_duration r; service := service r;
     createdAt := createdAt r |}.

(** [UPDATE transcriptions SET text = ? WHERE id = ?], the statement the
    AFTER UPDATE trigger of [initSchema] is written for.  No method of the
    class issues it. *)
Definition update_text (k : Z) (txt : string) (db : Db) : Db :=
  let updated := filter (fun r => id r = k) (rows db) in
  {| rows := (fun r => if decide (id r = k) then with_text txt r else r) <$> rows db;
     seq := seq db;
     fts := foldr (fun old => transcriptions_au old (with_text txt old))
                  (fts db) updated |}.
End WithTokenizer.

(** [a] was created no earlier than [b]. *)
Definition newer_eq (a b : StoredTranscription) : Prop :=
  String.leb (createdAt b) (createdAt a) = true.

Global Instance newer_eq_dec a b : Decision (newer_eq a b).
Proof. unfold newer_eq. apply _. Defined.

(** One row put in its place among rows already in order: in front of the
    first row that is not newer than it. *)
Fixpoint place_by_created_at (r : StoredTranscription)
    (sorted : list StoredTranscription) : list StoredTranscription :=
  match sorted with
  | [] => [r]
  | r' :: rest =>
      if String.leb (createdAt r') (createdAt r)
      then r :: sorted
      else r' :: place_by_created_at r rest
  end.

(** [ORDER BY created_at DESC]: rows with equal [created_at] stay in the
    order the scan produced them, which is rowid order. *)
Definition order_by_created_at_desc
  : list StoredTranscription -> list StoredTranscription :=
  foldr place_by_created_at [].

(** [LIMIT n]: a negative bound means no bound. *)
Definition sql_limit {A} (n : Z) (l : list A) : list A :=
  if n <? 0 then l else take (Z.to_nat n) l.

(** [getRecent(limit)] *)
Definition getRecent (db : Db) (limit : Z) : list StoredTranscription :=
  sql_limit limit (order_by_created_at_desc (rows db)).

(** [getRecent()] with the default [limit = 50]. *)
Definition getRecent_default (db : Db) : list StoredTranscription :=
  getRecent db 50.

(** [search(query, limit)]: the rows of [transcriptions] joined with the
    rowids that [MATCH] selects from the index; a query that FTS5 rejects
    makes the statement throw. *)
Definition search `{QueryEngine} (db : Db) (query : string) (limit : Z)
  : Js.Result (list StoredTranscription) :=
  do hits <- fts5_match (fts db) query;
  inr (sql_limit limit
         (order_by_created_at_desc
            (filter (fun r => id r ∈ hits) (rows db)))).

(** [search(query)] with the default [limit = 50]. *)
Definition search_default `{QueryEngine} (db : Db) (query : string)
  : Js.Result (list StoredTranscription) :=
  search db query 50.

(** [getById(id)] *)
Definition getById (db : Db) (k : Z) : option StoredTranscription :=
  head (filter (fun r => id r = k) (rows db)).

End Database.

(** ** services/clipboard.ts *)
Module Clipboard.

Record ClipboardManager : Type := mkClipboard {
  previousContent : string
}.

(** [new ClipboardManager()] *)
Definition new_ClipboardManager : ClipboardManager :=
  {| previousContent := "" |}.

(** The manager together with the system clipboard it reads and writes
    (the text that [clipboard.readText()] returns). *)
Definition State : Type := (ClipboardManager * string)%type.

(** [copy(text)] *)
Definition copy (txt : string) (st : State) : State :=
  let '(_, system) := st in
  ({| previousContent := system |}, txt).

(** [restorePrevious()] *)
Definition restorePrevious (st : State) : State :=
  let '(mgr, system) := st in
  if Js.truthy (previousContent mgr)
  then ({| previousContent := "" |}, previousContent mgr)
  else st.

(** [read()] *)
Definition read (st : State) : string := snd st.

(** [paste()]: after the delay, the platform's paste command runs; the
    promise resolves, or is rejected with the command's error. *)
Definition paste (automation : option Js.Thrown) : Js.Result unit :=
  match automation with
  | Some e => inl e
  | None => inr tt
  end.

(** [copyAndPaste(text)] *)
Definition copyAndPaste (automation : option Js.Thrown) (txt : string) (st : State)
  : State * Js.Result unit :=
  (copy txt st, paste automation).

End Clipboard.

(** ** ipc.ts, with the part of config.ts it reads *)
Module Ipc.
Import Buf Transcription.

(** The fields of [AppConfig] that the handlers consult. *)
Record AppConfig : Type := mkConfig {
  openai_apiKey : string;
  openai_model : OpenAIModel;
  cfg_language : string;
  customVocabulary : list string;
  autoCopy : bool;
  autoPaste : bool
}.

Inductive RecordingState : Type :=
| idle | recording | processing | complete | error.

(** What [mainWindow.webContents.send] pushed to the renderer. *)
Inductive Message : Type :=
| RecordingStateMsg (s : RecordingState)         (* 'recording:state' *)
| ErrorMsg (message : string)                    (* 'error' *)
| TranscriptionResultMsg (r : TranscriptionResult) (* 'transcription:result' *)
| AudioLevelMsg (level : Js.number).             (* 'audio:level' *)

(** The services handed to [setupIpcHandlers], the stored configuration,
    the handler's own [currentAudioBuffer] and the messages sent so far. *)
Record World : Type := mkWorld {
  audio : Audio.AudioService;
  transcription : TranscriptionManager;
  database : Database.Db;
  clipboard : Clipboard.State;
  config : AppConfig;
  currentAudioBuffer : option Buffer;
  sent : list Message
}.

(** How the outside answers during one handler run. *)
Record Env : Type := mkEnv {
  hardware : Audio.IoOutcome;            (* opening the input stream *)
  api : RemoteApi;                       (* the transcription endpoint *)
  db_fault : option Js.Thrown;           (* SQLite refusing the INSERT *)
  automation : option Js.Thrown;         (* the paste command failing *)
  now : string                           (* CURRENT_TIMESTAMP *)
}.

(** The object a handler returns to the renderer. *)
Inductive Response (A : Type) : Type :=
| Success (payload : A)                  (* { success: true, ... } *)
| Failure (message : string).            (* { success: false, error } *)
Global Arguments Success {A} payload.
Global Arguments Failure {A} message.

(** *** Handler code: state plus exceptions *)
Definition M (A : Type) : Type := World -> World * Js.Result A.

Definition ret {A} (a : A) : M A := fun w => (w, inr a).
Definition throw {A} (e : Js.Thrown) : M A := fun w => (w, inl e).
Definition bindM {A B} (m : M A) (k : A -> M B) : M B :=
  fun w =>
    match m w with
    | (w', inr a) => k a w'
    | (w', inl e) => (w', inl e)
    end.
Definition try_catch {A} (body : M A) (handler : Js.Thrown -> M A) : M A :=
  fun w =>
    match body w with
    | (w', inr a) => (w', inr a)
    | (w', inl e) => handler e w'
    end.
Definition get_world : M World := fun w => (w, inr w).
Definition put_world (w : World) : M unit := fun _ => (w, inr tt).
Definition lift {A} (r : Js.Result A) : M A := fun w => (w, r).
Definition when (b : bool) (m : M unit) : M unit := if b then m else ret tt.

Definition set_audio (a : Audio.AudioService) (w : World) : World :=
  {| audio := a; transcription := transcription w; database := database w;
     clipboard := clipboard w; config := config w;
     currentAudioBuffer := currentAudioBuffer w; sent := sent w |}.
Definition set_transcription (t : TranscriptionManager) (w : World) : World :=
  {| audio := audio w; transcription := t; database := database w;
     clipboard := clipboard w; config := config w;
     currentAudioBuffer := currentAudioBuffer w; sent := sent w |}.
Definition set_database (d : Database.Db) (w : World) : World :=
  {| audio := audio w; transcription := transcription w; database := d;
     clipboard := clipboard w; config := config w;
     currentAudioBuffer := currentAudioBuffer w; sent := sent w |}.
Definition set_clipboard (c : Clipboard.State) (w : World) : World :=
  {| audio := audio w; transcription := transcription w; database := database w;
     clipboard := c; config := config w;
     currentAudioBuffer := currentAudioBuffer w; sent := sent w |}.
Definition set_config (c : AppConfig) (w : World) : World :=
  {| audio := audio w; transcription := transcription w; database := database w;
     clipboard := clipboard w; config := c;
     currentAudioBuffer := currentAudioBuffer w; sent := sent w |}.
Definition set_currentAudioBuffer (b : option Buffer) (w : World) : World :=
  {| audio := audio w; transcription := transcription w; database := database w;
     clipboard := clipboard w; config := config w;
     currentAudioBuffer := b; sent := sent w |}.
Definition push_sent (m : Message) (w : World) : World :=
  {| audio := audio w; transcription := transcription w; database := database w;
     clipboard := clipboard w; config := config w;
     currentAudioBuffer := currentAudioBuffer w; sent := sent w ++ [m] |}.

Definition modify (f : World -> World) : M unit := fun w => (f w, inr tt).

(** [mainWindow.webContents.send(channel, payload)] *)
Definition send (m : Message) : M unit := modify (push_sent m).

End Ipc.

Notation "'run' x <- m ; k" := (Ipc.bindM m (fun x => k))
  (at level 10, x name, m at level 100, k at level 200,
   format "'[v' 'run'  x  <-  m ; '/' k ']'").
Notation "'exec' m ; k" := (Ipc.bindM m (fun _ => k))
  (at level 10, m at level 100, k at level 200,
   format "'[v' 'exec'  m ; '/' k ']'").

Module Handlers.
Import Buf Transcription Ipc.

Section WithRuntime.
Context `{Audio.LevelMeter} `{Database.Tokenizer} `{Database.QueryEngine}.

(** [audio.startRecording()] inside a handler *)
Definition do_startRecording (env : Env) : M unit :=
  fun w =>
    let '(a, thrown) := Audio.startRecording (hardware env) (audio w) in
    (set_audio a w, match thrown with Some e => inl e | None => inr tt end).

(** [audio.stopRecording()] inside a handler *)
Definition do_stopRecording : M Buffer :=
  fun w =>
    match Audio.stopRecording (audio w) with
    | inl e => (w, inl e)
    | inr (a, buf) => (set_audio a w, inr buf)
    end.

(** [database.insert(result, serviceName)] inside a handler *)
Definition do_insert (env : Env) (result : TranscriptionResult)
    (serviceName : string) : M Z :=
  fun w =>
    match db_fault env with
    | Some e => (w, inl e)
    | None =>
        let '(db, rowid) := Database.insert (now env) (database w) result serviceName in
        (set_database db w, inr rowid)
    end.

(** [ipcMain.handle('audio:start', ...)] *)
Definition audio_start (env : Env) : M (Response unit) :=
  try_catch
    (exec do_startRecording env;
     exec send (RecordingStateMsg recording);
     ret (Success tt))
    (fun thrown =>
       let message := Js.message_or "Failed to start recording" thrown in
       exec send (ErrorMsg message);
       ret (Failure message)).

(** The [try] block of the ['audio:stop'] handler. *)
Definition audio_stop_try (env : Env) : M (Response TranscriptionResult) :=
  run buf <- do_stopRecording;
  exec modify (set_currentAudioBuffer (Some buf));
  exec send (RecordingStateMsg processing);
  (* Check if transcription is configured *)
  run w <- get_world;
  exec (if negb (isConfigured (transcription w)) then
         let config := config w in
         if Js.truthy (openai_apiKey config) then
           modify (set_transcription
                     (configureOpenAI (openai_apiKey config) (openai_model config)
                        (transcription w)))
         else
           throw (Js.Error "OpenAI API key not configured. Please add it in Settings.")
       else ret tt);
  (* Transcribe *)
  run w <- get_world;
  let config := config w in
  let language :=
    if String.eqb (cfg_language config) "auto" then None
    else Some (cfg_language config) in
  run result <-
    lift (transcribe (api env) (transcription w) buf
            {| language := language;
               prompt := Some (String.concat ", " (customVocabulary config));
               temperature := None;
               wordTimestamps := None |});
  (* Save to history *)
  let serviceName := getServiceName (transcription w) in
  exec do_insert env result serviceName;
  (* Handle output *)
  exec when (autoCopy config)
        (modify (fun w => set_clipboard (Clipboard.copy (text result) (clipboard w)) w));
  exec when (autoPaste config)
        (fun w =>
           let '(c, r) := Clipboard.copyAndPaste (automation env) (text result)
                            (clipboard w) in
           (set_clipboard c w, r));
  (* Send result to renderer *)
  exec send (TranscriptionResultMsg result);
  exec send (RecordingStateMsg complete);
  ret (Success result).

(** [ipcMain.handle('audio:stop', ...)] *)
Definition audio_stop (env : Env) : M (Response TranscriptionResult) :=
  try_catch (audio_stop_try env)
    (fun thrown =>
       let message := Js.message_or "Transcription failed" thrown in
       exec send (ErrorMsg message);
       exec send (RecordingStateMsg error);
       ret (Failure message)).

(** [ipcMain.handle('audio:cancel', ...)] *)
Definition audio_cancel : M (Response unit) :=
  exec modify (fun w => set_audio (Audio.cancelRecording (audio w)) w);
  exec send (RecordingStateMsg idle);
  ret (Success tt).

(** A chunk delivered by a stream: the ['data'] listener buffers it and
    emits its level, which [audio.on('level', ...)] forwards. *)
Definition audio_data (chunk : Buffer) (w : World) : World :=
  push_sent (AudioLevelMsg (Audio.calculateLevel chunk))
    (set_audio (Audio.onData chunk (audio w)) w).

(** [ipcMain.handle('history:get', ...)]: [limit || 50]; the renderer
    passes an integer or nothing. *)
Definition history_get (limit : option Z) (w : World)
  : list Database.StoredTranscription :=
  Database.getRecent (database w)
    (match limit with
     | None => 50
     | Some 0 => 50
     | Some n => n
     end).

(** [ipcMain.handle('history:search', ...)] *)
Definition history_search (query : string) (w : World)
  : Js.Result (list Database.StoredTranscription) :=
  Database.search_default (database w) query.

(** [ipcMain.handle('history:delete', ...)] *)
Definition history_delete (k : Z) : M (Response unit) :=
  exec modify (fun w => set_database (Database.delete k (database w)) w);
  ret (Success tt).

(** [ipcMain.handle('history:clear', ...)] *)
Definition history_clear : M (Response unit) :=
  exec modify (fun w => set_database (Database.clear (database w)) w);
  ret (Success tt).

(** [ipcMain.handle('clipboard:copy', ...)] *)
Definition clipboard_copy (txt : string) : M (Response unit) :=
  exec modify (fun w => set_clipboard (Clipboard.copy txt (clipboard w)) w);
  ret (Success tt).

(** [ipcMain.handle('transcription:get-services', ...)] *)
Definition transcription_get_services (w : World) : list string :=
  getAvailableServices (transcription w).

(** [ipcMain.handle('transcription:set-service', ...)]: nothing catches
    what [setPrimaryService] throws. *)
Definition transcription_set_service (svc : string) : M (Response unit) :=
  run w <- get_world;
  run t <- lift (setPrimaryService svc (transcription w));
  exec modify (set_transcription t);
  ret (Success tt).
End WithRuntime.

(** The state of the pipeline as the renderer last heard it. *)
Definition last_state (msgs : list Message) : option RecordingState :=
  last (omap (fun m => match m with RecordingStateMsg s => Some s | _ => None end) msgs).

Definition error_messages (msgs : list Message) : list string :=
  omap (fun m => match m with ErrorMsg e => Some e | _ => None end) msgs.

End Handlers.

(** ** The container layout of the specification *)
Module WavLayout.
Import Buf.

(** The canonical 44-byte header for 16 kHz, mono, 16-bit PCM carrying
    [dataSize] bytes of samples: magic, total size minus 8, format magic,
    the format sub-chunk (size 16, tag 1, channels, sample rate, byte
    rate, block align, bits per sample), then the data tag and size. *)
Definition canonical_header (dataSize : Z) : list byte :=
  list_byte_of_string "RIFF"
    ++ le_bytes 4 (dataSize + 36)
    ++ list_byte_of_string "WAVE"
    ++ list_byte_of_string "fmt "
    ++ le_bytes 4 16
    ++ le_bytes 2 1
    ++ le_bytes 2 1
    ++ le_bytes 4 16000
    ++ le_bytes 4 32000
    ++ le_bytes 2 2
    ++ le_bytes 2 16
    ++ list_byte_of_string "data"
    ++ le_bytes 4 dataSize.

(** The data-size field of a container. *)
Definition dataSize_field (container : Buffer) : Js.Result Z :=
  readUInt32LE container 40.

End WavLayout.

(** ** Histories of calls, and the concrete scenarios of the specification *)
Module Scenario.
Import Buf Transcription Ipc.

(** A capture session: a new service on which [startRecording] opened the
    stream, and the chunks the stream then delivered, in order. *)
Definition capture `{Audio.LevelMeter} (delivered : list Buffer) : Audio.AudioService :=
  foldl (fun s chunk => Audio.onData chunk s)
        (Audio.startRecording Audio.IoOk (Audio.new_AudioService None None None)).1
        delivered.

(** One call on the history store. *)
Inductive DbCall : Type :=
| CallInsert (now : string) (result : TranscriptionResult) (svc : string)
| CallDelete (k : Z)
| CallClear.

Definition db_call `{Database.Tokenizer} (db : Database.Db) (c : DbCall) : Database.Db :=
  match c with
  | CallInsert now result svc => (Database.insert now db result svc).1
  | CallDelete k => Database.delete k db
  | CallClear => Database.clear db
  end.

(** The store after a history of calls on a fresh file. *)
Definition db_after `{Database.Tokenizer} (calls : list DbCall) : Database.Db :=
  foldl db_call Database.empty_db calls.

(** One statement on the database file: those the methods of the class
    run, and the update of a row's text that the AFTER UPDATE trigger is
    there for. *)
Inductive Statement : Type :=
| Call (c : DbCall)
| UpdateText (k : Z) (txt : string).

Definition run_statement `{Database.Tokenizer} (db : Database.Db) (st : Statement)
  : Database.Db :=
  match st with
  | Call c => db_call db c
  | UpdateText k txt => Database.update_text k txt db
  end.

(** The file after a history of statements on a fresh one. *)
Definition db_state `{Database.Tokenizer} (statements : list Statement) : Database.Db :=
  foldl run_statement Database.empty_db statements.

(** One call on the transcription manager; a throwing [setPrimaryService]
    leaves the manager as it was. *)
Inductive ManagerCall : Type :=
| CallConfigure (key : string) (m : OpenAIModel)
| CallSetPrimary (n : string).

Definition manager_call (mgr : TranscriptionManager) (c : ManagerCall)
  : TranscriptionManager :=
  match c with
  | CallConfigure key m => configureOpenAI key m mgr
  | CallSetPrimary n =>
      match setPrimaryService n mgr with
      | inr mgr' => mgr'
      | inl _ => mgr
      end
  end.

Definition manager_after (calls : list ManagerCall) : TranscriptionManager :=
  foldl manager_call new_manager calls.

(** The defaults of config.ts, for the fields the handlers read. *)
Definition default_config : AppConfig :=
  {| openai_apiKey := ""; openai_model := whisper_1; cfg_language := "auto";
     customVocabulary := []; autoCopy := true; autoPaste := true |}.

(** The services as index.ts wires them at start-up ([initializeServices]
    configures the manager when a key is stored). *)
Definition boot (cfg : AppConfig) (system_clipboard : string) : World :=
  {| audio := Audio.new_AudioService None None None;
     transcription :=
       if Js.truthy (openai_apiKey cfg)
       then configureOpenAI (openai_apiKey cfg) (openai_model cfg) new_manager
       else new_manager;
     database := Database.empty_db;
     clipboard := (Clipboard.new_ClipboardManager, system_clipboard);
     config := cfg;
     currentAudioBuffer := None;
     sent := [] |}.

(** Stand-ins for the concrete scenarios: a meter that reads silence and
    a tokenizer that splits at spaces. *)
Definition silent_meter : Audio.LevelMeter := fun _ => 0%Q.

Fixpoint split_at_spaces (word rest : string) : list string :=
  match rest with
  | EmptyString => if Js.truthy word then [word] else []
  | String c rest' =>
      if Ascii.eqb c " "
      then (if Js.truthy word then [word] else []) ++ split_at_spaces "" rest'
      else split_at_spaces (word ++ String c "") rest'
  end.

Definition space_tokenizer : Database.Tokenizer := split_at_spaces "".

(** Scenario A: three chunks of 320 sixteen-bit samples. *)
Definition chunk_320 : Buffer := replicate 640 x01.
Definition scenarioA_chunks : list Buffer := [chunk_320; chunk_320; chunk_320].

(** An endpoint that answers every request with "hello world". *)
Definition answering_api : RemoteApi :=
  fun _ _ => inr {| v_text := "hello world"; v_language := Some "en"%string;
                    v_duration := Some (12 # 10)%Q;
                    v_segments := None; v_words := None |}.

(** Scenario C: an endpoint that rejects every request. *)
Definition rate_limited_api : RemoteApi :=
  fun _ _ => inl (Js.Error "rate limited").

Definition configured : AppConfig :=
  {| openai_apiKey := "sk-test"; openai_model := whisper_1; cfg_language := "auto";
     customVocabulary := []; autoCopy := true; autoPaste := true |}.

(** A world in which a recording is under way. *)
Definition recording_world : World :=
  {| audio := @capture silent_meter scenarioA_chunks;
     transcription := transcription (boot configured "before");
     database := Database.empty_db;
     clipboard := clipboard (boot configured "before");
     config := configured;
     currentAudioBuffer := None;
     sent := [RecordingStateMsg recording] |}.

Definition env_ok : Env :=
  {| hardware := Audio.IoOk; api := answering_api; db_fault := None;
     automation := None; now := "2024-01-01 00:00:00" |}.

Definition env_rate_limited : Env :=
  {| hardware := Audio.IoOk; api := rate_limited_api; db_fault := None;
     automation := None; now := "2024-01-01 00:00:00" |}.

Definition env_paste_fails : Env :=
  {| hardware := Audio.IoOk; api := answering_api; db_fault := None;
     automation := Some (Js.Error "Command failed: xdotool key ctrl+v");
     now := "2024-01-01 00:00:00" |}.

(** Scenario D: one entry, "hello world", and a later one, "second note". *)
Definition hello_world : TranscriptionResult :=
  {| text := "hello world"; res_language := "en"; duration := 1200%Q;
     segments := None; words := None |}.

Definition second_note : TranscriptionResult :=
  {| text := "second note"; res_language := "en"; duration := (4001 # 2)%Q;
     segments := None; words := None |}.

Definition two_entries : Database.Db :=
  @db_after space_tokenizer
    [CallInsert "2024-01-01 10:00:00" hello_world "cloud";
     CallInsert "2024-01-01 10:05:00" second_note "cloud"].

Definition history_world : World :=
  {| audio := Audio.new_AudioService None None None;
     transcription := new_manager;
     database := two_entries;
     clipboard := (Clipboard.new_ClipboardManager, ""%string);
     config := default_config;
     currentAudioBuffer := None;
     sent := [] |}.

End Scenario.

(** ** Invariants of the reachable states *)
Module Invariant.
Import Transcription Database.

(** Only the key ['openai'] is ever stored in the manager, and it is never
    removed. *)
Definition manager_shape (mgr : TranscriptionManager) : Prop :=
  primaryService mgr = "openai"%string /\
  (services mgr = []
   \/ exists key m, services mgr = [("openai"%string, new_service key m)]).

(** Row ids are positive, distinct and never above the AUTOINCREMENT
    counter. *)
Definition ids_ok (db : Db) : Prop :=
  0 <= seq db
  /\ NoDup (id <$> rows db)
  /\ Forall (fun r => 0 < id r <= seq db) (rows db).

(** The index holds a token for a rowid at a position exactly when the row
    with that id exists and its text has the token at that position. *)
Definition indexed `{Tokenizer} (db : Db) : Prop :=
  forall (token : string) (rowid : Z) (pos : nat),
    (token, rowid, pos) ∈ fts db
    <-> exists r, r ∈ rows db /\ id r = rowid
                  /\ tokenize (st_text r) !! pos = Some token.

End Invariant.

(** ** Further histories and helpers for the handlers *)
Module Cycle.
Import Buf Transcription Ipc.

(** The options the ['audio:stop'] handler passes to [transcribe]. *)
Definition stop_options (cfg : AppConfig) : TranscriptionOptions :=
  {| language := if String.eqb (cfg_language cfg) "auto" then None
                 else Some (cfg_language cfg);
     prompt := Some (String.concat ", " (customVocabulary cfg));
     temperature := None;
     wordTimestamps := None |}.

(** The check the ['audio:stop'] handler makes before it transcribes: a
    manager that is not configured is configured from the stored key, and
    without a stored key the handler throws. *)
Definition ensure_configured (cfg : AppConfig) (mgr : TranscriptionManager)
  : Js.Result TranscriptionManager :=
  if negb (isConfigured mgr) then
    if Js.truthy (openai_apiKey cfg) then
      inr (configureOpenAI (openai_apiKey cfg) (openai_model cfg) mgr)
    else
      inl (Js.Error "OpenAI API key not configured. Please add it in Settings.")
  else inr mgr.

(** What a failed ['audio:stop'] leaves behind for the renderer: the answer
    [{ success: false, error }], one more error message, carrying the
    message of what was thrown, and [error] as the last state sent. *)
Definition reports_failure (before : World)
    (outcome : World * Js.Result (Response TranscriptionResult))
    (thrown : Js.Thrown) : Prop :=
  let message := Js.message_or "Transcription failed" thrown in
  outcome.2 = inr (Failure message)
  /\ Handlers.last_state (sent outcome.1) = Some error
  /\ Handlers.error_messages (sent outcome.1)
     = Handlers.error_messages (sent before) ++ [message].

(** The clipboard after the output step of a successful cycle. *)
Definition output_clipboard (cfg : AppConfig) (txt : string) (c : Clipboard.State)
  : Clipboard.State :=
  let c := if autoCopy cfg then Clipboard.copy txt c else c in
  if autoPaste cfg then Clipboard.copy txt c else c.

(** The messages a handler run added to those already sent. *)
Definition new_messages (before after : World) : list Message :=
  drop (length (sent before)) (sent after).

(** Chunks delivered by the stream, one after the other. *)
Definition deliver `{Audio.LevelMeter} (w : World) (delivered : list Buffer) : World :=
  foldl (fun w chunk => Handlers.audio_data chunk w) w delivered.

End Cycle.

(** ** ipc.ts: the ['config:set'] handler *)
Module Settings.
Import Transcription Ipc.

(** A key of the configuration that the handlers read, with a value of the
    type the key has in [AppConfig]. *)
Inductive Setting : Type :=
| OpenaiApiKey (value : string)          (* 'transcription.openai.apiKey' *)
| OpenaiModel (value : OpenAIModel)      (* 'transcription.openai.model' *)
| Language (value : string)              (* 'transcription.language' *)
| CustomVocabulary (value : list string) (* 'processing.customVocabulary' *)
| AutoCopy (value : bool)                (* 'output.autoCopy' *)
| AutoPaste (value : bool).              (* 'output.autoPaste' *)

(** [setConfigValue(key, value)] *)
Definition setConfigValue (s : Setting) (cfg : AppConfig) : AppConfig :=
  match s with
  | OpenaiApiKey v =>
      {| openai_apiKey := v; openai_model := openai_model cfg;
         cfg_language := cfg_language cfg; customVocabulary := customVocabulary cfg;
         autoCopy := autoCopy cfg; autoPaste := autoPaste cfg |}
  | OpenaiModel v =>
      {| openai_apiKey := openai_apiKey cfg; openai_model := v;
         cfg_language := cfg_language cfg; customVocabulary := customVocabulary cfg;
         autoCopy := autoCopy cfg; autoPaste := autoPaste cfg |}
  | Language v =>
      {| openai_apiKey := openai_apiKey cfg; openai_model := openai_model cfg;
         cfg_language := v; customVocabulary := customVocabulary cfg;
         autoCopy := autoCopy cfg; autoPaste := autoPaste cfg |}
  | CustomVocabulary v =>
      {| openai_apiKey := openai_apiKey cfg; openai_model := openai_model cfg;
         cfg_language := cfg_language cfg; customVocabulary := v;
         autoCopy := autoCopy cfg; autoPaste := autoPaste cfg |}
  | AutoCopy v =>
      {| openai_apiKey := openai_apiKey cfg; openai_model := openai_model cfg;
         cfg_language := cfg_language cfg; customVocabulary := customVocabulary cfg;
         autoCopy := v; autoPaste := autoPaste cfg |}
  | AutoPaste v =>
      {| openai_apiKey := openai_apiKey cfg; openai_model := openai_model cfg;
         cfg_language := cfg_language cfg; customVocabulary := customVocabulary cfg;
         autoCopy := autoCopy cfg; autoPaste := v |}
  end.

(** [key === 'transcription.openai.apiKey' || key === 'transcription.openai.model'] *)
Definition is_openai_key (s : Setting) : bool :=
  match s with
  | OpenaiApiKey _ | OpenaiModel _ => true
  | _ => false
  end.

(** [ipcMain.handle('config:set', ...)] *)
Definition config_set (s : Setting) : M (Response unit) :=
  exec modify (fun w => set_config (setConfigValue s (config w)) w);
  (* Reconfigure services if needed *)
  exec (if is_openai_key s then
          run w <- get_world;
          let config := config w in
          if Js.truthy (openai_apiKey config) then
            modify (set_transcription
                      (configureOpenAI (openai_apiKey config) (openai_model config)
                         (transcription w)))
          else ret tt
        else ret tt);
  ret (Success tt).

End Settings.

(** ** The container for any encoder parameters *)
Module WavFormat.
Import Buf.

(** Whether a value passes the range check of a [width]-byte unsigned
    write. *)
Definition fits (width : nat) (value : Js.number) : bool :=
  Qle_bool 0 value && Qle_bool value (inject_Z (2 ^ (8 * Z.of_nat width) - 1)).

(** Whether every format field [encodeWav] writes passes its range
    check. *)
Definition parameters_fit (sampleRate channels bitsPerSample : Js.number) : bool :=
  fits 2 channels
  && fits 4 sampleRate
  && fits 4 (sampleRate * channels * bitsPerSample / 8)%Q
  && fits 2 (channels * bitsPerSample / 8)%Q
  && fits 2 bitsPerSample.

(** The 44 bytes in front of the samples: fractional field values are
    stored truncated. *)
Definition header (dataSize : Z) (sampleRate channels bitsPerSample : Js.number)
  : list byte :=
  list_byte_of_string "RIFF"
    ++ le_bytes 4 (dataSize + 36)
    ++ list_byte_of_string "WAVE"
    ++ list_byte_of_string "fmt "
    ++ le_bytes 4 16
    ++ le_bytes 2 1
    ++ le_bytes 2 (Qfloor channels)
    ++ le_bytes 4 (Qfloor sampleRate)
    ++ le_bytes 4 (Qfloor (sampleRate * channels * bitsPerSample / 8)%Q)
    ++ le_bytes 2 (Qfloor (channels * bitsPerSample / 8)%Q)
    ++ le_bytes 2 (Qfloor bitsPerSample)
    ++ list_byte_of_string "data"
    ++ le_bytes 4 dataSize.

End WavFormat.

(** ** Histories of manager calls *)
Module ManagerHistory.
Import Transcription.

(** Whether a manager call is a configuration. *)
Definition is_configure (c : Scenario.ManagerCall) : bool :=
  match c with
  | Scenario.CallConfigure _ _ => true
  | Scenario.CallSetPrimary _ => false
  end.

(** The request [OpenAITranscriptionService.transcribe] builds for a WAV
    file. *)
Definition request (s : OpenAITranscriptionService) (wav : Buf.Buffer)
    (options : TranscriptionOptions) : TranscriptionCreateParams :=
  {| file := wav;
     p_model := model s;
     response_format := "verbose_json";
     p_language := if_truthy (language options);
     p_prompt := if_truthy (prompt options);
     p_temperature := temperature options;
     timestamp_granularities :=
       match wordTimestamps options with
       | Some true => Some ["word"; "segment"]%string
       | _ => None
       end |}.

End ManagerHistory.

(** ** Further concrete inputs *)
Module Sample.
Import Buf Transcription Ipc.

(** An endpoint that reports two segments, in seconds. *)
Definition segmented_api : RemoteApi :=
  fun _ _ =>
    inr {| v_text := "hello world";
           v_language := None;
           v_duration := Some (12 # 10)%Q;
           v_segments :=
             Some [ {| seg_start := 0%Q; seg_end := (1 # 2)%Q; seg_text := "hello" |};
                    {| seg_start := (1 # 2)%Q; seg_end := (12 # 10)%Q; seg_text := "world" |} ];
           v_words := None |}.

(** What the service makes of that answer, in milliseconds. *)
Definition segmented_result : TranscriptionResult :=
  {| text := "hello world";
     res_language := "unknown";
     duration := 1200%Q;
     segments :=
       Some [ {| seg_start := 0%Q; seg_end := 500%Q; seg_text := "hello" |};
              {| seg_start := 500%Q; seg_end := 1200%Q; seg_text := "world" |} ];
     words := None |}.

End Sample.

(** ** Counting the calls of a store history *)
Module StoreHistory.
Import Scenario.

Definition is_insert (c : DbCall) : bool :=
  match c with
  | CallInsert _ _ _ => true
  | _ => false
  end.

(** How many inserts a history made. *)
Definition inserts (calls : list DbCall) : nat :=
  length (List.filter is_insert calls).

(** The row [insert] creates in a store whose counter stands at [seq]. *)
Definition new_row (seq : Z) (now : string)
    (result : Transcription.TranscriptionResult) (svc : string)
  : Database.StoredTranscription :=
  {| Database.id := seq + 1;
     Database.st_text := Transcription.text result;
     Database.st_language := Transcription.res_language result;
     Database.st_duration := Js.Math_round (Transcription.duration result);
     Database.service := svc;
     Database.createdAt := now |}.

End StoreHistory.

(** ** services/push-to-talk.ts *)
Module PushToTalk.

Inductive ModifierKey : Type :=
| LeftAlt | RightAlt | LeftControl | RightControl
| LeftShift | RightShift | LeftMeta | RightMeta.

(** [MODIFIER_KEY_MAP]: the key code of each modifier, taken from the
    [UiohookKey] table of uiohook-napi. *)
Class KeyMap : Type := MODIFIER_KEY_MAP : ModifierKey -> Z.

(** What the manager emitted: ['start'] or ['stop']. *)
Inductive Event : Type := Start | Stop.

Record PushToTalkManager : Type := mkPushToTalk {
  modifierKey : Z;
  isPressed : bool;
  isRunning : bool;
  hooks : nat;                 (* listener pairs [start()] has put on uIOhook *)
  emitted : list Event
}.

(** [new PushToTalkManager(modifierKey)], ['RightAlt'] when omitted. *)
Definition new_PushToTalkManager `{KeyMap} (key : option ModifierKey)
  : PushToTalkManager :=
  {| modifierKey := MODIFIER_KEY_MAP (default RightAlt key);
     isPressed := false; isRunning := false; hooks := 0; emitted := [] |}.

(** The ['keydown'] listener installed by [start()]. *)
Definition on_keydown (keycode : Z) (m : PushToTalkManager) : PushToTalkManager :=
  if (keycode =? modifierKey m) && negb (isPressed m)
  then {| modifierKey := modifierKey m; isPressed := true; isRunning := isRunning m;
          hooks := hooks m; emitted := emitted m ++ [Start] |}
  else m.

(** The ['keyup'] listener installed by [start()]. *)
Definition on_keyup (keycode : Z) (m : PushToTalkManager) : PushToTalkManager :=
  if (keycode =? modifierKey m) && isPressed m
  then {| modifierKey := modifierKey m; isPressed := false; isRunning := isRunning m;
          hooks := hooks m; emitted := emitted m ++ [Stop] |}
  else m.

(** [start()]: one more pair of listeners, and the hook is started. *)
Definition start (m : PushToTalkManager) : PushToTalkManager :=
  if isRunning m then m
  else {| modifierKey := modifierKey m; isPressed := isPressed m; isRunning := true;
          hooks := S (hooks m); emitted := emitted m |}.

(** [stop()]: the hook is stopped; the listeners stay registered. *)
Definition stop (m : PushToTalkManager) : PushToTalkManager :=
  if negb (isRunning m) then m
  else {| modifierKey := modifierKey m; isPressed := false; isRunning := false;
          hooks := hooks m; emitted := emitted m |}.

(** [setModifierKey(key)] *)
Definition setModifierKey `{KeyMap} (key : ModifierKey) (m : PushToTalkManager)
  : PushToTalkManager :=
  {| modifierKey := MODIFIER_KEY_MAP key; isPressed := isPressed m;
     isRunning := isRunning m; hooks := hooks m; emitted := emitted m |}.

Definition getIsPressed (m : PushToTalkManager) : bool := isPressed m.

(** A key going down: while the hook runs, uIOhook calls every registered
    ['keydown'] listener in turn; a stopped hook delivers nothing. *)
Definition keydown (keycode : Z) (m : PushToTalkManager) : PushToTalkManager :=
  if isRunning m then Nat.iter (hooks m) (on_keydown keycode) m else m.

(** A key going up, likewise. *)
Definition keyup (keycode : Z) (m : PushToTalkManager) : PushToTalkManager :=
  if isRunning m then Nat.iter (hooks m) (on_keyup keycode) m else m.

(** What can happen to a manager. *)
Inductive Step : Type :=
| DoStart
| DoStop
| DoSetModifierKey (key : ModifierKey)
| KeyDown (keycode : Z)
| KeyUp (keycode : Z).

Definition step `{KeyMap} (m : PushToTalkManager) (s : Step) : PushToTalkManager :=
  match s with
  | DoStart => start m
  | DoStop => stop m
  | DoSetModifierKey key => setModifierKey key m
  | KeyDown keycode => keydown keycode m
  | KeyUp keycode => keyup keycode m
  end.

(** The manager that index.ts creates, after a history of steps. *)
Definition after `{KeyMap} (steps : list Step) : PushToTalkManager :=
  foldl step (new_PushToTalkManager (Some RightAlt)) steps.

(** Every ['stop'] in a log comes directly after a ['start']. *)
Definition well_paired (log : list Event) : Prop :=
  forall i, log !! i = Some Stop -> exists j, i = S j /\ log !! j = Some Start.

(** What makes a manager consistent: its log is well paired, a key held
    down means the last event was a ['start'], and a running hook has at
    least one pair of listeners. *)
Definition consistent (m : PushToTalkManager) : Prop :=
  well_paired (emitted m)
  /\ (isPressed m = true -> last (emitted m) = Some Start)
  /\ (isRunning m = true -> (0 < hooks m)%nat).

(** A key table for the examples: one code per modifier. *)
Definition sample_keys : KeyMap :=
  fun key =>
    match key with
    | LeftAlt => 56 | RightAlt => 3640
    | LeftControl => 29 | RightControl => 3613
    | LeftShift => 42 | RightShift => 54
    | LeftMeta => 3675 | RightMeta => 3676
    end.

End PushToTalk.

(** ** renderer: store.ts, and the listeners of App.tsx and RecordingView.tsx *)
Module Renderer.
Import Transcription Ipc.

Inductive View : Type := recording_view | history_view | settings_view.

Record ParrotState : Type := mkParrotState {
  recordingState : RecordingState;
  lastResult : option TranscriptionResult;
  error : option string;
  currentView : View
}.


Definition setRecordingState (s : RecordingState) (st : ParrotState) : ParrotState :=
  {| recordingState := s; lastResult := lastResult st; error := error st;
     currentView := currentView st |}.

Definition setLastResult (r : option TranscriptionResult) (st : ParrotState) : ParrotState :=
  {| recordingState := recordingState st; lastResult := r; error := error st;
     currentView := currentView st |}.

Definition setError (e : option string) (st : ParrotState) : ParrotState :=
  {| recordingState := recordingState st; lastResult := lastResult st; error := e;
     currentView := currentView st |}.

(** The listeners [App] subscribes: a message from the main process
    updates the store.  Levels go to the local state of the recording view,
    not to the store. *)
Definition receive (st : ParrotState) (m : Message) : ParrotState :=
  match m with
  | RecordingStateMsg s => setRecordingState s st
  | TranscriptionResultMsg r => setLastResult (Some r) st
  | ErrorMsg e => setRecordingState Ipc.error (setError (Some e) st)
  | AudioLevelMsg _ => st
  end.

(** The store after a batch of messages from the main process. *)
Definition received (st : ParrotState) (msgs : list Message) : ParrotState :=
  foldl receive st msgs.

(** What the renderer asks of the main process. *)
Inductive Request : Type := StartRecording | StopRecording.

(** The ['hotkey:toggle-recording'] listener of [App]. *)
Definition onHotkeyToggle (st : ParrotState) : option Request :=
  match recordingState st with
  | idle | complete | Ipc.error => Some StartRecording
  | recording => Some StopRecording
  | processing => None
  end.

(** The record button of [RecordingView]: disabled while processing. *)
Definition handleToggleRecording (st : ParrotState) : option Request :=
  match recordingState st with
  | processing => None
  | recording => Some StopRecording
  | _ => Some StartRecording
  end.

(** A toggle, end to end: the renderer resolves it against its store, the
    main process runs the handler, and the renderer receives what the
    handler sent. *)
Definition toggle `{Database.Tokenizer} (env : Env) (both : World * ParrotState)
  : World * ParrotState :=
  let '(w, st) := both in
  match onHotkeyToggle st with
  | Some StartRecording =>
      let w' := (Handlers.audio_start env w).1 in
      (w', received st (Cycle.new_messages w w'))
  | Some StopRecording =>
      let w' := (Handlers.audio_stop env w).1 in
      (w', received st (Cycle.new_messages w w'))
  | None => (w, st)
  end.

(** The state a batch of messages leaves the store in, if it sets one:
    ['recording:state'] carries its own, ['error'] sets [error]. *)
Definition state_of (m : Message) : option RecordingState :=
  match m with
  | RecordingStateMsg s => Some s
  | ErrorMsg _ => Some Ipc.error
  | _ => None
  end.

Definition result_of (m : Message) : option TranscriptionResult :=
  match m with
  | TranscriptionResultMsg r => Some r
  | _ => None
  end.

(** The renderer and the main process agree on whether a capture runs. *)
Definition in_step (both : World * ParrotState) : Prop :=
  recordingState both.2 = recording <-> Audio.isRecording (audio both.1) = true.

End Renderer.

(** ** index.ts: the listeners of [setupPushToTalk] *)
Module Main.
Import Ipc.



End Main.

(* ===================================================================== *)
(** * Part II: properties *)
(* ===================================================================== *)

(** ** Buffers and the encoder *)
Section BufferFacts.
Import Buf.

Lemma Z_of_byte_of_Z (z : Z) : Z_of_byte (byte_of_Z z) = Z.land z 255.
Proof.
  unfold Z_of_byte, byte_of_Z.
  assert (Hr : 0 <= Z.land z 255 < 256).
  { change 255 with (Z.ones 8). rewrite Z.land_ones by lia.
    apply Z.mod_pos_bound. lia. }
  pose proof (Byte.to_of_N_option_map (Z.to_N (Z.land z 255))) as Hb.
  destruct (Byte.of_N (Z.to_N (Z.land z 255))) as [b|]; simpl in *.
  - destruct (N.leb_spec (Z.to_N (Z.land z 255)) 255) as [_|Hgt].
    + injection Hb as ->. lia.
    + discriminate.
  - destruct (N.leb_spec (Z.to_N (Z.land z 255)) 255) as [_|Hgt]; [discriminate | lia].
Qed.

Lemma length_le_bytes (w : nat) (v : Z) : length (le_bytes w v) = w.
Proof.
  unfold le_bytes. rewrite length_fmap.
  apply Nat2Z.inj. apply length_Z_to_little_endian; lia.
Qed.

Lemma le_value_le_bytes (w : nat) (v : Z) :
  le_value (le_bytes w v) = v mod 2 ^ (Z.of_nat w * 8).
Proof.
  unfold le_value, le_bytes.
  rewrite <- (little_endian_to_Z_to_little_endian (Z.of_nat w) 8 v) by lia.
  f_equal. rewrite <- list_fmap_compose.
  rewrite <- (list_fmap_id (Z_to_little_endian _ _ _)) at 2.
  apply Forall_fmap_ext_1.
  eapply Forall_impl; [apply (Z_to_little_endian_bound (Z.of_nat w) 8 v); lia |].
  intros d Hd. simpl. rewrite Z_of_byte_of_Z.
  change 255 with (Z.ones 8). rewrite Z.land_ones by lia.
  apply Z.mod_small. exact Hd.
Qed.

Lemma length_blit (target : Buffer) (off : nat) (src : list byte) :
  (off <= length target)%nat -> length (blit target off src) = length target.
Proof.
  intros Hoff. unfold blit.
  rewrite !length_app, !length_take, length_drop. lia.
Qed.

(** A write that stays inside a prefix leaves the rest alone. *)
Lemma blit_app_l (a b : Buffer) (off : nat) (src : list byte) :
  (off + length src <= length a)%nat ->
  blit (a ++ b) off src = blit a off src ++ b.
Proof.
  intros Hfit. unfold blit.
  rewrite take_app_le by lia.
  rewrite (take_ge src) by (rewrite length_app; lia).
  rewrite (take_ge src) by lia.
  rewrite drop_app_le by lia.
  by rewrite <- !app_assoc.
Qed.

(** A write that exactly covers what follows a prefix replaces it. *)
Lemma blit_app_r (a b : Buffer) (src : list byte) :
  length src = length b ->
  blit (a ++ b) (length a) src = a ++ src.
Proof.
  intros Hlen. unfold blit.
  rewrite take_app_length.
  rewrite take_ge by (rewrite length_app; lia).
  rewrite drop_ge by (rewrite length_app; lia).
  by rewrite app_nil_r.
Qed.
End BufferFacts.

Section WavFacts.
Import Buf Wav WavLayout.

Lemma bind_inr {A B} (a : A) (k : A -> Js.Result B) : Js.bind (inr a) k = k a.
Proof. reflexivity. Qed.

(** The encoder fills a zeroed buffer from left to right: [pre] is what
    has been written, [m] zero bytes are still untouched. *)
Lemma blit_cursor (pre : Buffer) (m off : nat) (src : list byte) :
  off = length pre -> (length src <= m)%nat ->
  blit (pre ++ replicate m x00) off src
  = (pre ++ src) ++ replicate (m - length src) x00.
Proof.
  intros -> Hfit. unfold blit.
  rewrite take_app_length, length_app, length_replicate.
  rewrite take_ge by lia.
  rewrite drop_app_ge by lia.
  rewrite drop_replicate.
  rewrite <- app_assoc. do 3 f_equal. lia.
Qed.

Lemma write_cursor (pre : Buffer) (m off : nat) (s : string) :
  off = length pre -> (length (list_byte_of_string s) <= m)%nat ->
  write (pre ++ replicate m x00) s off
  = inr ((pre ++ list_byte_of_string s)
           ++ replicate (m - length (list_byte_of_string s)) x00).
Proof.
  intros Hoff Hfit. unfold write.
  rewrite decide_True by (rewrite length_app; lia).
  by rewrite blit_cursor.
Qed.

Lemma writeUIntLE_cursor (w : nat) (pre : Buffer) (m off : nat) (q : Js.number) :
  off = length pre -> (w <= m)%nat ->
  Qle_bool 0 q = true ->
  Qle_bool q (inject_Z (2 ^ (8 * Z.of_nat w) - 1)) = true ->
  writeUIntLE w (pre ++ replicate m x00) q off
  = inr ((pre ++ le_bytes w (Qfloor q)) ++ replicate (m - w) x00).
Proof.
  intros Hoff Hfit H0 Hmax. unfold writeUIntLE.
  rewrite H0, Hmax. simpl.
  rewrite decide_True by (rewrite length_app, length_replicate; lia).
  rewrite blit_cursor by (rewrite ?length_le_bytes; done).
  by rewrite length_le_bytes.
Qed.

(** A value outside the field's range makes the write throw. *)
Lemma writeUIntLE_out_of_range (w : nat) (buf : Buffer) (q : Js.number) (off : nat) :
  Qle_bool q (inject_Z (2 ^ (8 * Z.of_nat w) - 1)) = false ->
  writeUIntLE w buf q off = inl Js.ERR_OUT_OF_RANGE.
Proof.
  intros Hmax. unfold writeUIntLE. rewrite Hmax, andb_false_r. done.
Qed.

Lemma riff_size_value (n : nat) :
  (Js.of_nat (44 + n) - 8 == inject_Z (Z.of_nat n + 36))%Q.
Proof.
  unfold Js.of_nat, Qeq, Qminus, Qplus, Qopp, inject_Z. simpl. lia.
Qed.

(** With the default parameters, and a payload that fits the 32-bit size
    fields, the encoder returns the canonical header followed by the
    payload. *)
Lemma encodeWav_canonical (audioBuffer : Buffer) :
  Z.of_nat (length audioBuffer) + 36 <= 4294967295 ->
  encodeWav audioBuffer 16000%Q 1%Q 16%Q
  = inr (canonical_header (Z.of_nat (length audioBuffer)) ++ audioBuffer).
Proof.
  intros Hfit. unfold encodeWav, alloc, writeUInt32LE, writeUInt16LE.
  set (n := length audioBuffer) in *.
  change (replicate (44 + n) x00) with ([] ++ replicate (44 + n) x00).
  assert (Hq1 : Qle_bool 0 (Js.of_nat (44 + n) - 8) = true).
  { rewrite riff_size_value. apply Qle_bool_iff.
    unfold Qle, inject_Z; simpl; lia. }
  assert (Hq2 : Qle_bool (Js.of_nat (44 + n) - 8) (inject_Z (2 ^ (8 * Z.of_nat 4) - 1)) = true).
  { rewrite riff_size_value. apply Qle_bool_iff.
    unfold Qle, inject_Z; simpl; lia. }
  assert (Hq3 : Qle_bool 0 (Js.of_nat n) = true).
  { apply Qle_bool_iff. unfold Js.of_nat, Qle, inject_Z; simpl; lia. }
  assert (Hq4 : Qle_bool (Js.of_nat n) (inject_Z (2 ^ (8 * Z.of_nat 4) - 1)) = true).
  { apply Qle_bool_iff. unfold Js.of_nat, Qle, inject_Z; simpl; lia. }
  repeat first
    [ rewrite write_cursor by (first [reflexivity | simpl; lia])
    | rewrite writeUIntLE_cursor by (first [reflexivity | assumption | simpl; lia])
    | rewrite bind_inr ].
  unfold copy. f_equal.
  rewrite (Qfloor_comp _ _ (riff_size_value n)).
  unfold Js.of_nat. rewrite !Qfloor_Z.
  match goal with
  | |- blit (?hdr ++ ?zeros) ?off _ = _ =>
      change off with (length hdr);
      rewrite (blit_app_r hdr zeros) by (rewrite length_replicate; simpl; lia)
  end.
  rewrite <- !app_assoc. reflexivity.
Qed.

(** Past the 32-bit size fields of the container the encoder throws at
    the first size it writes. *)
Lemma encodeWav_too_large (audioBuffer : Buffer) :
  4294967295 < Z.of_nat (length audioBuffer) + 36 ->
  encodeWav audioBuffer 16000%Q 1%Q 16%Q = inl Js.ERR_OUT_OF_RANGE.
Proof.
  intros Hbig. unfold encodeWav, alloc, writeUInt32LE.
  set (n := length audioBuffer) in *.
  change (replicate (44 + n) x00) with ([] ++ replicate (44 + n) x00).
  rewrite write_cursor by (first [reflexivity | simpl; lia]).
  rewrite bind_inr.
  rewrite writeUIntLE_out_of_range; [reflexivity |].
  rewrite riff_size_value.
  destruct (Qle_bool _ _) eqn:Hle; [| reflexivity].
  apply Qle_bool_iff in Hle. unfold Qle, inject_Z in Hle; simpl in Hle. lia.
Qed.

Lemma length_canonical_header (dataSize : Z) :
  length (canonical_header dataSize) = 44%nat.
Proof.
  unfold canonical_header. rewrite !length_app, !length_le_bytes. reflexivity.
Qed.

Lemma dataSize_field_canonical (dataSize : Z) (payload : Buffer) :
  0 <= dataSize <= 4294967295 ->
  dataSize_field (canonical_header dataSize ++ payload) = inr dataSize.
Proof.
  intros Hrange. unfold dataSize_field, readUInt32LE.
  rewrite decide_True by (rewrite length_app, length_canonical_header; lia).
  f_equal.
  assert (Hsplit : exists pre, length pre = 40%nat /\
            canonical_header dataSize = pre ++ le_bytes 4 dataSize).
  { eexists. split; [| unfold canonical_header; rewrite ?app_assoc; reflexivity].
    rewrite !length_app, !length_le_bytes. reflexivity. }
  destruct Hsplit as (pre & Hpre & ->).
  rewrite <- app_assoc, drop_app_length' by done.
  rewrite take_app_length' by (by rewrite length_le_bytes).
  rewrite le_value_le_bytes. apply Z.mod_small.
  change (2 ^ (Z.of_nat 4 * 8)) with 4294967296. lia.
Qed.
End WavFacts.

(** C4 (as stated, refuted). Not every buffer gets a header: for a payload
    of 4294967260 bytes the RIFF size no longer fits its 32-bit field, the
    write is refused and [encodeWav] throws instead of returning a
    container. *)
Lemma C4_oversized_buffer_is_rejected :
  let buf := replicate (Z.to_nat 4294967260) x00 in
  Z.of_nat (length buf) = 4294967260
  /\ Wav.encodeWav buf 16000%Q 1%Q 16%Q = inl Js.ERR_OUT_OF_RANGE.
Proof.
  intros buf.
  assert (Hlen : Z.of_nat (length buf) = 4294967260).
  { unfold buf. rewrite length_replicate. apply Z2Nat.id. lia. }
  split; [exact Hlen |].
  apply encodeWav_too_large. rewrite Hlen. lia.
Qed.

(** C4 (amended). [encodeWav(buf, 16000, 1, 16)] is a function of [buf]
    alone, so two calls on the same buffer give the same bytes; for every
    buffer whose length fits the 32-bit size fields of the container
    ([len(buf) + 36 <= 2^32 - 1]) the call returns a 44-byte header followed
    by the untouched payload, and the data-size field of that header reads
    [len(buf)]. *)
Theorem C4_encodeWav_deterministic_header_and_payload (buf : Buf.Buffer) :
  Z.of_nat (length buf) + 36 <= 4294967295 ->
  exists container header : Buf.Buffer,
    Wav.encodeWav buf 16000%Q 1%Q 16%Q = inr container /\
    (forall again, Wav.encodeWav buf 16000%Q 1%Q 16%Q = inr again -> again = container) /\
    container = header ++ buf /\
    length header = 44%nat /\
    header = WavLayout.canonical_header (Z.of_nat (length buf)) /\
    WavLayout.dataSize_field container = inr (Z.of_nat (length buf)) /\
    drop 44 container = buf.
Proof.
  intros Hfit.
  exists (WavLayout.canonical_header (Z.of_nat (length buf)) ++ buf),
         (WavLayout.canonical_header (Z.of_nat (length buf))).
  pose proof (encodeWav_canonical buf Hfit) as Henc.
  split; [exact Henc |].
  split; [intros again Hagain; rewrite Henc in Hagain; by injection Hagain |].
  split; [reflexivity |].
  split; [apply length_canonical_header |].
  split; [reflexivity |].
  split; [apply dataSize_field_canonical; lia |].
  apply (drop_app_length' (WavLayout.canonical_header (Z.of_nat (length buf))) buf 44).
  exact (length_canonical_header (Z.of_nat (length buf))).
Qed.

Lemma C4_encodeWav_witness :
  exists container header : Buf.Buffer,
    Wav.encodeWav [x01; x02; x03; x04] 16000%Q 1%Q 16%Q = inr container /\
    (forall again,
        Wav.encodeWav [x01; x02; x03; x04] 16000%Q 1%Q 16%Q = inr again ->
        again = container) /\
    container = header ++ [x01; x02; x03; x04] /\
    length header = 44%nat /\
    header = WavLayout.canonical_header 4 /\
    WavLayout.dataSize_field container = inr 4 /\
    drop 44 container = [x01; x02; x03; x04].
Proof.
  apply (C4_encodeWav_deterministic_header_and_payload [x01; x02; x03; x04]).
  simpl. lia.
Defined.

(** ** The audio capture service *)
Section AudioFacts.
Import Buf Audio Scenario.
Context `{LevelMeter}.

Lemma capture_snoc (delivered : list Buffer) (chunk : Buffer) :
  capture (delivered ++ [chunk]) = onData chunk (capture delivered).
Proof. unfold capture. by rewrite foldl_app. Qed.

(** Every delivered chunk is buffered, in order, and the session stays
    active. *)
Lemma capture_state (delivered : list Buffer) :
  chunks (capture delivered) = delivered
  /\ isRecording (capture delivered) = true
  /\ is_Some (audioIO (capture delivered))
  /\ config (capture delivered) = config (new_AudioService None None None).
Proof.
  induction delivered as [|chunk delivered IH] using rev_ind.
  - by repeat split.
  - rewrite capture_snoc. destruct IH as (Hc & Hr & Hio & Hcfg).
    unfold onData. simpl. rewrite ?Hc, ?Hr, ?Hcfg. by repeat split.
Qed.

(** [cleanup] runs before the chunks are concatenated. *)
Lemma stopRecording_active (s : AudioService) :
  isRecording s = true ->
  exists duration,
    stopRecording s = inr (emit (Stopped [] duration) (cleanup s), [])
    /\ (duration == 0)%Q.
Proof.
  intros Hrec. unfold stopRecording. rewrite Hrec. simpl.
  eexists. split; [reflexivity |].
  unfold Js.of_nat. simpl. unfold Qdiv. by rewrite !Qmult_0_l.
Qed.
End AudioFacts.

(** C1 (the code departs from the claim). Whatever chunks a capture session
    received, [stopRecording] returns the empty buffer and reports a
    duration of zero: [cleanup] empties [chunks] before [Buffer.concat]
    reads it. *)
Theorem C1_stopRecording_returns_empty_buffer `{Audio.LevelMeter}
    (delivered : list Buf.Buffer) :
  Audio.chunks (Scenario.capture delivered) = delivered /\
  exists after duration,
    Audio.stopRecording (Scenario.capture delivered) = inr (after, []) /\
    last (Audio.emitted after) = Some (Audio.Stopped [] duration) /\
    (duration == 0)%Q.
Proof.
  destruct (capture_state delivered) as (Hc & Hr & _ & _).
  split; [exact Hc |].
  destruct (stopRecording_active _ Hr) as (duration & Hstop & Hzero).
  eexists _, duration. split; [exact Hstop |]. split; [| exact Hzero].
  simpl. by rewrite last_snoc.
Qed.

(** Scenario A: 960 samples (1920 bytes, 60 ms at 16 kHz) were buffered,
    none is returned. *)
Example scenarioA_loses_960_samples :
  length (Buf.concat (Audio.chunks (@Scenario.capture Scenario.silent_meter
                                      Scenario.scenarioA_chunks))) = 1920%nat /\
  (Js.of_nat 1920 / 2 / 16000 * 1000 == 60)%Q /\
  exists after,
    Audio.stopRecording (@Scenario.capture Scenario.silent_meter Scenario.scenarioA_chunks)
    = inr (after, []).
Proof. split; [reflexivity | split; [reflexivity | eexists; reflexivity]]. Qed.

(** C3 (as stated, refuted). In a world where a recording is under way,
    [startRecording] throws nothing and the ['audio:start'] handler answers
    [{ success: true }] without sending an error. *)
Lemma C3_start_while_recording_not_rejected :
  Audio.isRecording (Ipc.audio Scenario.recording_world) = true /\
  (Audio.startRecording Audio.IoOk (Ipc.audio Scenario.recording_world)).2 = None /\
  (Handlers.audio_start Scenario.env_ok Scenario.recording_world).2
  = inr (Ipc.Success tt).
Proof. by repeat split. Qed.

(** C3 (amended). Calling [startRecording] while a capture session is active
    is ignored: nothing is thrown, and the service is left exactly as it was,
    still recording and with its buffered chunks.  The ['audio:start']
    handler then reports the state [recording] and answers success; it sends
    no error message. *)
Theorem C3_start_while_recording_is_ignored
    (env : Ipc.Env) (w : Ipc.World) :
  Audio.isRecording (Ipc.audio w) = true ->
  Audio.startRecording (Ipc.hardware env) (Ipc.audio w) = (Ipc.audio w, None) /\
  exists w',
    Handlers.audio_start env w = (w', inr (Ipc.Success tt)) /\
    Ipc.audio w' = Ipc.audio w /\
    Audio.isRecording (Ipc.audio w') = true /\
    Ipc.sent w' = Ipc.sent w ++ [Ipc.RecordingStateMsg Ipc.recording] /\
    Handlers.error_messages (Ipc.sent w') = Handlers.error_messages (Ipc.sent w).
Proof.
  intros Hrec.
  assert (Hstart : Audio.startRecording (Ipc.hardware env) (Ipc.audio w)
                   = (Ipc.audio w, None)).
  { unfold Audio.startRecording. by rewrite Hrec. }
  split; [exact Hstart |].
  unfold Handlers.audio_start, Ipc.try_catch, Ipc.bindM, Handlers.do_startRecording.
  rewrite Hstart. simpl.
  eexists. split; [reflexivity |]. simpl.
  repeat split; [exact Hrec |].
  unfold Handlers.error_messages. rewrite omap_app. simpl. by rewrite app_nil_r.
Qed.

Lemma C3_start_while_recording_witness :
  Audio.startRecording (Ipc.hardware Scenario.env_ok) (Ipc.audio Scenario.recording_world)
  = (Ipc.audio Scenario.recording_world, None) /\
  exists w',
    Handlers.audio_start Scenario.env_ok Scenario.recording_world
    = (w', inr (Ipc.Success tt)) /\
    Ipc.audio w' = Ipc.audio Scenario.recording_world /\
    Audio.isRecording (Ipc.audio w') = true /\
    Ipc.sent w' = Ipc.sent Scenario.recording_world
                    ++ [Ipc.RecordingStateMsg Ipc.recording] /\
    Handlers.error_messages (Ipc.sent w')
    = Handlers.error_messages (Ipc.sent Scenario.recording_world).
Proof.
  apply (C3_start_while_recording_is_ignored Scenario.env_ok Scenario.recording_world).
  reflexivity.
Defined.

(** ** The clipboard manager *)

(** C6 (as stated, refuted). When the clipboard held no text before the
    copy, [restorePrevious] finds a falsy snapshot and writes nothing: the
    clipboard keeps the copied text. *)
Lemma C6_empty_clipboard_not_restored :
  let before := (Clipboard.new_ClipboardManager, ""%string) in
  Clipboard.read before = ""%string /\
  Clipboard.read (Clipboard.restorePrevious (Clipboard.copy "abc" before)) = "abc"%string /\
  Clipboard.read (Clipboard.restorePrevious (Clipboard.copy "abc" before))
  <> Clipboard.read before.
Proof. by repeat split. Qed.

(** C6 (amended). For every non-empty prior clipboard text [p], [copy(text)]
    followed by [restorePrevious()] leaves the clipboard holding [p] and the
    snapshot slot empty; and with an empty slot [restorePrevious()] changes
    neither the clipboard nor the slot. *)
Theorem C6_copy_then_restorePrevious
    (mgr : Clipboard.ClipboardManager) (p txt system : string) :
  p <> ""%string ->
  Clipboard.restorePrevious (Clipboard.copy txt (mgr, p))
  = ({| Clipboard.previousContent := "" |}, p)
  /\ Clipboard.restorePrevious
       (Clipboard.restorePrevious (Clipboard.copy txt (mgr, p)))
     = ({| Clipboard.previousContent := "" |}, p)
  /\ Clipboard.restorePrevious ({| Clipboard.previousContent := "" |}, system)
     = ({| Clipboard.previousContent := "" |}, system).
Proof.
  intros Hp.
  assert (Hrestore : Clipboard.restorePrevious (Clipboard.copy txt (mgr, p))
                     = ({| Clipboard.previousContent := "" |}, p)).
  { unfold Clipboard.copy, Clipboard.restorePrevious. simpl.
    destruct p as [|c p']; [congruence | reflexivity]. }
  rewrite Hrestore. by repeat split.
Qed.

Lemma C6_copy_then_restorePrevious_witness :
  Clipboard.restorePrevious
    (Clipboard.copy "abc" (Clipboard.new_ClipboardManager, "before"%string))
  = ({| Clipboard.previousContent := "" |}, "before"%string)
  /\ Clipboard.restorePrevious
       (Clipboard.restorePrevious
          (Clipboard.copy "abc" (Clipboard.new_ClipboardManager, "before"%string)))
     = ({| Clipboard.previousContent := "" |}, "before"%string)
  /\ Clipboard.restorePrevious ({| Clipboard.previousContent := "" |}, "abc"%string)
     = ({| Clipboard.previousContent := "" |}, "abc"%string).
Proof.
  apply (C6_copy_then_restorePrevious Clipboard.new_ClipboardManager "before" "abc" "abc").
  discriminate.
Defined.

(** ** The transcription manager *)
Section ManagerFacts.
Import Transcription Scenario Invariant.

Lemma configureOpenAI_services (key : string) (m : OpenAIModel)
    (mgr : TranscriptionManager) :
  manager_shape mgr ->
  services (configureOpenAI key m mgr) = [("openai"%string, new_service key m)]
  /\ primaryService (configureOpenAI key m mgr) = "openai"%string.
Proof.
  intros [Hprim [Hnone | (key0 & m0 & Hone)]];
    unfold configureOpenAI; rewrite ?Hnone, ?Hone; simpl; by rewrite ?Hprim.
Qed.

Lemma manager_shape_configure key m mgr :
  manager_shape mgr -> manager_shape (configureOpenAI key m mgr).
Proof.
  intros Hshape. destruct (configureOpenAI_services key m mgr Hshape) as [Hs Hp].
  split; [exact Hp | right; eauto].
Qed.

Lemma manager_shape_call mgr c :
  manager_shape mgr -> manager_shape (manager_call mgr c).
Proof.
  intros Hshape. destruct c as [key m | n]; simpl.
  - by apply manager_shape_configure.
  - unfold setPrimaryService.
    destruct (JsMap.has n (services mgr)) eqn:Hhas; simpl; [| done].
    destruct Hshape as [Hprim Hserv]. split; [| done]. simpl.
    unfold JsMap.has in Hhas.
    destruct Hserv as [Hnone | (key0 & m0 & Hone)]; [by rewrite Hnone in Hhas |].
    rewrite Hone in Hhas. simpl in Hhas.
    destruct (String.eqb_spec n "openai"); [done | discriminate].
Qed.

Lemma manager_shape_after (calls : list ManagerCall) :
  manager_shape (manager_after calls).
Proof.
  induction calls as [|c calls IH] using rev_ind.
  - split; [done | by left].
  - unfold manager_after. rewrite foldl_app. simpl.
    by apply manager_shape_call.
Qed.
End ManagerFacts.

(** C7. After any history of calls on a manager, [configureOpenAI] leaves
    exactly one backend registered under ['openai']: [getAvailableServices]
    returns that name once, the registered instance carries the new key and
    model, configuring again with the same arguments changes nothing, and
    configuring with other arguments updates the instance without adding a
    name. *)
Theorem C7_configureOpenAI_is_idempotent_upsert
    (calls : list Scenario.ManagerCall)
    (key key' : string) (m m' : Transcription.OpenAIModel) :
  let mgr := Transcription.configureOpenAI key m (Scenario.manager_after calls) in
  Transcription.getAvailableServices mgr = ["openai"%string]
  /\ count_occ String.string_dec (Transcription.getAvailableServices mgr) "openai"%string
     = 1%nat
  /\ JsMap.get "openai" (Transcription.services mgr)
     = Some {| Transcription.name := "OpenAI Whisper";
               Transcription.apiKey := key;
               Transcription.model := m |}
  /\ Transcription.configureOpenAI key m mgr = mgr
  /\ Transcription.getAvailableServices (Transcription.configureOpenAI key' m' mgr)
     = ["openai"%string]
  /\ JsMap.get "openai"
       (Transcription.services (Transcription.configureOpenAI key' m' mgr))
     = Some {| Transcription.name := "OpenAI Whisper";
               Transcription.apiKey := key';
               Transcription.model := m' |}.
Proof.
  intros mgr.
  pose proof (manager_shape_after calls) as Hshape.
  destruct (configureOpenAI_services key m _ Hshape) as [Hs Hp].
  fold mgr in Hs, Hp.
  assert (Hshape' : Invariant.manager_shape mgr) by (split; [done | right; eauto]).
  destruct (configureOpenAI_services key' m' _ Hshape') as [Hs' Hp'].
  destruct (configureOpenAI_services key m _ Hshape') as [Hs'' Hp''].
  unfold Transcription.getAvailableServices. rewrite Hs, Hs'. simpl.
  repeat split.
  destruct (Transcription.configureOpenAI key m mgr) as [s p], mgr as [s0 p0].
  simpl in *. congruence.
Qed.

(** C8. [setPrimaryService(n)] throws when no backend is registered under
    [n], leaving the manager untouched, and [transcribe] throws, without
    calling any backend, when none is registered under the primary name. *)
Theorem C8_unconfigured_backend_is_an_error
    (api : Transcription.RemoteApi) (mgr : Transcription.TranscriptionManager)
    (n : string) (audio : Buf.Buffer) (options : Transcription.TranscriptionOptions) :
  (JsMap.get n (Transcription.services mgr) = None ->
   Transcription.setPrimaryService n mgr
   = inl (Js.Error ("Service " ++ n ++ " not configured")))
  /\
  (Transcription.isConfigured mgr = false ->
   Transcription.transcribe api mgr audio options
   = inl (Js.Error ("Transcription service '" ++ Transcription.primaryService mgr
                      ++ "' not configured"))).
Proof.
  split.
  - intros Hnone. unfold Transcription.setPrimaryService, JsMap.has. by rewrite Hnone.
  - unfold Transcription.isConfigured, JsMap.has, Transcription.transcribe.
    by destruct (JsMap.get _ _).
Qed.

Lemma C8_unconfigured_backend_witness :
  Transcription.setPrimaryService "local" Transcription.new_manager
  = inl (Js.Error "Service local not configured")
  /\ Transcription.transcribe Scenario.answering_api Transcription.new_manager
       Scenario.chunk_320 Transcription.no_options
     = inl (Js.Error "Transcription service 'openai' not configured").
Proof.
  destruct (C8_unconfigured_backend_is_an_error Scenario.answering_api
              Transcription.new_manager "local" Scenario.chunk_320
              Transcription.no_options) as [Hset Htranscribe].
  split; [apply Hset | apply Htranscribe]; reflexivity.
Defined.

(** ** The history store *)
Section IndexFacts.
Import Transcription Database Scenario Invariant.
Context `{Tokenizer}.

Lemma elem_of_occurrences (rowid rowid' : Z) (txt token : string) (pos : nat) :
  (token, rowid', pos) ∈ occurrences rowid txt
  <-> rowid' = rowid /\ tokenize txt !! pos = Some token.
Proof.
  unfold occurrences. rewrite elem_of_list_to_set, elem_of_lookup_imap. split.
  - intros (i & t & Heq & Hi). by simplify_eq.
  - intros [-> Hpos]. by exists pos, token.
Qed.

Lemma elem_of_postings (idx : Index) (token : string) (rowid : Z) :
  rowid ∈ postings idx token <-> exists pos, (token, rowid, pos) ∈ idx.
Proof.
  unfold postings. rewrite elem_of_map. split.
  - intros ([[t r] pos] & -> & Hin). apply elem_of_filter in Hin as [Ht Hin].
    simpl in *. subst t. by exists pos.
  - intros [pos Hin]. exists (token, rowid, pos). split; [done |].
    by apply elem_of_filter.
Qed.

(** The AFTER DELETE trigger, fired once per deleted row. *)
Lemma elem_of_after_deletes (deleted : list StoredTranscription) (idx : Index)
    (token : string) (rowid : Z) (pos : nat) :
  (token, rowid, pos) ∈ foldr transcriptions_ad idx deleted
  <-> (token, rowid, pos) ∈ idx
      /\ ~ (exists r, r ∈ deleted /\ id r = rowid
                      /\ tokenize (st_text r) !! pos = Some token).
Proof.
  induction deleted as [|d deleted IH]; simpl.
  - split; [intros Hin; split; [done |]; by intros (r & Hr%elem_of_nil & _) | tauto].
  - unfold transcriptions_ad at 1, fts_delete.
    rewrite elem_of_difference, elem_of_occurrences, IH. split.
    + intros [[Hin Hno] Hd]. split; [done |].
      intros (r & Hr & Hid & Htok). apply elem_of_cons in Hr as [-> | Hr].
      * apply Hd. by split.
      * apply Hno. eauto.
    + intros [Hin Hno]. repeat split; [done | |].
      * intros (r & Hr & Hid & Htok). apply Hno. exists r.
        split; [by apply elem_of_cons; right | done].
      * intros [Hid Htok]. apply Hno. exists d.
        split; [by apply elem_of_cons; left | done].
Qed.

Lemma indexed_empty : indexed empty_db.
Proof.
  intros token rowid pos. simpl. split.
  - by intros Hin%elem_of_empty.
  - by intros (r & Hr%elem_of_nil & _).
Qed.

Lemma indexed_insert (now : string) (db : Db) (result : TranscriptionResult)
    (svc : string) :
  indexed db -> indexed (insert now db result svc).1.
Proof.
  intros Hidx token rowid pos. simpl. unfold transcriptions_ai, fts_insert. simpl.
  rewrite elem_of_union, elem_of_occurrences, (Hidx token rowid pos). split.
  - intros [(r & Hr & Hid & Htok) | [-> Htok]].
    + exists r. split; [by apply elem_of_app; left | done].
    + eexists. split; [apply elem_of_app; right; apply list_elem_of_singleton; done |].
      by simpl.
  - intros (r & Hr & Hid & Htok). apply elem_of_app in Hr as [Hr | Hr].
    + left. eauto.
    + apply list_elem_of_singleton in Hr as ->. right. by simpl in *.
Qed.

Lemma indexed_delete (k : Z) (db : Db) : indexed db -> indexed (delete k db).
Proof.
  intros Hidx token rowid pos. simpl.
  rewrite elem_of_after_deletes, (Hidx token rowid pos). split.
  - intros [(r & Hr & Hid & Htok) Hno].
    exists r. repeat split; [| done | done].
    apply list_elem_of_filter. split; [| done].
    intros Hk. apply Hno. exists r. repeat split; [| done | done].
    apply list_elem_of_filter. by split.
  - intros (r & Hr & Hid & Htok). apply list_elem_of_filter in Hr as [Hk Hr].
    split; [eauto |].
    intros (r' & Hr' & Hid' & _). apply list_elem_of_filter in Hr' as [Hk' _].
    congruence.
Qed.

Lemma indexed_clear (db : Db) : indexed db -> indexed (clear db).
Proof.
  intros Hidx token rowid pos. simpl.
  rewrite elem_of_after_deletes, (Hidx token rowid pos). split.
  - intros [Hex Hno]. by destruct Hno.
  - intros (r & Hr & _). by apply elem_of_nil in Hr.
Qed.

Lemma filter_none {A} (P : A -> Prop) `{forall x, Decision (P x)} (l : list A) :
  Forall (fun x => ~ P x) l -> filter P l = [].
Proof.
  induction 1 as [|x l Hx _ IH]; [done |].
  by rewrite filter_cons_False.
Qed.

(** With distinct ids at most one row has a given id. *)
Lemma filter_id_unique (l : list StoredTranscription) (k : Z) :
  NoDup (id <$> l) ->
  filter (fun r => id r = k) l = []
  \/ exists r0, filter (fun r => id r = k) l = [r0] /\ id r0 = k
                /\ forall r, r ∈ l -> id r = k -> r = r0.
Proof.
  induction l as [|a l IH]; [by left |].
  rewrite fmap_cons. intros [Hfresh Hdup]%NoDup_cons.
  destruct (decide (id a = k)) as [Hk | Hk].
  - right. exists a. rewrite filter_cons_True by done.
    assert (Hrest : filter (fun r => id r = k) l = []).
    { apply filter_none, Forall_forall. intros r Hr Hid. apply Hfresh.
      rewrite Hk, <- Hid. by apply list_elem_of_fmap_2. }
    rewrite Hrest. split; [done |]. split; [done |].
    intros r Hr Hid. apply elem_of_cons in Hr as [-> | Hr]; [done |].
    exfalso. apply Hfresh. rewrite Hk, <- Hid. by apply list_elem_of_fmap_2.
  - rewrite filter_cons_False by done.
    destruct (IH Hdup) as [Hnone | (r0 & Hone & Hid0 & Huniq)]; [by left |].
    right. exists r0. split; [done |]. split; [done |].
    intros r Hr Hid. apply elem_of_cons in Hr as [-> | Hr]; [done | by apply Huniq].
Qed.

Lemma ids_update_text (k : Z) (txt : string) (l : list StoredTranscription) :
  id <$> ((fun r => if decide (id r = k) then with_text txt r else r) <$> l)
  = id <$> l.
Proof.
  rewrite <- list_fmap_compose. apply list_fmap_ext.
  intros i r _. simpl. by destruct (decide (id r = k)).
Qed.

(** The AFTER UPDATE trigger keeps the index in step with the new text. *)
Lemma indexed_update_text (k : Z) (txt : string) (db : Db) :
  NoDup (id <$> rows db) -> indexed db -> indexed (update_text k txt db).
Proof.
  intros Hdup Hidx token rowid pos. unfold update_text. simpl.
  destruct (filter_id_unique (rows db) k Hdup)
    as [Hnone | (r0 & Hone & Hid0 & Huniq)].
  - rewrite Hnone. simpl. rewrite (Hidx token rowid pos).
    assert (Hother : forall r, r ∈ rows db -> id r <> k).
    { intros r Hr Hid.
      assert (Hin : r ∈ filter (fun r => id r = k) (rows db))
        by (by apply list_elem_of_filter).
      rewrite Hnone in Hin. by apply elem_of_nil in Hin. }
    split.
    + intros (r & Hr & Hid & Htok). exists r. split; [| done].
      apply list_elem_of_fmap. exists r. split; [| done].
      by rewrite decide_False by (by apply Hother).
    + intros (r' & Hr' & Hid & Htok).
      apply list_elem_of_fmap in Hr' as (r & -> & Hr).
      rewrite decide_False in Hid, Htok by (by apply Hother). eauto.
  - rewrite Hone. simpl. unfold transcriptions_au, fts_insert, fts_delete. simpl.
    rewrite elem_of_union, elem_of_difference, !elem_of_occurrences,
      (Hidx token rowid pos). rewrite Hid0.
    assert (Hr0 : r0 ∈ rows db).
    { assert (Hin : r0 ∈ filter (fun r => id r = k) (rows db))
        by (rewrite Hone; by apply list_elem_of_singleton).
      by apply list_elem_of_filter in Hin as [_ ?]. }
    split.
    + intros [[(r & Hr & Hid & Htok) Hnot] | [-> Htok]].
      * exists r. split; [| done]. apply list_elem_of_fmap. exists r. split; [| done].
        destruct (decide (id r = k)) as [Hk | Hk]; [| done].
        exfalso. apply Hnot. rewrite <- Hid. split; [done |].
        by rewrite <- (Huniq r Hr Hk).
      * exists (with_text txt r0). split; [| done].
        apply list_elem_of_fmap. exists r0. split; [| done].
        by rewrite decide_True.
    + intros (r' & Hr' & Hid & Htok).
      apply list_elem_of_fmap in Hr' as (r & -> & Hr).
      destruct (decide (id r = k)) as [Hk | Hk]; simpl in *.
      * right. split; [congruence | done].
      * left. split; [eauto |]. intros [Hrowid _]. congruence.
Qed.

Lemma ids_ok_insert (now : string) (db : Db) (result : TranscriptionResult)
    (svc : string) :
  ids_ok db -> ids_ok (insert now db result svc).1.
Proof.
  intros (Hseq & Hdup & Hbound). repeat split; simpl; [lia | |].
  - rewrite fmap_app. simpl. apply NoDup_app. repeat split; [done | | apply NoDup_singleton].
    intros k Hk Hnew. apply list_elem_of_singleton in Hnew as ->.
    apply list_elem_of_fmap in Hk as (r & Hid & Hr).
    rewrite Forall_forall in Hbound. specialize (Hbound r Hr). lia.
  - apply Forall_app. split.
    + eapply Forall_impl; [exact Hbound |]. simpl. intros r ?. lia.
    + apply Forall_singleton. simpl. lia.
Qed.

Lemma ids_ok_delete (k : Z) (db : Db) : ids_ok db -> ids_ok (delete k db).
Proof.
  intros (Hseq & Hdup & Hbound). repeat split; simpl; [done | |].
  - eapply sublist_NoDup; [exact Hdup |]. apply fmap_sublist, sublist_filter.
  - rewrite Forall_forall in Hbound. apply Forall_forall. intros r Hr.
    apply list_elem_of_filter in Hr as [_ Hr]. by apply Hbound.
Qed.

Lemma ids_ok_clear (db : Db) : ids_ok db -> ids_ok (clear db).
Proof.
  intros (Hseq & _ & _). repeat split; simpl;
    [done | apply NoDup_nil_2 | apply Forall_nil_2].
Qed.

Lemma ids_ok_update_text (k : Z) (txt : string) (db : Db) :
  ids_ok db -> ids_ok (update_text k txt db).
Proof.
  intros (Hseq & Hdup & Hbound). repeat split; simpl; [done | |].
  - by rewrite ids_update_text.
  - apply Forall_fmap. eapply Forall_impl; [exact Hbound |].
    intros r Hr. simpl. by destruct (decide (id r = k)).
Qed.

Lemma db_state_snoc (statements : list Statement) (st : Statement) :
  db_state (statements ++ [st]) = run_statement (db_state statements) st.
Proof. unfold db_state. by rewrite foldl_app. Qed.

Lemma ids_ok_state (statements : list Statement) : ids_ok (db_state statements).
Proof.
  induction statements as [|st statements IH] using rev_ind.
  - repeat split; [done | apply NoDup_nil_2 | apply Forall_nil_2].
  - rewrite db_state_snoc. destruct st as [[now result svc | k |] | k txt]; simpl.
    + by apply ids_ok_insert.
    + by apply ids_ok_delete.
    + by apply ids_ok_clear.
    + by apply ids_ok_update_text.
Qed.

Lemma indexed_state (statements : list Statement) : indexed (db_state statements).
Proof.
  induction statements as [|st statements IH] using rev_ind.
  - apply indexed_empty.
  - rewrite db_state_snoc. destruct st as [[now result svc | k |] | k txt]; simpl.
    + by apply indexed_insert.
    + by apply indexed_delete.
    + by apply indexed_clear.
    + apply indexed_update_text; [| done].
      by destruct (ids_ok_state statements) as (_ & ? & _).
Qed.

(** A history of method calls is a history of statements. *)
Lemma db_after_state (calls : list DbCall) :
  db_after calls = db_state (Call <$> calls).
Proof.
  induction calls as [|c calls IH] using rev_ind; [done |].
  rewrite fmap_app. simpl. rewrite db_state_snoc, <- IH.
  unfold db_after. by rewrite foldl_app.
Qed.

Lemma indexed_after (calls : list DbCall) : indexed (db_after calls).
Proof. rewrite db_after_state. apply indexed_state. Qed.

Lemma ids_ok_after (calls : list DbCall) : ids_ok (db_after calls).
Proof. rewrite db_after_state. apply ids_ok_state. Qed.

(** The row just inserted is the one [getById] finds under the returned id. *)
Lemma getById_insert (now : string) (db : Db) (result : TranscriptionResult)
    (svc : string) :
  ids_ok db ->
  getById (insert now db result svc).1 (insert now db result svc).2
  = Some {| id := seq db + 1;
            st_text := text result;
            st_language := res_language result;
            st_duration := Js.Math_round (duration result);
            service := svc;
            createdAt := now |}.
Proof.
  intros (_ & _ & Hbound). unfold getById. simpl.
  rewrite filter_app.
  replace (filter (fun r => id r = seq db + 1) (rows db)) with (@nil StoredTranscription).
  - rewrite app_nil_l, filter_cons_True by done. done.
  - symmetry. apply filter_none.
    eapply Forall_impl; [exact Hbound |]. simpl. intros r ?. lia.
Qed.

Lemma getById_delete (k : Z) (db : Db) : getById (delete k db) k = None.
Proof.
  unfold getById. simpl.
  replace (filter (fun r => id r = k) (filter (fun r => id r <> k) (rows db)))
    with (@nil StoredTranscription); [done |].
  symmetry. apply filter_none, Forall_forall.
  intros r Hr. apply list_elem_of_filter in Hr as [Hne _]. tauto.
Qed.

(** After [delete(k)] the index holds nothing for [k]. *)
Lemma delete_clears_index (k : Z) (db : Db) (token : string) (pos : nat) :
  indexed db -> (token, k, pos) ∉ fts (delete k db).
Proof.
  intros Hidx Hin. apply (indexed_delete k db Hidx) in Hin as (r & Hr & Hid & _).
  simpl in Hr. by apply list_elem_of_filter in Hr as [Hne _].
Qed.
End IndexFacts.

Section OrderFacts.
Import Database.

Global Instance newer_eq_total : Total newer_eq.
Proof. intros a b. unfold newer_eq. destruct (String.leb_total (createdAt b) (createdAt a)); auto. Qed.

Lemma Sorted_take {A} (R : relation A) (l : list A) (n : nat) :
  Sorted R l -> Sorted R (take n l).
Proof.
  intros Hs. revert n. induction Hs as [|x l Hs IH Hhd]; intros [|n]; simpl;
    try constructor.
  - apply IH.
  - destruct Hhd as [|y l' Hxy]; destruct n; simpl; by constructor.
Qed.

Lemma sql_limit_subseteq {A} (n : Z) (l : list A) : sql_limit n l ⊆ l.
Proof.
  unfold sql_limit. destruct (n <? 0); [done |].
  apply sublist_subseteq, sublist_take.
Qed.

Lemma Sorted_sql_limit {A} (R : relation A) (n : Z) (l : list A) :
  Sorted R l -> Sorted R (sql_limit n l).
Proof. unfold sql_limit. destruct (n <? 0); [done | apply Sorted_take]. Qed.

Lemma place_by_created_at_Permutation (r : StoredTranscription)
    (l : list StoredTranscription) :
  place_by_created_at r l ≡ₚ r :: l.
Proof.
  induction l as [|r' l IH]; simpl; [done |].
  destruct (String.leb (createdAt r') (createdAt r)); [done |].
  rewrite IH. apply Permutation_swap.
Qed.

Lemma order_by_created_at_desc_Permutation (l : list StoredTranscription) :
  order_by_created_at_desc l ≡ₚ l.
Proof.
  unfold order_by_created_at_desc. induction l as [|r l IH]; simpl; [done |].
  by rewrite place_by_created_at_Permutation, IH.
Qed.

Lemma place_by_created_at_Sorted (r : StoredTranscription)
    (l : list StoredTranscription) :
  Sorted newer_eq l -> Sorted newer_eq (place_by_created_at r l).
Proof.
  induction 1 as [|r' l Hsorted IH Hhd]; simpl.
  - by repeat constructor.
  - destruct (String.leb (createdAt r') (createdAt r)) eqn:Hle.
    + constructor; [by constructor |]. by constructor.
    + constructor; [exact IH |].
      assert (Hnewer : newer_eq r' r).
      { destruct (newer_eq_total r' r) as [? | Hrr']; [done |].
        unfold newer_eq in Hrr'. congruence. }
      destruct Hhd as [|r'' l' Hr'']; simpl; [by constructor |].
      destruct (String.leb (createdAt r'') (createdAt r)); by constructor.
Qed.

Lemma order_by_created_at_desc_Sorted (l : list StoredTranscription) :
  Sorted newer_eq (order_by_created_at_desc l).
Proof.
  unfold order_by_created_at_desc. induction l as [|r l IH]; simpl.
  - constructor.
  - by apply place_by_created_at_Sorted.
Qed.

Lemma order_by_created_at_desc_elem_of (l : list StoredTranscription) r :
  r ∈ order_by_created_at_desc l <-> r ∈ l.
Proof. by rewrite order_by_created_at_desc_Permutation. Qed.

(** Every row [search] returns is a row of the table whose id the engine
    matched. *)
Lemma search_results `{QueryEngine} (db : Db) (query : string) (limit : Z)
    (results : list StoredTranscription) (r : StoredTranscription) :
  search db query limit = inr results -> r ∈ results ->
  r ∈ rows db
  /\ exists hits, fts5_match (fts db) query = inr hits /\ id r ∈ hits.
Proof.
  unfold search. destruct (fts5_match (fts db) query) as [e | hits]; [discriminate |].
  simpl. intros [= <-] Hr. apply (sql_limit_subseteq limit _ r) in Hr.
  rewrite order_by_created_at_desc_elem_of in Hr.
  apply list_elem_of_filter in Hr as [? ?]. eauto.
Qed.
End OrderFacts.

(** C5. After any history of statements on the file (the inserts, deletes
    and clears the store issues, and updates of a row's text, which fire the
    AFTER UPDATE trigger) the index agrees with the table: it holds a token
    for a rowid exactly where the text of the stored row with that id has
    it.  Each statement and its triggers are one step, so no state in
    between exists.  After [delete(k)] the index holds nothing for [k],
    [getById(k)] finds nothing, and a search, whatever its query and
    whatever FTS5 makes of it, returns only rows that are still stored and
    that the engine matched on the index as it is after the delete, none
    of them with id [k]; after an update of the text of [k] the index lists
    [k] only under the tokens of the new text. *)
Theorem C5_delete_keeps_index_in_sync_with_search
    `{Database.Tokenizer} `{Database.QueryEngine}
    (statements : list Scenario.Statement) (k : Z) :
  let db := Scenario.db_state statements in
  let deleted := Database.delete k db in
  Invariant.indexed db
  /\ Invariant.indexed deleted
  /\ (forall token pos, (token, k, pos) ∉ Database.fts deleted)
  /\ (forall token, k ∉ Database.postings (Database.fts deleted) token)
  /\ Database.getById deleted k = None
  /\ (forall query limit results,
        Database.search deleted query limit = inr results ->
        exists hits,
          Database.fts5_match (Database.fts deleted) query = inr hits
          /\ Forall (fun r => Database.id r <> k
                              /\ r ∈ Database.rows db
                              /\ Database.id r ∈ hits) results)
  /\ (forall txt token,
        k ∈ Database.postings (Database.fts (Database.update_text k txt db)) token ->
        token ∈ Database.tokenize txt).
Proof.
  intros db deleted. pose proof (indexed_state statements) as Hidx. fold db in Hidx.
  split; [exact Hidx |].
  split; [by apply indexed_delete |].
  split; [intros token pos; by apply delete_clears_index |].
  split.
  { intros token [pos Hin]%elem_of_postings. by apply delete_clears_index in Hin. }
  split; [apply getById_delete |].
  split.
  - intros query limit results Hsearch.
    destruct (Database.fts5_match (Database.fts deleted) query) as [e | hits] eqn:Hmatch.
    { unfold Database.search in Hsearch. rewrite Hmatch in Hsearch. discriminate. }
    exists hits. split; [done |]. apply Forall_forall. intros r Hr.
    destruct (search_results _ _ _ _ _ Hsearch Hr) as [Hrow (hits' & Hhits & Hid)].
    assert (hits' = hits) as -> by congruence.
    subst deleted. simpl in Hrow. by apply list_elem_of_filter in Hrow as [Hne ?].
  - intros txt token [pos Hin]%elem_of_postings.
    destruct (ids_ok_state statements) as (_ & Hdup & _). fold db in Hdup.
    apply (indexed_update_text k txt db Hdup Hidx) in Hin as (r' & Hr' & Hid & Htok).
    simpl in Hr'. apply list_elem_of_fmap in Hr' as (r & -> & Hr).
    destruct (decide (Database.id r = k)) as [Hk | Hk]; simpl in *; [| done].
    by apply list_elem_of_lookup_2 in Htok.
Qed.

(** Scenario D on the index: the entry is listed under a word of its text,
    and no longer once it is deleted. *)
Example scenarioD_index_then_delete :
  let db := Scenario.two_entries in
  elements (Database.postings (Database.fts db) "world") = [1]
  /\ elements (Database.postings
                 (Database.fts (@Database.delete Scenario.space_tokenizer 1 db))
                 "world") = []
  /\ elements (Database.postings
                 (Database.fts (@Database.delete Scenario.space_tokenizer 1 db))
                 "note") = [2].
Proof. by vm_compute. Qed.

(** C9. At ['history:get'] a limit of 0, like an omitted limit, is replaced
    by 50: the handler returns what [getRecent(50)] returns, that is the
    first 50 rows in newest-first order, and so as many entries as the store
    holds, up to 50. *)
Theorem C9_history_get_zero_limit_means_fifty (w : Ipc.World) :
  Handlers.history_get (Some 0) w = Database.getRecent (Ipc.database w) 50
  /\ Handlers.history_get None w = Database.getRecent (Ipc.database w) 50
  /\ Handlers.history_get (Some 0) w
     = take 50 (Database.order_by_created_at_desc (Database.rows (Ipc.database w)))
  /\ length (Handlers.history_get (Some 0) w)
     = (length (Database.rows (Ipc.database w)) `min` 50)%nat
  /\ Sorted Database.newer_eq (Handlers.history_get (Some 0) w)
  /\ Handlers.history_get (Some 0) w ⊆ Database.rows (Ipc.database w).
Proof.
  unfold Handlers.history_get, Database.getRecent.
  change (Database.sql_limit 50 ?l) with (take 50 l).
  repeat split.
  - rewrite length_take, order_by_created_at_desc_Permutation. lia.
  - apply Sorted_take, order_by_created_at_desc_Sorted.
  - intros r Hr. apply order_by_created_at_desc_elem_of.
    eapply elem_of_sublist; [exact Hr | apply sublist_take].
Qed.

(** With two stored entries a limit of 0 returns both, the newer first. *)
Example history_get_zero_returns_entries :
  Database.st_text <$> Handlers.history_get (Some 0) Scenario.history_world
  = ["second note"; "hello world"]%string
  /\ Database.st_duration <$> Handlers.history_get (Some 0) Scenario.history_world
     = [2001; 1200].
Proof. by vm_compute. Qed.

(** C10. The entry created by [insert] carries [Math.round] of the result's
    duration: after any history of calls, [getById] on the id that [insert]
    returned yields the inserted text, language and service with the
    duration rounded to the nearest integer (ties upward). *)
Theorem C10_insert_stores_rounded_duration `{Database.Tokenizer}
    (calls : list Scenario.DbCall) (now : string)
    (r : Transcription.TranscriptionResult) (svc : string) :
  let stored := Database.insert now (Scenario.db_after calls) r svc in
  Database.getById stored.1 stored.2
  = Some {| Database.id := stored.2;
            Database.st_text := Transcription.text r;
            Database.st_language := Transcription.res_language r;
            Database.st_duration := Js.Math_round (Transcription.duration r);
            Database.service := svc;
            Database.createdAt := now |}
  /\ (inject_Z (Js.Math_round (Transcription.duration r))
        <= Transcription.duration r + (1 # 2))%Q
  /\ (Transcription.duration r + (1 # 2)
        < inject_Z (Js.Math_round (Transcription.duration r) + 1))%Q.
Proof.
  intros stored. split; [| split].
  - subst stored. rewrite getById_insert by apply ids_ok_after. reflexivity.
  - apply Qfloor_le.
  - apply Qlt_floor.
Qed.

(** ** The ['audio:stop'] handler *)
Section StopFacts.
Import Transcription Ipc Handlers Cycle.
Context `{Database.Tokenizer}.

Lemma error_messages_app (l k : list Message) :
  error_messages (l ++ k) = error_messages l ++ error_messages k.
Proof. apply omap_app. Qed.

Lemma last_state_snoc (l : list Message) (s : RecordingState) :
  last_state (l ++ [RecordingStateMsg s]) = Some s.
Proof. unfold last_state. rewrite omap_app. simpl. by rewrite last_snoc. Qed.

(** What the catch block of the handler leaves, once the run is unfolded. *)
Ltac failure_reported :=
  unfold Cycle.reports_failure; simpl;
  split; [done |]; split; [apply last_state_snoc |];
  unfold Handlers.error_messages; rewrite !omap_app; simpl;
  rewrite ?app_nil_r; done.

(** The handler, stage by stage: what it answers and what it leaves in the
    history store, by the first stage that throws. *)
Lemma audio_stop_by_stage (env : Env) (w : World) :
  let outcome := audio_stop env w in
  match Audio.stopRecording (audio w) with
  | inl thrown => reports_failure w outcome thrown /\ database outcome.1 = database w
  | inr (_, buf) =>
      match ensure_configured (config w) (transcription w) with
      | inl thrown =>
          reports_failure w outcome thrown /\ database outcome.1 = database w
      | inr mgr =>
          match transcribe (api env) mgr buf (stop_options (config w)) with
          | inl thrown =>
              reports_failure w outcome thrown /\ database outcome.1 = database w
          | inr result =>
              match db_fault env with
              | Some thrown =>
                  reports_failure w outcome thrown
                  /\ database outcome.1 = database w
              | None =>
                  database outcome.1
                  = (Database.insert (now env) (database w) result
                       (getServiceName mgr)).1
                  /\ match (if autoPaste (config w) then automation env else None) with
                     | Some thrown => reports_failure w outcome thrown
                     | None => outcome.2 = inr (Success result)
                     end
              end
          end
      end
  end.
Proof.
  intros outcome. subst outcome.
  unfold audio_stop, try_catch, audio_stop_try, bindM, do_stopRecording.
  destruct (Audio.stopRecording (audio w)) as [thrown | [a buf]] eqn:Hstop.
  { split; [| done]. failure_reported. }
  unfold ensure_configured, modify, send, get_world, throw, ret. simpl.
  destruct (isConfigured (transcription w)) eqn:Hcfg; simpl.
  - unfold lift, stop_options.
    destruct (transcribe (api env) (transcription w) buf _) as [thrown | result]
      eqn:Htr; simpl.
    { split; [| done]. failure_reported. }
    unfold do_insert. simpl.
    destruct (db_fault env) as [thrown |] eqn:Hdb; simpl.
    { split; [| done]. failure_reported. }
    unfold when. split.
    + destruct (autoCopy (config w)), (autoPaste (config w)); simpl;
        try destruct (automation env); done.
    + destruct (autoCopy (config w)), (autoPaste (config w)); simpl;
        try destruct (automation env) as [thrown |]; simpl; try done;
        failure_reported.
  - destruct (Js.truthy (openai_apiKey (config w))) eqn:Hkey; simpl.
    2: { split; [| done]. failure_reported. }
    unfold lift, stop_options.
    destruct (transcribe (api env) _ buf _) as [thrown | result] eqn:Htr; simpl.
    { split; [| done]. failure_reported. }
    unfold do_insert. simpl.
    destruct (db_fault env) as [thrown |] eqn:Hdb; simpl.
    { split; [| done]. failure_reported. }
    unfold when. split.
    + destruct (autoCopy (config w)), (autoPaste (config w)); simpl;
        try destruct (automation env); done.
    + destruct (autoCopy (config w)), (autoPaste (config w)); simpl;
        try destruct (automation env) as [thrown |]; simpl; try done;
        failure_reported.
Qed.
End StopFacts.

(** C2 (as stated, refuted). The paste command fails after a successful
    transcription: the handler answers failure and reports the state
    [error], yet the history store, empty before the call, now holds the
    entry of that cycle. *)
Lemma C2_paste_failure_keeps_history_entry :
  let outcome := @Handlers.audio_stop Scenario.space_tokenizer
                   Scenario.env_paste_fails Scenario.recording_world in
  outcome.2 = inr (Ipc.Failure "Command failed: xdotool key ctrl+v")
  /\ Handlers.last_state (Ipc.sent outcome.1) = Some Ipc.error
  /\ Database.rows (Ipc.database Scenario.recording_world) = []
  /\ Database.st_text <$> Database.rows (Ipc.database outcome.1)
     = ["hello world"%string].
Proof. by vm_compute. Qed.

(** C2 (amended). A run of the stop transition, by the first sub-step that
    throws.  When the capture stop, the lazy configuration of the backend,
    the encoding or transcription, or the insert into the history store
    throws, the handler answers failure, sends exactly one error message,
    carrying what was thrown, then the state [error], and the history store
    is left as it was.  When all of these succeed the entry of the cycle is
    in the store, appended to the rows there were; the output side effects
    run after the insert, so when the paste then throws the handler reports
    the failure in the same way and the entry stays.  Otherwise the handler
    answers success. *)
Theorem C2_failed_stop_reports_error_once `{Database.Tokenizer}
    (env : Ipc.Env) (w : Ipc.World) :
  let outcome := Handlers.audio_stop env w in
  match Audio.stopRecording (Ipc.audio w) with
  | inl thrown =>
      Cycle.reports_failure w outcome thrown
      /\ Ipc.database outcome.1 = Ipc.database w
  | inr (_, buf) =>
      match Cycle.ensure_configured (Ipc.config w) (Ipc.transcription w) with
      | inl thrown =>
          Cycle.reports_failure w outcome thrown
          /\ Ipc.database outcome.1 = Ipc.database w
      | inr mgr =>
          match Transcription.transcribe (Ipc.api env) mgr buf
                  (Cycle.stop_options (Ipc.config w)) with
          | inl thrown =>
              Cycle.reports_failure w outcome thrown
              /\ Ipc.database outcome.1 = Ipc.database w
          | inr result =>
              match Ipc.db_fault env with
              | Some thrown =>
                  Cycle.reports_failure w outcome thrown
                  /\ Ipc.database outcome.1 = Ipc.database w
              | None =>
                  Ipc.database outcome.1
                  = (Database.insert (Ipc.now env) (Ipc.database w) result
                       (Transcription.getServiceName mgr)).1
                  /\ Database.rows (Ipc.database outcome.1)
                     = Database.rows (Ipc.database w)
                         ++ [StoreHistory.new_row (Database.seq (Ipc.database w))
                               (Ipc.now env) result
                               (Transcription.getServiceName mgr)]
                  /\ match (if Ipc.autoPaste (Ipc.config w)
                            then Ipc.automation env else None) with
                     | Some thrown => Cycle.reports_failure w outcome thrown
                     | None => outcome.2 = inr (Ipc.Success result)
                     end
              end
          end
      end
  end.
Proof.
  intros outcome. pose proof (audio_stop_by_stage env w) as Hstage.
  fold outcome in Hstage.
  destruct (Audio.stopRecording (Ipc.audio w)) as [thrown | [a buf]]; [exact Hstage |].
  destruct (Cycle.ensure_configured (Ipc.config w) (Ipc.transcription w))
    as [thrown | mgr]; [exact Hstage |].
  destruct (Transcription.transcribe (Ipc.api env) mgr buf
              (Cycle.stop_options (Ipc.config w))) as [thrown | result];
    [exact Hstage |].
  destruct (Ipc.db_fault env) as [thrown |]; [exact Hstage |].
  destruct Hstage as [Hdb Hout].
  split; [exact Hdb |]. split; [by rewrite Hdb | exact Hout].
Qed.

(** Scenario C: the endpoint answers "rate limited"; the handler reports
    that message and the state [error], and the history store stays
    empty. *)
Example scenarioC_rate_limited :
  let outcome := @Handlers.audio_stop Scenario.space_tokenizer
                   Scenario.env_rate_limited Scenario.recording_world in
  outcome.2 = inr (Ipc.Failure "rate limited")
  /\ Ipc.sent outcome.1
     = [Ipc.RecordingStateMsg Ipc.recording; Ipc.RecordingStateMsg Ipc.processing;
        Ipc.ErrorMsg "rate limited"; Ipc.RecordingStateMsg Ipc.error]
  /\ Database.rows (Ipc.database outcome.1) = [].
Proof. by vm_compute. Qed.

(* ===================================================================== *)
(** * Part III: further properties of the services *)
(* ===================================================================== *)

(** ** Starting, stopping and cancelling a capture *)
Section CaptureFacts.
Import Buf Transcription Ipc Handlers Cycle.
Context `{Database.Tokenizer}.

Lemma audio_stop_try_not_recording (env : Env) (w : World) :
  Audio.isRecording (audio w) = false ->
  audio_stop_try env w = (w, inl (Js.Error "Not recording")).
Proof.
  intros Hidle. unfold audio_stop_try, bindM, do_stopRecording, Audio.stopRecording.
  by rewrite Hidle.
Qed.

(** What the [try] block leaves of the capture once [stopRecording] has
    run: the stream is closed and the buffer dropped, whatever happens
    later in the block. *)
Lemma audio_stop_try_closes_stream (env : Env) (w w1 : World)
    (r : Js.Result (Response TranscriptionResult)) :
  Audio.isRecording (audio w) = true ->
  audio_stop_try env w = (w1, r) ->
  Audio.audioIO (audio w1) = None
  /\ Audio.isRecording (audio w1) = false
  /\ Audio.chunks (audio w1) = [].
Proof.
  unfold audio_stop_try, bindM, do_stopRecording, do_insert, modify, send, when,
    get_world, lift, ret, throw, Audio.stopRecording.
  intros Hrec Htry. rewrite Hrec in Htry. simpl in Htry.
  repeat (case_match; simplify_eq; simpl in * ); done.
Qed.

(** The ['audio:stop'] handler when no capture is active. *)
Lemma audio_stop_not_recording (env : Env) (w : World) :
  Audio.isRecording (audio w) = false ->
  audio_stop env w
  = (push_sent (RecordingStateMsg Ipc.error) (push_sent (ErrorMsg "Not recording") w),
     inr (Failure "Not recording")).
Proof.
  intros Hidle. unfold audio_stop, try_catch.
  by rewrite audio_stop_try_not_recording.
Qed.
End CaptureFacts.

(** X1. Stopping when no capture is active: [stopRecording] throws
    ['Not recording'], and the ['audio:stop'] handler answers failure with
    that message after sending it and the state [error]; it sends no
    [processing], calls no backend and leaves every service as it was. *)
Theorem stop_without_capture_is_reported `{Database.Tokenizer}
    (env : Ipc.Env) (w : Ipc.World) :
  Audio.isRecording (Ipc.audio w) = false ->
  Audio.stopRecording (Ipc.audio w) = inl (Js.Error "Not recording")
  /\ Handlers.audio_stop env w
     = (Ipc.push_sent (Ipc.RecordingStateMsg Ipc.error)
          (Ipc.push_sent (Ipc.ErrorMsg "Not recording") w),
        inr (Ipc.Failure "Not recording")).
Proof.
  intros Hidle. split.
  - unfold Audio.stopRecording. by rewrite Hidle.
  - by apply audio_stop_not_recording.
Qed.

Lemma stop_without_capture_witness :
  Audio.stopRecording (Ipc.audio (Scenario.boot Scenario.configured "before"))
  = inl (Js.Error "Not recording")
  /\ @Handlers.audio_stop Scenario.space_tokenizer Scenario.env_ok
       (Scenario.boot Scenario.configured "before")
     = (Ipc.push_sent (Ipc.RecordingStateMsg Ipc.error)
          (Ipc.push_sent (Ipc.ErrorMsg "Not recording")
             (Scenario.boot Scenario.configured "before")),
        inr (Ipc.Failure "Not recording")).
Proof.
  apply (@stop_without_capture_is_reported Scenario.space_tokenizer Scenario.env_ok
           (Scenario.boot Scenario.configured "before")).
  reflexivity.
Defined.

(** X2. Cancelling: the ['audio:cancel'] handler always answers success and
    sends the state [idle]; afterwards no capture is active, the history,
    clipboard and manager are untouched, the service has emitted
    ['cancelled'] exactly when a capture was active, and a stop request that
    follows is refused with ['Not recording'] and writes no history. *)
Theorem cancel_discards_the_capture `{Database.Tokenizer}
    (env : Ipc.Env) (w : Ipc.World) :
  let w1 := (Handlers.audio_cancel w).1 in
  (Handlers.audio_cancel w).2 = inr (Ipc.Success tt)
  /\ Audio.isRecording (Ipc.audio w1) = false
  /\ Audio.emitted (Ipc.audio w1)
     = Audio.emitted (Ipc.audio w)
         ++ (if Audio.isRecording (Ipc.audio w) then [Audio.Cancelled] else [])
  /\ (if Audio.isRecording (Ipc.audio w)
      then Audio.chunks (Ipc.audio w1) = [] /\ Audio.audioIO (Ipc.audio w1) = None
      else Ipc.audio w1 = Ipc.audio w)
  /\ Ipc.database w1 = Ipc.database w
  /\ Ipc.clipboard w1 = Ipc.clipboard w
  /\ Ipc.transcription w1 = Ipc.transcription w
  /\ Ipc.sent w1 = Ipc.sent w ++ [Ipc.RecordingStateMsg Ipc.idle]
  /\ (Handlers.audio_stop env w1).2 = inr (Ipc.Failure "Not recording")
  /\ Ipc.database (Handlers.audio_stop env w1).1 = Ipc.database w.
Proof.
  intros w1.
  assert (Hidle : Audio.isRecording (Ipc.audio w1) = false).
  { subst w1. simpl. unfold Audio.cancelRecording.
    destruct (Audio.isRecording (Ipc.audio w)) eqn:Hrec; simpl; done. }
  rewrite (audio_stop_not_recording env w1 Hidle). subst w1. simpl.
  unfold Audio.cancelRecording.
  destruct (Audio.isRecording (Ipc.audio w)) eqn:Hrec; simpl;
    rewrite ?app_nil_r; repeat split; done.
Qed.

(** X3. Starting from rest with working hardware: the stream is opened on
    the device chosen by the last [setDevice] (the host default, -1, when
    none was chosen), with the configured channel count and rate; whatever
    an earlier session left in the buffer is discarded; the service emits
    ['started'], and the ['audio:start'] handler sends the state [recording]
    and answers success.  [setDevice] itself touches neither an open stream
    nor the buffer. *)
Theorem start_opens_the_selected_device
    (env : Ipc.Env) (w : Ipc.World) (device : Z) :
  Audio.isRecording (Ipc.audio w) = false ->
  Ipc.hardware env = Audio.IoOk ->
  let selected := Ipc.set_audio (Audio.setDevice device (Ipc.audio w)) w in
  let w1 := (Handlers.audio_start env selected).1 in
  Audio.audioIO (Audio.setDevice device (Ipc.audio w)) = Audio.audioIO (Ipc.audio w)
  /\ Audio.chunks (Audio.setDevice device (Ipc.audio w)) = Audio.chunks (Ipc.audio w)
  /\ (Handlers.audio_start env selected).2 = inr (Ipc.Success tt)
  /\ Audio.isRecording (Ipc.audio w1) = true
  /\ Audio.chunks (Ipc.audio w1) = []
  /\ Audio.audioIO (Ipc.audio w1)
     = Some {| Audio.channelCount := Audio.channels (Audio.config (Ipc.audio w));
               Audio.io_sampleRate := Audio.sampleRate (Audio.config (Ipc.audio w));
               Audio.io_deviceId := device |}
  /\ Audio.emitted (Ipc.audio w1) = Audio.emitted (Ipc.audio w) ++ [Audio.Started]
  /\ Ipc.sent w1 = Ipc.sent w ++ [Ipc.RecordingStateMsg Ipc.recording]
  /\ Audio.io_deviceId (Audio.open_options (Audio.new_AudioService None None None)) = -1.
Proof.
  intros Hidle Hhw selected w1. subst w1 selected.
  unfold Handlers.audio_start, Ipc.try_catch, Ipc.bindM, Handlers.do_startRecording,
    Audio.startRecording.
  simpl. rewrite Hidle, Hhw. simpl. by repeat split.
Qed.

Lemma start_opens_the_selected_device_witness :
  let w := Scenario.boot Scenario.configured "before" in
  let selected := Ipc.set_audio (Audio.setDevice 1 (Ipc.audio w)) w in
  let w1 := (Handlers.audio_start Scenario.env_ok selected).1 in
  Audio.audioIO (Audio.setDevice 1 (Ipc.audio w)) = Audio.audioIO (Ipc.audio w)
  /\ Audio.chunks (Audio.setDevice 1 (Ipc.audio w)) = Audio.chunks (Ipc.audio w)
  /\ (Handlers.audio_start Scenario.env_ok selected).2 = inr (Ipc.Success tt)
  /\ Audio.isRecording (Ipc.audio w1) = true
  /\ Audio.chunks (Ipc.audio w1) = []
  /\ Audio.audioIO (Ipc.audio w1)
     = Some {| Audio.channelCount := Audio.channels (Audio.config (Ipc.audio w));
               Audio.io_sampleRate := Audio.sampleRate (Audio.config (Ipc.audio w));
               Audio.io_deviceId := 1 |}
  /\ Audio.emitted (Ipc.audio w1) = Audio.emitted (Ipc.audio w) ++ [Audio.Started]
  /\ Ipc.sent w1 = Ipc.sent w ++ [Ipc.RecordingStateMsg Ipc.recording]
  /\ Audio.io_deviceId (Audio.open_options (Audio.new_AudioService None None None)) = -1.
Proof.
  apply (start_opens_the_selected_device Scenario.env_ok
           (Scenario.boot Scenario.configured "before") 1); reflexivity.
Defined.

(** X4. Starting from rest when the hardware refuses (the stream cannot be
    opened, or cannot be started): no capture becomes active, the
    ['audio:start'] handler answers failure, and the only message it sends
    is one error message; the state [recording] is not sent. *)
Theorem start_failure_is_reported
    (env : Ipc.Env) (w : Ipc.World) (e : Js.Thrown) :
  Audio.isRecording (Ipc.audio w) = false ->
  Ipc.hardware env = Audio.IoOpenFails e \/ Ipc.hardware env = Audio.IoStartFails e ->
  let message := Js.message_or "Failed to start recording" (Audio.emit_error e) in
  let w1 := (Handlers.audio_start env w).1 in
  (Handlers.audio_start env w).2 = inr (Ipc.Failure message)
  /\ Audio.isRecording (Ipc.audio w1) = false
  /\ Audio.chunks (Ipc.audio w1) = []
  /\ Audio.emitted (Ipc.audio w1) = Audio.emitted (Ipc.audio w)
  /\ Ipc.sent w1 = Ipc.sent w ++ [Ipc.ErrorMsg message]
  /\ Ipc.database w1 = Ipc.database w.
Proof.
  intros Hidle Hhw message w1. subst w1 message.
  unfold Handlers.audio_start, Ipc.try_catch, Ipc.bindM, Handlers.do_startRecording,
    Audio.startRecording.
  rewrite Hidle. destruct Hhw as [-> | ->]; simpl; by repeat split.
Qed.

Lemma start_failure_witness :
  let env := {| Ipc.hardware := Audio.IoOpenFails (Js.Error "no input device");
                Ipc.api := Scenario.answering_api; Ipc.db_fault := None;
                Ipc.automation := None; Ipc.now := "2024-01-01 00:00:00" |} in
  let w := Scenario.boot Scenario.configured "before" in
  let w1 := (Handlers.audio_start env w).1 in
  (Handlers.audio_start env w).2 = inr (Ipc.Failure "no input device")
  /\ Audio.isRecording (Ipc.audio w1) = false
  /\ Audio.chunks (Ipc.audio w1) = []
  /\ Audio.emitted (Ipc.audio w1) = Audio.emitted (Ipc.audio w)
  /\ Ipc.sent w1 = Ipc.sent w ++ [Ipc.ErrorMsg "no input device"]
  /\ Ipc.database w1 = Ipc.database w.
Proof.
  intros env w.
  apply (start_failure_is_reported env w (Js.Error "no input device"));
    [reflexivity | left; reflexivity].
Defined.

Section LevelFacts.
Import Buf Ipc Handlers Cycle.
Context `{Audio.LevelMeter}.

Lemma deliver_snoc (w : World) (delivered : list Buffer) (chunk : Buffer) :
  deliver w (delivered ++ [chunk]) = audio_data chunk (deliver w delivered).
Proof. unfold deliver. by rewrite foldl_app. Qed.

Lemma deliver_state (w : World) (delivered : list Buffer) :
  Audio.chunks (audio (deliver w delivered)) = Audio.chunks (audio w) ++ delivered
  /\ Audio.emitted (audio (deliver w delivered))
     = Audio.emitted (audio w) ++ ((fun c => Audio.Level (Audio.calculateLevel c)) <$> delivered)
  /\ sent (deliver w delivered)
     = sent w ++ ((fun c => AudioLevelMsg (Audio.calculateLevel c)) <$> delivered)
  /\ Audio.isRecording (audio (deliver w delivered)) = Audio.isRecording (audio w)
  /\ Audio.audioIO (audio (deliver w delivered)) = Audio.audioIO (audio w)
  /\ Audio.config (audio (deliver w delivered)) = Audio.config (audio w)
  /\ database (deliver w delivered) = database w
  /\ clipboard (deliver w delivered) = clipboard w.
Proof.
  induction delivered as [|chunk delivered IH] using rev_ind.
  - simpl. rewrite !app_nil_r. by repeat split.
  - destruct IH as (Hc & He & Hs & Hr & Hio & Hcfg & Hd & Hcl).
    rewrite deliver_snoc. unfold audio_data, Audio.onData. simpl.
    rewrite ?Hc, ?He, ?Hs, ?Hr, ?Hio, ?Hcfg, ?Hd, ?Hcl, ?fmap_app, ?app_assoc. simpl.
    by repeat split.
Qed.
End LevelFacts.

(** X5. Every chunk a stream delivers is appended to the buffer in arrival
    order, the service emits one level per chunk, and the handler forwards
    exactly those levels, in the same order, to the renderer, whether or
    not a capture is active; whether the service counts as recording, the
    history and the clipboard are not touched. *)
Theorem levels_are_forwarded_in_order `{Audio.LevelMeter}
    (w : Ipc.World) (delivered : list Buf.Buffer) :
  Audio.chunks (Ipc.audio (Cycle.deliver w delivered))
  = Audio.chunks (Ipc.audio w) ++ delivered
  /\ Audio.emitted (Ipc.audio (Cycle.deliver w delivered))
     = Audio.emitted (Ipc.audio w)
         ++ ((fun c => Audio.Level (Audio.calculateLevel c)) <$> delivered)
  /\ Ipc.sent (Cycle.deliver w delivered)
     = Ipc.sent w ++ ((fun c => Ipc.AudioLevelMsg (Audio.calculateLevel c)) <$> delivered)
  /\ Audio.isRecording (Ipc.audio (Cycle.deliver w delivered))
     = Audio.isRecording (Ipc.audio w)
  /\ Ipc.database (Cycle.deliver w delivered) = Ipc.database w
  /\ Ipc.clipboard (Cycle.deliver w delivered) = Ipc.clipboard w.
Proof.
  destruct (deliver_state w delivered) as (Hc & He & Hs & Hr & _ & _ & Hd & Hcl).
  by repeat split.
Qed.

(** X6. Chunks that still arrive after a capture was cancelled are handled
    like any other: they are buffered and their levels reach the renderer
    after the state [idle], although no capture is active.  The next
    [startRecording] empties the buffer before it opens its stream, so
    what arrived in between is not part of the next capture. *)
Theorem late_chunks_after_cancel `{Audio.LevelMeter}
    (env : Ipc.Env) (w : Ipc.World) (late : list Buf.Buffer) :
  Audio.isRecording (Ipc.audio w) = true ->
  Ipc.hardware env = Audio.IoOk ->
  let cancelled := (Handlers.audio_cancel w).1 in
  let after := Cycle.deliver cancelled late in
  Audio.isRecording (Ipc.audio after) = false
  /\ Audio.chunks (Ipc.audio after) = late
  /\ Ipc.sent after
     = Ipc.sent w ++ [Ipc.RecordingStateMsg Ipc.idle]
         ++ ((fun c => Ipc.AudioLevelMsg (Audio.calculateLevel c)) <$> late)
  /\ Audio.chunks (Ipc.audio (Handlers.audio_start env after).1) = []
  /\ Audio.isRecording (Ipc.audio (Handlers.audio_start env after).1) = true.
Proof.
  intros Hrec Hhw cancelled after.
  destruct (deliver_state cancelled late) as (Hc & _ & Hs & Hr & _ & _ & _ & _).
  fold after in Hc, Hs, Hr.
  assert (Hidle : Audio.isRecording (Ipc.audio after) = false).
  { rewrite Hr. unfold cancelled. simpl. unfold Audio.cancelRecording.
    by rewrite Hrec. }
  split; [exact Hidle |].
  split.
  { rewrite Hc. unfold cancelled. simpl. unfold Audio.cancelRecording.
    by rewrite Hrec. }
  split.
  { rewrite Hs. unfold cancelled. simpl. by rewrite <- app_assoc. }
  unfold Handlers.audio_start, Ipc.try_catch, Ipc.bindM, Handlers.do_startRecording,
    Audio.startRecording.
  rewrite Hidle, Hhw. by simpl.
Qed.

Lemma late_chunks_after_cancel_witness :
  let w := Scenario.recording_world in
  let late := [Scenario.chunk_320] in
  let cancelled := (Handlers.audio_cancel w).1 in
  let after := @Cycle.deliver Scenario.silent_meter cancelled late in
  Audio.isRecording (Ipc.audio after) = false
  /\ Audio.chunks (Ipc.audio after) = late
  /\ Ipc.sent after
     = Ipc.sent w ++ [Ipc.RecordingStateMsg Ipc.idle]
         ++ ((fun c => Ipc.AudioLevelMsg (@Audio.calculateLevel Scenario.silent_meter c))
               <$> late)
  /\ Audio.chunks (Ipc.audio (Handlers.audio_start Scenario.env_ok after).1) = []
  /\ Audio.isRecording (Ipc.audio (Handlers.audio_start Scenario.env_ok after).1) = true.
Proof.
  intros w late.
  apply (@late_chunks_after_cancel Scenario.silent_meter Scenario.env_ok w late);
    reflexivity.
Defined.

(** ** A successful cycle, and the lazy configuration *)
Section CycleFacts.
Import Buf Transcription Ipc Handlers Cycle.
Context `{Database.Tokenizer}.

Lemma audio_stop_try_returns (env : Env) (w w1 : World)
    (resp : Response TranscriptionResult) :
  audio_stop_try env w = (w1, inr resp) ->
  exists result buf,
    resp = Success result
    /\ Audio.stopRecording (audio w) = inr (audio w1, buf)
    /\ currentAudioBuffer w1 = Some buf
    /\ transcription w1
       = (if isConfigured (transcription w) then transcription w
          else configureOpenAI (openai_apiKey (config w)) (openai_model (config w))
                 (transcription w))
    /\ transcribe (api env) (transcription w1) buf (stop_options (config w)) = inr result
    /\ db_fault env = None
    /\ database w1
       = (Database.insert (now env) (database w) result
            (getServiceName (transcription w1))).1
    /\ clipboard w1 = output_clipboard (config w) (text result) (clipboard w)
    /\ config w1 = config w
    /\ sent w1 = sent w ++ [RecordingStateMsg processing;
                            TranscriptionResultMsg result;
                            RecordingStateMsg complete].
Proof.
  unfold audio_stop_try, bindM, do_stopRecording, do_insert, modify, send, when,
    get_world, lift, ret, throw, stop_options, output_clipboard.
  intros Htry.
  repeat (case_match; simplify_eq; simpl in * ).
  all: eexists _, _; repeat split; eauto.
  all: by rewrite <- !app_assoc.
Qed.

(** With no key stored, an unconfigured manager makes the [try] block throw
    before any backend is consulted. *)
Lemma audio_stop_try_no_key (env : Env) (w : World) :
  Audio.isRecording (audio w) = true ->
  isConfigured (transcription w) = false ->
  openai_apiKey (config w) = ""%string ->
  exists w1,
    audio_stop_try env w
    = (w1, inl (Js.Error "OpenAI API key not configured. Please add it in Settings."))
    /\ database w1 = database w
    /\ transcription w1 = transcription w
    /\ clipboard w1 = clipboard w
    /\ sent w1 = sent w ++ [RecordingStateMsg processing].
Proof.
  intros Hrec Hcfg Hkey.
  unfold audio_stop_try, bindM, do_stopRecording, modify, send, get_world, throw,
    Audio.stopRecording.
  rewrite Hrec. simpl. rewrite Hcfg, Hkey. simpl.
  eexists. split; [reflexivity |]. by repeat split.
Qed.

(** The manager after the [try] block, whatever its outcome: configured
    from the stored key when it was not configured and a key is stored. *)
Lemma audio_stop_try_configures (env : Env) (w w1 : World)
    (r : Js.Result (Response TranscriptionResult)) :
  Audio.isRecording (audio w) = true ->
  isConfigured (transcription w) = false ->
  Js.truthy (openai_apiKey (config w)) = true ->
  audio_stop_try env w = (w1, r) ->
  transcription w1
  = configureOpenAI (openai_apiKey (config w)) (openai_model (config w)) (transcription w).
Proof.
  unfold audio_stop_try, bindM, do_stopRecording, do_insert, modify, send, when,
    get_world, lift, ret, throw, Audio.stopRecording.
  intros Hrec Hcfg Hkey Htry. rewrite Hrec in Htry. simpl in Htry.
  rewrite Hcfg, Hkey in Htry. simpl in Htry.
  repeat (case_match; simplify_eq; simpl in * ); done.
Qed.

(** The messages a run of the [try] block has sent when it throws: nothing,
    or the state [processing]. *)
Lemma audio_stop_try_throws (env : Env) (w w1 : World) (thrown : Js.Thrown) :
  audio_stop_try env w = (w1, inl thrown) ->
  sent w1 = sent w \/ sent w1 = sent w ++ [RecordingStateMsg processing].
Proof.
  unfold audio_stop_try, bindM, do_stopRecording.
  destruct (Audio.stopRecording (audio w)) as [e | [a buf]]; [intros [= <- _]; by left |].
  unfold modify, send, get_world, throw, ret, lift, do_insert, when. simpl.
  destruct (isConfigured (transcription w)); simpl;
    [| destruct (Js.truthy (openai_apiKey (config w))); simpl;
       [| intros [= <- _]; by right]];
    (match goal with
     | |- context [transcribe ?a ?m ?b ?o] => destruct (transcribe a m b o); simpl
     end; [intros [= <- _]; by right |]);
    (destruct (db_fault env); simpl; [intros [= <- _]; by right |]);
    destruct (autoCopy (config w)), (autoPaste (config w)); simpl;
    try destruct (automation env); simpl; intros [= <- _]; by right.
Qed.

(** A handler run that answers success is a run of the [try] block that
    returned. *)
Lemma audio_stop_success (env : Env) (w w1 : World) (result : TranscriptionResult) :
  audio_stop env w = (w1, inr (Success result)) ->
  audio_stop_try env w = (w1, inr (Success result)).
Proof.
  unfold audio_stop, try_catch.
  destruct (audio_stop_try env w) as [w0 [thrown | resp0]] eqn:Htry.
  - intros [= _ ?].
  - by intros [= <- ->].
Qed.
End CycleFacts.

(** X7. A stop cycle that succeeds did, in this order: stop the capture,
    send [processing], transcribe the stopped buffer with the language and
    vocabulary of the configuration (after configuring the manager from the
    stored key if it was not configured), append exactly one history entry
    for the result under the backend's name, apply the clipboard effects
    selected by [autoCopy] and [autoPaste], then send the result and the
    state [complete]. *)
Theorem successful_stop_cycle `{Database.Tokenizer}
    (env : Ipc.Env) (w w1 : Ipc.World) (result : Transcription.TranscriptionResult) :
  Handlers.audio_stop env w = (w1, inr (Ipc.Success result)) ->
  exists buf,
    Audio.stopRecording (Ipc.audio w) = inr (Ipc.audio w1, buf)
    /\ Transcription.transcribe (Ipc.api env) (Ipc.transcription w1) buf
         (Cycle.stop_options (Ipc.config w)) = inr result
    /\ Ipc.transcription w1
       = (if Transcription.isConfigured (Ipc.transcription w) then Ipc.transcription w
          else Transcription.configureOpenAI (Ipc.openai_apiKey (Ipc.config w))
                 (Ipc.openai_model (Ipc.config w)) (Ipc.transcription w))
    /\ Ipc.database w1
       = (Database.insert (Ipc.now env) (Ipc.database w) result
            (Transcription.getServiceName (Ipc.transcription w1))).1
    /\ Database.rows (Ipc.database w1)
       = Database.rows (Ipc.database w)
           ++ [{| Database.id := Database.seq (Ipc.database w) + 1;
                  Database.st_text := Transcription.text result;
                  Database.st_language := Transcription.res_language result;
                  Database.st_duration := Js.Math_round (Transcription.duration result);
                  Database.service := Transcription.getServiceName (Ipc.transcription w1);
                  Database.createdAt := Ipc.now env |}]
    /\ Ipc.clipboard w1
       = Cycle.output_clipboard (Ipc.config w) (Transcription.text result) (Ipc.clipboard w)
    /\ Ipc.sent w1 = Ipc.sent w ++ [Ipc.RecordingStateMsg Ipc.processing;
                                    Ipc.TranscriptionResultMsg result;
                                    Ipc.RecordingStateMsg Ipc.complete].
Proof.
  intros Hrun. apply audio_stop_success in Hrun.
  destruct (audio_stop_try_returns env w w1 _ Hrun)
    as (result' & buf & [= <-] & Hstop & _ & Hmgr & Htr & _ & Hdb & Hclip & _ & Hsent).
  exists buf. repeat split; try done.
  by rewrite Hdb.
Qed.

Lemma successful_stop_cycle_witness :
  let env := Scenario.env_ok in
  let w := Scenario.recording_world in
  let w1 := (@Handlers.audio_stop Scenario.space_tokenizer env w).1 in
  let result := {| Transcription.text := "hello world";
                   Transcription.res_language := "en";
                   Transcription.duration := 1200%Q;
                   Transcription.segments := None;
                   Transcription.words := None |} in
  exists buf,
    Audio.stopRecording (Ipc.audio w) = inr (Ipc.audio w1, buf)
    /\ Transcription.transcribe (Ipc.api env) (Ipc.transcription w1) buf
         (Cycle.stop_options (Ipc.config w)) = inr result
    /\ Ipc.transcription w1
       = (if Transcription.isConfigured (Ipc.transcription w) then Ipc.transcription w
          else Transcription.configureOpenAI (Ipc.openai_apiKey (Ipc.config w))
                 (Ipc.openai_model (Ipc.config w)) (Ipc.transcription w))
    /\ Ipc.database w1
       = (@Database.insert Scenario.space_tokenizer (Ipc.now env) (Ipc.database w) result
            (Transcription.getServiceName (Ipc.transcription w1))).1
    /\ Database.rows (Ipc.database w1)
       = Database.rows (Ipc.database w)
           ++ [{| Database.id := Database.seq (Ipc.database w) + 1;
                  Database.st_text := Transcription.text result;
                  Database.st_language := Transcription.res_language result;
                  Database.st_duration := Js.Math_round (Transcription.duration result);
                  Database.service := Transcription.getServiceName (Ipc.transcription w1);
                  Database.createdAt := Ipc.now env |}]
    /\ Ipc.clipboard w1
       = Cycle.output_clipboard (Ipc.config w) (Transcription.text result) (Ipc.clipboard w)
    /\ Ipc.sent w1 = Ipc.sent w ++ [Ipc.RecordingStateMsg Ipc.processing;
                                    Ipc.TranscriptionResultMsg result;
                                    Ipc.RecordingStateMsg Ipc.complete].
Proof.
  intros env w w1 result.
  apply (@successful_stop_cycle Scenario.space_tokenizer env w w1 result).
  by vm_compute.
Defined.

(** X8. The lazy configuration of the stop cycle, for a manager that is not
    configured when the capture is stopped.  With no key stored the handler
    answers failure with the settings message, after [processing], without
    consulting any backend and without touching history, manager or
    clipboard.  With a key stored the manager leaves the handler configured
    from the stored key and model, whether or not the rest of the cycle
    succeeds. *)
Theorem lazy_configuration_on_stop `{Database.Tokenizer}
    (env : Ipc.Env) (w : Ipc.World) :
  Audio.isRecording (Ipc.audio w) = true ->
  Transcription.isConfigured (Ipc.transcription w) = false ->
  let w1 := (Handlers.audio_stop env w).1 in
  if Js.truthy (Ipc.openai_apiKey (Ipc.config w))
  then Ipc.transcription w1
       = Transcription.configureOpenAI (Ipc.openai_apiKey (Ipc.config w))
           (Ipc.openai_model (Ipc.config w)) (Ipc.transcription w)
  else (Handlers.audio_stop env w).2
       = inr (Ipc.Failure "OpenAI API key not configured. Please add it in Settings.")
       /\ Ipc.database w1 = Ipc.database w
       /\ Ipc.transcription w1 = Ipc.transcription w
       /\ Ipc.clipboard w1 = Ipc.clipboard w
       /\ Ipc.sent w1
          = Ipc.sent w
              ++ [Ipc.RecordingStateMsg Ipc.processing;
                  Ipc.ErrorMsg "OpenAI API key not configured. Please add it in Settings.";
                  Ipc.RecordingStateMsg Ipc.error].
Proof.
  intros Hrec Hcfg w1. subst w1.
  destruct (Js.truthy (Ipc.openai_apiKey (Ipc.config w))) eqn:Hkey.
  - unfold Handlers.audio_stop, Ipc.try_catch.
    destruct (Handlers.audio_stop_try env w) as [w0 r] eqn:Htry.
    pose proof (audio_stop_try_configures env w w0 r Hrec Hcfg Hkey Htry) as Hmgr.
    by destruct r.
  - assert (Hempty : Ipc.openai_apiKey (Ipc.config w) = ""%string).
    { by destruct (Ipc.openai_apiKey (Ipc.config w)). }
    destruct (audio_stop_try_no_key env w Hrec Hcfg Hempty)
      as (w0 & Htry & Hdb & Hmgr & Hclip & Hsent).
    unfold Handlers.audio_stop, Ipc.try_catch. rewrite Htry. simpl.
    rewrite Hsent, <- !app_assoc. by repeat split.
Qed.

Lemma lazy_configuration_witness :
  let w := {| Ipc.audio := Ipc.audio Scenario.recording_world;
              Ipc.transcription := Transcription.new_manager;
              Ipc.database := Database.empty_db;
              Ipc.clipboard := (Clipboard.new_ClipboardManager, "before"%string);
              Ipc.config := Scenario.default_config;
              Ipc.currentAudioBuffer := None;
              Ipc.sent := [] |} in
  let w1 := (@Handlers.audio_stop Scenario.space_tokenizer Scenario.env_ok w).1 in
  if Js.truthy (Ipc.openai_apiKey (Ipc.config w))
  then Ipc.transcription w1
       = Transcription.configureOpenAI (Ipc.openai_apiKey (Ipc.config w))
           (Ipc.openai_model (Ipc.config w)) (Ipc.transcription w)
  else (@Handlers.audio_stop Scenario.space_tokenizer Scenario.env_ok w).2
       = inr (Ipc.Failure "OpenAI API key not configured. Please add it in Settings.")
       /\ Ipc.database w1 = Ipc.database w
       /\ Ipc.transcription w1 = Ipc.transcription w
       /\ Ipc.clipboard w1 = Ipc.clipboard w
       /\ Ipc.sent w1
          = Ipc.sent w
              ++ [Ipc.RecordingStateMsg Ipc.processing;
                  Ipc.ErrorMsg "OpenAI API key not configured. Please add it in Settings.";
                  Ipc.RecordingStateMsg Ipc.error].
Proof.
  intros w.
  apply (@lazy_configuration_on_stop Scenario.space_tokenizer Scenario.env_ok w);
    reflexivity.
Defined.

(** ** The clipboard as a one-deep stack *)

(** X9. Only the value from immediately before the last [copy] can be
    restored: after two copies, [restorePrevious] brings back the first
    copied text (when it is not empty), not what the clipboard held before
    either copy, and a second [restorePrevious] changes nothing. *)
Theorem restore_reaches_one_copy_back
    (mgr : Clipboard.ClipboardManager) (original first second : string) :
  first <> ""%string ->
  Clipboard.restorePrevious
    (Clipboard.copy second (Clipboard.copy first (mgr, original)))
  = ({| Clipboard.previousContent := "" |}, first)
  /\ Clipboard.restorePrevious
       (Clipboard.restorePrevious
          (Clipboard.copy second (Clipboard.copy first (mgr, original))))
     = ({| Clipboard.previousContent := "" |}, first).
Proof.
  intros Hfirst. unfold Clipboard.copy, Clipboard.restorePrevious. simpl.
  destruct first as [|c rest]; [congruence | done].
Qed.

Lemma restore_reaches_one_copy_back_witness :
  Clipboard.restorePrevious
    (Clipboard.copy "second" (Clipboard.copy "first"
                                (Clipboard.new_ClipboardManager, "original"%string)))
  = ({| Clipboard.previousContent := "" |}, "first"%string)
  /\ Clipboard.restorePrevious
       (Clipboard.restorePrevious
          (Clipboard.copy "second" (Clipboard.copy "first"
                                      (Clipboard.new_ClipboardManager, "original"%string))))
     = ({| Clipboard.previousContent := "" |}, "first"%string).
Proof.
  apply (restore_reaches_one_copy_back Clipboard.new_ClipboardManager
           "original" "first" "second").
  discriminate.
Defined.

(** X10. With [autoCopy] and [autoPaste] both enabled (the defaults), a
    successful stop cycle copies the text twice, so the snapshot slot holds
    the transcribed text itself: afterwards [restorePrevious] leaves the
    transcribed text on the clipboard, and what the user had there before
    the cycle is no longer held anywhere. *)
Theorem default_cycle_overwrites_the_snapshot `{Database.Tokenizer}
    (env : Ipc.Env) (w w1 : Ipc.World) (result : Transcription.TranscriptionResult) :
  Handlers.audio_stop env w = (w1, inr (Ipc.Success result)) ->
  Ipc.autoCopy (Ipc.config w) = true ->
  Ipc.autoPaste (Ipc.config w) = true ->
  Ipc.clipboard w1
  = ({| Clipboard.previousContent := Transcription.text result |},
     Transcription.text result)
  /\ Clipboard.read (Clipboard.restorePrevious (Ipc.clipboard w1))
     = Transcription.text result.
Proof.
  intros Hstop Hcopy Hpaste.
  destruct (audio_stop_try_returns env w w1 _ (audio_stop_success env w w1 result Hstop))
    as (result' & buf & [= <-] & _ & _ & _ & _ & _ & _ & Hclip & _).
  rewrite Hclip. unfold Cycle.output_clipboard. rewrite Hcopy, Hpaste.
  destruct (Ipc.clipboard w) as [mgr system]. simpl. split; [done |].
  unfold Clipboard.restorePrevious, Clipboard.read. simpl.
  by destruct (Js.truthy (Transcription.text result)).
Qed.

Lemma default_cycle_overwrites_the_snapshot_witness :
  let w1 := (@Handlers.audio_stop Scenario.space_tokenizer Scenario.env_ok
               Scenario.recording_world).1 in
  Ipc.clipboard w1
  = ({| Clipboard.previousContent := "hello world" |}, "hello world"%string)
  /\ Clipboard.read (Clipboard.restorePrevious (Ipc.clipboard w1)) = "hello world"%string.
Proof.
  intros w1.
  apply (@default_cycle_overwrites_the_snapshot Scenario.space_tokenizer Scenario.env_ok
           Scenario.recording_world w1
           {| Transcription.text := "hello world";
              Transcription.res_language := "en";
              Transcription.duration := 1200%Q;
              Transcription.segments := None;
              Transcription.words := None |}); by vm_compute.
Defined.

(** ** The OpenAI backend and the manager *)
Section BackendFacts.
Import Buf Transcription Scenario Invariant ManagerHistory.

Lemma service_transcribe_returns (api : RemoteApi) (s : OpenAITranscriptionService)
    (audio : Buffer) (options : TranscriptionOptions) (r : TranscriptionResult) :
  service_transcribe api s audio options = inr r ->
  exists wav v,
    Wav.encodeWav_default audio = inr wav
    /\ api (apiKey s) (request s wav options) = inr v
    /\ r = {| text := v_text v;
              res_language := default "unknown"%string (if_truthy (v_language v));
              duration := Js.mul (default 0%Q (v_duration v)) 1000%Q;
              segments := fmap (M := option) (map to_ms_segment) (v_segments v);
              words := fmap (M := option) (map to_ms_word) (v_words v) |}.
Proof.
  unfold service_transcribe, request.
  destruct (Wav.encodeWav_default audio) as [e | wav]; [discriminate |]. simpl.
  match goal with |- Js.bind ?call _ = _ -> _ => destruct call as [e | v] eqn:Hcall end;
    [discriminate |].
  simpl. intros [= <-]. eauto.
Qed.

Lemma manager_after_configured (calls : list ManagerCall) :
  services (manager_after calls) = []
  <-> existsb is_configure calls = false.
Proof.
  induction calls as [|c calls IH] using rev_ind; [done |].
  unfold manager_after in *. rewrite foldl_app, existsb_app. simpl.
  fold (manager_after calls) in *.
  pose proof (manager_shape_after calls) as Hshape.
  destruct c as [key m | n]; simpl.
  - destruct (configureOpenAI_services key m _ Hshape) as [-> _].
    rewrite orb_true_r. split; discriminate.
  - rewrite orb_false_r, <- IH. unfold setPrimaryService.
    by destruct (JsMap.has n _).
Qed.
End BackendFacts.

(** X11. What a successful [transcribe] of the OpenAI backend returns: the
    audio was encoded with the default WAV parameters and sent with the
    service's key and model as a [verbose_json] request; the text is the
    answer's text, the duration is the reported seconds times 1000 as a
    binary64 product (0 when none is reported), the language is
    ['unknown'] when none is reported; and segments and words come back in
    the same number and order, with their texts, every boundary multiplied
    by 1000 in the same way. *)
Theorem backend_result_is_in_milliseconds
    (api : Transcription.RemoteApi) (s : Transcription.OpenAITranscriptionService)
    (audio : Buf.Buffer) (options : Transcription.TranscriptionOptions)
    (r : Transcription.TranscriptionResult) :
  Transcription.service_transcribe api s audio options = inr r ->
  exists wav v,
    Wav.encodeWav_default audio = inr wav
    /\ api (Transcription.apiKey s) (ManagerHistory.request s wav options) = inr v
    /\ Transcription.text r = Transcription.v_text v
    /\ Transcription.duration r
       = Js.mul (default 0%Q (Transcription.v_duration v)) 1000%Q
    /\ (Transcription.v_duration v = None -> Transcription.duration r = 0%Q)
    /\ Transcription.res_language r
       = match Transcription.v_language v with
         | Some (String c l) => String c l
         | _ => "unknown"%string
         end
    /\ match Transcription.v_segments v, Transcription.segments r with
       | Some reported, Some returned =>
           (Transcription.seg_text <$> returned) = (Transcription.seg_text <$> reported)
           /\ (Transcription.seg_start <$> returned)
              = ((fun x => Js.mul (Transcription.seg_start x) 1000%Q) <$> reported)
           /\ (Transcription.seg_end <$> returned)
              = ((fun x => Js.mul (Transcription.seg_end x) 1000%Q) <$> reported)
       | None, None => True
       | _, _ => False
       end
    /\ match Transcription.v_words v, Transcription.words r with
       | Some reported, Some returned =>
           (Transcription.word_word <$> returned) = (Transcription.word_word <$> reported)
           /\ (Transcription.word_start <$> returned)
              = ((fun x => Js.mul (Transcription.word_start x) 1000%Q) <$> reported)
           /\ (Transcription.word_end <$> returned)
              = ((fun x => Js.mul (Transcription.word_end x) 1000%Q) <$> reported)
       | None, None => True
       | _, _ => False
       end.
Proof.
  intros Hr.
  destruct (service_transcribe_returns api s audio options r Hr) as (wav & v & Hwav & Hv & ->).
  exists wav, v. simpl.
  split; [done |]. split; [done |]. split; [done |]. split; [done |].
  split; [by intros -> |].
  split; [by destruct (Transcription.v_language v) as [[|c l]|] |].
  split.
  - destruct (Transcription.v_segments v) as [reported|]; simpl; [| done].
    repeat split; rewrite <- list_fmap_compose; by apply list_fmap_ext.
  - destruct (Transcription.v_words v) as [reported|]; simpl; [| done].
    repeat split; rewrite <- list_fmap_compose; by apply list_fmap_ext.
Qed.

Lemma backend_result_witness :
  let s := Transcription.new_service "sk-test" Transcription.whisper_1 in
  let r := Sample.segmented_result in
  exists wav v,
    Wav.encodeWav_default Scenario.chunk_320 = inr wav
    /\ Sample.segmented_api (Transcription.apiKey s)
         (ManagerHistory.request s wav Transcription.no_options) = inr v
    /\ Transcription.text r = Transcription.v_text v
    /\ Transcription.duration r
       = Js.mul (default 0%Q (Transcription.v_duration v)) 1000%Q
    /\ (Transcription.v_duration v = None -> Transcription.duration r = 0%Q)
    /\ Transcription.res_language r
       = match Transcription.v_language v with
         | Some (String c l) => String c l
         | _ => "unknown"%string
         end
    /\ match Transcription.v_segments v, Transcription.segments r with
       | Some reported, Some returned =>
           (Transcription.seg_text <$> returned) = (Transcription.seg_text <$> reported)
           /\ (Transcription.seg_start <$> returned)
              = ((fun x => Js.mul (Transcription.seg_start x) 1000%Q) <$> reported)
           /\ (Transcription.seg_end <$> returned)
              = ((fun x => Js.mul (Transcription.seg_end x) 1000%Q) <$> reported)
       | None, None => True
       | _, _ => False
       end
    /\ match Transcription.v_words v, Transcription.words r with
       | Some reported, Some returned =>
           (Transcription.word_word <$> returned) = (Transcription.word_word <$> reported)
           /\ (Transcription.word_start <$> returned)
              = ((fun x => Js.mul (Transcription.word_start x) 1000%Q) <$> reported)
           /\ (Transcription.word_end <$> returned)
              = ((fun x => Js.mul (Transcription.word_end x) 1000%Q) <$> reported)
       | None, None => True
       | _, _ => False
       end.
Proof.
  intros s r.
  apply (backend_result_is_in_milliseconds Sample.segmented_api s Scenario.chunk_320
           Transcription.no_options r).
  by vm_compute.
Defined.

(** X12. Whatever calls were made on a manager, its primary backend is
    ['openai']; it is configured exactly when [configureOpenAI] was called
    at least once, and then it lists the single name ['openai'] and reports
    the backend name ['OpenAI Whisper']; before that it lists nothing and
    reports ['Unknown']. *)
Theorem manager_knows_only_openai (calls : list Scenario.ManagerCall) :
  Transcription.getPrimaryService (Scenario.manager_after calls) = "openai"%string
  /\ Transcription.isConfigured (Scenario.manager_after calls)
     = existsb ManagerHistory.is_configure calls
  /\ Transcription.getAvailableServices (Scenario.manager_after calls)
     = (if existsb ManagerHistory.is_configure calls then ["openai"%string] else [])
  /\ Transcription.getServiceName (Scenario.manager_after calls)
     = (if existsb ManagerHistory.is_configure calls
        then "OpenAI Whisper"%string else "Unknown"%string).
Proof.
  pose proof (manager_shape_after calls) as [Hprim Hserv].
  pose proof (manager_after_configured calls) as Hcfg.
  unfold Transcription.getPrimaryService, Transcription.isConfigured,
    Transcription.getAvailableServices, Transcription.getServiceName, JsMap.has.
  rewrite Hprim.
  destruct Hserv as [Hnone | (key & m & Hone)].
  - rewrite (proj1 Hcfg Hnone), Hnone. by repeat split.
  - destruct (existsb ManagerHistory.is_configure calls) eqn:Hex.
    + rewrite Hone. by repeat split.
    + rewrite (proj2 Hcfg eq_refl) in Hone. discriminate.
Qed.

(** X13. The manager sends what the latest configuration holds: after any
    earlier calls, once [configureOpenAI(key, model)] has run, [transcribe]
    is exactly the OpenAI backend's [transcribe] with that key and that
    model; nothing of an earlier key or model is used. *)
Theorem latest_configuration_is_used
    (calls : list Scenario.ManagerCall) (key : string) (m : Transcription.OpenAIModel)
    (api : Transcription.RemoteApi) (audio : Buf.Buffer)
    (options : Transcription.TranscriptionOptions) :
  Transcription.transcribe api
    (Transcription.configureOpenAI key m (Scenario.manager_after calls)) audio options
  = Transcription.service_transcribe api (Transcription.new_service key m) audio options.
Proof.
  destruct (configureOpenAI_services key m _ (manager_shape_after calls)) as [Hs Hp].
  unfold Transcription.transcribe. by rewrite Hp, Hs.
Qed.

(** ** More on the history store *)
Section StoreFacts.
Import Transcription Database Scenario Invariant StoreHistory.
Context `{Tokenizer}.

Lemma db_after_snoc (calls : list DbCall) (c : DbCall) :
  db_after (calls ++ [c]) = db_call (db_after calls) c.
Proof. unfold db_after. by rewrite foldl_app. Qed.

Lemma seq_counts_inserts (calls : list DbCall) :
  seq (db_after calls) = Z.of_nat (inserts calls).
Proof.
  induction calls as [|c calls IH] using rev_ind; [done |].
  rewrite db_after_snoc. unfold inserts in *. rewrite List.filter_app, length_app.
  destruct c; simpl; rewrite IH; lia.
Qed.

Lemma filter_all {A} (P : A -> Prop) `{forall x, Decision (P x)} (l : list A) :
  Forall P l -> filter P l = l.
Proof.
  induction 1 as [|x l Hx _ IH]; [done |].
  by rewrite filter_cons_True, IH.
Qed.

Lemma filter_filter_implied {A} (P Q : A -> Prop)
    `{forall x, Decision (P x)} `{forall x, Decision (Q x)} (l : list A) :
  (forall x, P x -> Q x) -> filter P (filter Q l) = filter P l.
Proof.
  intros HPQ. induction l as [|x l IH]; [done |].
  destruct (decide (Q x)) as [HQ | HQ].
  - rewrite (filter_cons_True Q) by done.
    destruct (decide (P x)) as [HP | HP].
    + by rewrite !(filter_cons_True P), IH.
    + by rewrite !(filter_cons_False P), IH.
  - rewrite (filter_cons_False Q) by done.
    rewrite (filter_cons_False P) by (intros HP; by apply HQ, HPQ). exact IH.
Qed.

Lemma getById_None (db : Db) (k : Z) :
  getById db k = None <-> Forall (fun r => id r <> k) (rows db).
Proof.
  unfold getById. split.
  - intros Hhead. apply Forall_forall. intros r Hr Hk.
    assert (Hin : r ∈ filter (fun r => id r = k) (rows db))
      by (by apply list_elem_of_filter).
    destruct (filter (fun r => id r = k) (rows db)); [by apply elem_of_nil in Hin | done].
  - intros Hall. by rewrite filter_none.
Qed.

Lemma getById_insert_other (now : string) (db : Db) (result : TranscriptionResult)
    (svc : string) (k : Z) :
  k <> seq db + 1 ->
  getById (insert now db result svc).1 k = getById db k.
Proof.
  intros Hne. unfold getById. simpl.
  rewrite filter_app, filter_cons_False, filter_nil, app_nil_r; [done |].
  simpl. congruence.
Qed.

Lemma getById_delete_other (db : Db) (j k : Z) :
  j <> k -> getById (delete k db) j = getById db j.
Proof.
  intros Hne. unfold getById. simpl.
  rewrite filter_filter_implied; [done |]. intros r. congruence.
Qed.

Lemma delete_absent (db : Db) (k : Z) : getById db k = None -> delete k db = db.
Proof.
  intros Habsent. apply getById_None in Habsent.
  unfold delete. rewrite (filter_all _ _ Habsent), filter_none.
  - by destruct db.
  - eapply Forall_impl; [exact Habsent |]. intros r Hr. exact Hr.
Qed.

Lemma postings_cleared (db : Db) (token : string) :
  indexed db -> postings (fts (clear db)) token = ∅.
Proof.
  intros Hidx. apply leibniz_equiv, elem_of_equiv_empty. intros rowid Hin.
  apply elem_of_postings in Hin as [pos Hin].
  apply (indexed_clear db Hidx) in Hin as (r & Hr & _).
  by apply elem_of_nil in Hr.
Qed.

Lemma NoDup_fmap_elem_of_inj {A B} (f : A -> B) (l : list A) (x y : A) :
  NoDup (f <$> l) -> x ∈ l -> y ∈ l -> f x = f y -> x = y.
Proof.
  induction l as [|a l IH]; intros Hdup Hx Hy Hf; [by apply elem_of_nil in Hx |].
  rewrite fmap_cons in Hdup. apply NoDup_cons in Hdup as [Hfresh Hdup].
  apply elem_of_cons in Hx as [-> | Hx]; apply elem_of_cons in Hy as [-> | Hy].
  - done.
  - exfalso. apply Hfresh. rewrite Hf. by apply list_elem_of_fmap_2.
  - exfalso. apply Hfresh. rewrite <- Hf. by apply list_elem_of_fmap_2.
  - by apply IH.
Qed.

Lemma length_sql_limit {A} (n : Z) (l : list A) :
  0 <= n -> length (sql_limit n l) = (Z.to_nat n `min` length l)%nat.
Proof.
  intros Hn. unfold sql_limit. rewrite (proj2 (Z.ltb_ge _ _) Hn).
  rewrite length_take. lia.
Qed.

Lemma sql_limit_all {A} (n : Z) (l : list A) :
  n < 0 \/ (length l <= Z.to_nat n)%nat -> sql_limit n l = l.
Proof.
  unfold sql_limit. intros [Hneg | Hroom].
  - by rewrite (proj2 (Z.ltb_lt _ _) Hneg).
  - destruct (n <? 0); [done | by apply take_ge].
Qed.


End StoreFacts.

(** X14. Ids are handed out in sequence and never reused: after any history
    of calls, [insert] returns one more than the number of inserts made so
    far, whatever was deleted or cleared in between; that id is larger than
    the id of every stored entry and was absent before the insert. *)
Theorem insert_ids_are_never_reused `{Database.Tokenizer}
    (calls : list Scenario.DbCall) (now : string)
    (r : Transcription.TranscriptionResult) (svc : string) :
  let db := Scenario.db_after calls in
  (Database.insert now db r svc).2 = Z.of_nat (StoreHistory.inserts calls) + 1
  /\ Forall (fun e => Database.id e < (Database.insert now db r svc).2) (Database.rows db)
  /\ Database.getById db (Database.insert now db r svc).2 = None
  /\ Database.seq (Database.clear db) = Database.seq db
  /\ (Database.insert now (Database.clear db) r svc).2 = (Database.insert now db r svc).2.
Proof.
  intros db. subst db. simpl.
  destruct (ids_ok_after calls) as (_ & _ & Hbound).
  repeat split.
  - by rewrite seq_counts_inserts.
  - eapply Forall_impl; [exact Hbound |]. simpl. intros e ?. lia.
  - apply getById_None. eapply Forall_impl; [exact Hbound |]. simpl. intros e ?. lia.
Qed.

(** X15. Inserting and deleting leave every other entry as it was: a lookup
    under an id other than the one just deleted, or other than the one just
    assigned, answers what it answered before. *)
Theorem other_entries_are_untouched `{Database.Tokenizer}
    (db : Database.Db) (now : string) (r : Transcription.TranscriptionResult)
    (svc : string) (j k : Z) :
  j <> k ->
  j <> (Database.insert now db r svc).2 ->
  Database.getById (Database.delete k db) j = Database.getById db j
  /\ Database.getById (Database.insert now db r svc).1 j = Database.getById db j
  /\ Database.getById (Database.delete k (Database.insert now db r svc).1) j
     = Database.getById db j.
Proof.
  intros Hne Hother.
  split; [by apply getById_delete_other |].
  split; [by apply getById_insert_other |].
  rewrite getById_delete_other by done. by apply getById_insert_other.
Qed.

Lemma other_entries_witness :
  let db := Scenario.two_entries in
  Database.getById (@Database.delete Scenario.space_tokenizer 1 db) 2
  = Database.getById db 2
  /\ Database.getById (@Database.insert Scenario.space_tokenizer "2024-01-01 11:00:00" db
                         Scenario.hello_world "cloud").1 2
     = Database.getById db 2
  /\ Database.getById
       (@Database.delete Scenario.space_tokenizer 1
          (@Database.insert Scenario.space_tokenizer "2024-01-01 11:00:00" db
             Scenario.hello_world "cloud").1) 2
     = Database.getById db 2.
Proof.
  intros db.
  apply (@other_entries_are_untouched Scenario.space_tokenizer db "2024-01-01 11:00:00"
           Scenario.hello_world "cloud" 2 1); discriminate.
Defined.

(** X16. Deleting an id that is not stored changes nothing, neither rows
    nor index nor counter; in particular deleting the same id a second time
    is a no-op. *)
Theorem delete_of_absent_id_is_noop `{Database.Tokenizer}
    (db : Database.Db) (k : Z) :
  Database.getById db k = None ->
  Database.delete k db = db
  /\ Database.delete k (Database.delete k db) = Database.delete k db.
Proof.
  intros Habsent. split; [by apply delete_absent |].
  apply delete_absent, getById_delete.
Qed.

Lemma delete_of_absent_id_witness :
  @Database.delete Scenario.space_tokenizer 7 Scenario.two_entries = Scenario.two_entries
  /\ @Database.delete Scenario.space_tokenizer 7
       (@Database.delete Scenario.space_tokenizer 7 Scenario.two_entries)
     = @Database.delete Scenario.space_tokenizer 7 Scenario.two_entries.
Proof.
  apply (@delete_of_absent_id_is_noop Scenario.space_tokenizer Scenario.two_entries 7).
  reflexivity.
Defined.

(** X17. After [clear()] on any reachable store: no row is left, the index
    lists nothing under any token, every lookup by id is absent, [getRecent]
    is empty for every limit, and every search that the query engine does
    not reject returns nothing. *)
Theorem clear_empties_table_and_index `{Database.Tokenizer} `{Database.QueryEngine}
    (calls : list Scenario.DbCall) (k limit : Z) (query token : string) :
  let db := Database.clear (Scenario.db_after calls) in
  Database.rows db = []
  /\ Database.postings (Database.fts db) token = ∅
  /\ Invariant.indexed db
  /\ Database.getById db k = None
  /\ Database.getRecent db limit = []
  /\ match Database.search db query limit with
     | inr results => results = []
     | inl e => Database.fts5_match (Database.fts db) query = inl e
     end.
Proof.
  intros db. pose proof (indexed_after calls) as Hidx.
  split; [done |].
  split; [by apply postings_cleared |].
  split; [by apply indexed_clear |].
  split; [done |].
  split.
  { unfold Database.getRecent, Database.sql_limit. simpl.
    destruct (limit <? 0); [done | by rewrite take_nil]. }
  destruct (Database.search db query limit) as [e | results] eqn:Hsearch.
  - unfold Database.search in Hsearch.
    destruct (Database.fts5_match (Database.fts db) query) as [e0 | hits];
      simpl in Hsearch; congruence.
  - destruct results as [|r results]; [done |].
    destruct (search_results db query limit _ r Hsearch) as [Hrow _]; [by left |].
    by apply elem_of_nil in Hrow.
Qed.


(** X19. An entry is in the index as soon as it is inserted: after any
    history of calls and an insert, the index lists the new id under
    exactly the tokens of the inserted text, and what it lists for every
    other id is what it listed before. *)
Theorem inserted_entry_is_indexed `{Database.Tokenizer}
    (calls : list Scenario.DbCall) (now : string)
    (r : Transcription.TranscriptionResult) (svc token : string) :
  let db := Scenario.db_after calls in
  let stored := Database.insert now db r svc in
  (stored.2 ∈ Database.postings (Database.fts stored.1) token
   <-> token ∈ Database.tokenize (Transcription.text r))
  /\ (forall k, k <> stored.2 ->
      (k ∈ Database.postings (Database.fts stored.1) token
       <-> k ∈ Database.postings (Database.fts db) token)).
Proof.
  intros db stored. subst stored. simpl.
  unfold Database.transcriptions_ai, Database.fts_insert. simpl.
  pose proof (indexed_after calls) as Hidx.
  destruct (ids_ok_after calls) as (_ & _ & Hbound). fold db in Hidx, Hbound.
  split.
  - rewrite elem_of_postings. split.
    + intros [pos [Hold | Hnew]%elem_of_union].
      * apply Hidx in Hold as (r' & Hr' & Hid & _).
        rewrite Forall_forall in Hbound. specialize (Hbound r' Hr'). lia.
      * apply elem_of_occurrences in Hnew as [_ Hpos].
        by apply list_elem_of_lookup_2 in Hpos.
    + intros [pos Hpos]%list_elem_of_lookup_1. exists pos.
      apply elem_of_union. right. by apply elem_of_occurrences.
  - intros k Hk. rewrite !elem_of_postings. split.
    + intros [pos [Hold | Hnew]%elem_of_union]; [by exists pos |].
      by apply elem_of_occurrences in Hnew as [? _].
    + intros [pos Hold]. exists pos. apply elem_of_union. by left.
Qed.

(** X20. What a search returns, whatever the query engine makes of the
    query: when the engine rejects the query the call throws what the
    engine threw; otherwise the result consists of stored rows whose ids
    the engine matched, in newest-first order, at most [limit] of them for
    a non-negative limit and every matched row for a negative one. *)
Theorem search_is_join_order_limit `{Database.QueryEngine}
    (db : Database.Db) (query : string) (limit : Z) :
  match Database.search db query limit with
  | inr results =>
      exists hits,
        Database.fts5_match (Database.fts db) query = inr hits
        /\ Sorted Database.newer_eq results
        /\ Forall (fun e => e ∈ Database.rows db /\ Database.id e ∈ hits) results
        /\ (0 <= limit -> (length results <= Z.to_nat limit)%nat)
        /\ (limit < 0 ->
            forall e, e ∈ Database.rows db -> Database.id e ∈ hits -> e ∈ results)
  | inl e => Database.fts5_match (Database.fts db) query = inl e
  end.
Proof.
  unfold Database.search.
  destruct (Database.fts5_match (Database.fts db) query) as [e | hits]; [done |].
  simpl. exists hits. split; [done |].
  split; [apply Sorted_sql_limit, order_by_created_at_desc_Sorted |].
  split.
  { apply Forall_forall. intros e He. apply (sql_limit_subseteq limit) in He.
    apply (proj1 (order_by_created_at_desc_elem_of _ _)) in He.
    by apply list_elem_of_filter in He as [? ?]. }
  split.
  { intros Hlimit. rewrite length_sql_limit by done. lia. }
  intros Hlimit e He Hhit. rewrite sql_limit_all by (by left).
  apply order_by_created_at_desc_elem_of, list_elem_of_filter. by split.
Qed.

(** X21. A call of [getRecent] right after an insert includes the new entry
    whenever the limit leaves room for every stored row (or is negative). *)
Theorem recent_includes_the_new_entry `{Database.Tokenizer}
    (db : Database.Db) (now : string) (r : Transcription.TranscriptionResult)
    (svc : string) (limit : Z) :
  limit < 0 \/ (length (Database.rows db) < Z.to_nat limit)%nat ->
  StoreHistory.new_row (Database.seq db) now r svc
    ∈ Database.getRecent (Database.insert now db r svc).1 limit
  /\ Database.getRecent (Database.insert now db r svc).1 limit
     ≡ₚ Database.rows db ++ [StoreHistory.new_row (Database.seq db) now r svc].
Proof.
  intros Hroom. unfold Database.getRecent.
  rewrite sql_limit_all.
  - split; [| apply order_by_created_at_desc_Permutation].
    apply order_by_created_at_desc_elem_of. simpl.
    apply elem_of_app. right. by apply list_elem_of_singleton.
  - destruct Hroom as [? | Hroom]; [by left | right].
    rewrite order_by_created_at_desc_Permutation. simpl.
    rewrite length_app. simpl. lia.
Qed.

Lemma recent_includes_the_new_entry_witness :
  let db := Scenario.two_entries in
  StoreHistory.new_row (Database.seq db) "2024-01-01 11:00:00" Scenario.hello_world "cloud"
    ∈ Database.getRecent
        (@Database.insert Scenario.space_tokenizer "2024-01-01 11:00:00" db
           Scenario.hello_world "cloud").1 50
  /\ Database.getRecent
       (@Database.insert Scenario.space_tokenizer "2024-01-01 11:00:00" db
          Scenario.hello_world "cloud").1 50
     ≡ₚ Database.rows db
          ++ [StoreHistory.new_row (Database.seq db) "2024-01-01 11:00:00"
                Scenario.hello_world "cloud"].
Proof.
  intros db.
  apply (@recent_includes_the_new_entry Scenario.space_tokenizer db "2024-01-01 11:00:00"
           Scenario.hello_world "cloud" 50).
  right. vm_compute. lia.
Defined.

(** ** The push-to-talk manager *)
Section PushToTalkFacts.
Import PushToTalk.
Context `{KeyMap}.

Lemma well_paired_snoc_start (log : list Event) :
  well_paired log -> well_paired (log ++ [Start]).
Proof.
  intros Hlog i Hi. apply lookup_snoc_Some in Hi as [[Hlt Hi] | [_ Hi]]; [| done].
  destruct (Hlog i Hi) as (j & -> & Hj). exists j. split; [done |].
  rewrite lookup_app_l; [done | lia].
Qed.

Lemma well_paired_snoc_stop (log : list Event) :
  well_paired log -> last log = Some Start -> well_paired (log ++ [Stop]).
Proof.
  intros Hlog Hlast i Hi. apply lookup_snoc_Some in Hi as [[Hlt Hi] | [-> _]].
  - destruct (Hlog i Hi) as (j & -> & Hj). exists j. split; [done |].
    rewrite lookup_app_l; [done | lia].
  - assert (Hlen : length log <> 0%nat) by (by destruct log).
    exists (pred (length log)). split; [lia |].
    rewrite lookup_app_l by lia. by rewrite <- last_lookup.
Qed.

Lemma consistent_on_keydown (keycode : Z) (m : PushToTalkManager) :
  consistent m -> consistent (on_keydown keycode m).
Proof.
  intros Hm. pose proof Hm as (Hlog & Hheld & Hhooks). unfold on_keydown.
  destruct ((keycode =? modifierKey m) && negb (isPressed m)); [| done].
  split; [by apply well_paired_snoc_start |].
  split; [intros _; apply last_snoc | done].
Qed.

Lemma consistent_on_keyup (keycode : Z) (m : PushToTalkManager) :
  consistent m -> consistent (on_keyup keycode m).
Proof.
  intros Hm. pose proof Hm as (Hlog & Hheld & Hhooks). unfold on_keyup.
  destruct ((keycode =? modifierKey m) && isPressed m) eqn:Hcond; [| done].
  apply andb_true_iff in Hcond as [_ Hpressed].
  split; [apply well_paired_snoc_stop; auto |].
  split; [done | done].
Qed.

Lemma consistent_iter (f : PushToTalkManager -> PushToTalkManager) (n : nat)
    (m : PushToTalkManager) :
  (forall m, consistent m -> consistent (f m)) ->
  consistent m -> consistent (Nat.iter n f m).
Proof. intros Hf Hm. induction n as [|n IH]; simpl; auto. Qed.

Lemma consistent_step (m : PushToTalkManager) (s : Step) :
  consistent m -> consistent (step m s).
Proof.
  intros Hm. destruct s as [| | key | keycode | keycode]; simpl.
  - pose proof Hm as (Hlog & Hheld & Hhooks). unfold start.
    destruct (isRunning m) eqn:Hrun; [done |].
    split; [done |]. split; [done |]. simpl. lia.
  - pose proof Hm as (Hlog & Hheld & Hhooks). unfold stop.
    destruct (isRunning m) eqn:Hrun; [| done]. simpl.
    split; [done |]. split; done.
  - exact Hm.
  - unfold keydown. destruct (isRunning m); [| done].
    apply consistent_iter; [apply consistent_on_keydown | done].
  - unfold keyup. destruct (isRunning m); [| done].
    apply consistent_iter; [apply consistent_on_keyup | done].
Qed.

Lemma consistent_after (steps : list Step) : consistent (after steps).
Proof.
  unfold after. induction steps as [|s steps IH] using rev_ind.
  - split; [intros i Hi; done |]. split; [done | done].
  - rewrite foldl_app. simpl. by apply consistent_step.
Qed.

Lemma on_keydown_idempotent (keycode : Z) (m : PushToTalkManager) :
  on_keydown keycode (on_keydown keycode m) = on_keydown keycode m.
Proof.
  unfold on_keydown.
  destruct ((keycode =? modifierKey m) && negb (isPressed m)) eqn:Hcond; simpl.
  - by rewrite andb_false_r.
  - by rewrite Hcond.
Qed.

Lemma on_keyup_idempotent (keycode : Z) (m : PushToTalkManager) :
  on_keyup keycode (on_keyup keycode m) = on_keyup keycode m.
Proof.
  unfold on_keyup.
  destruct ((keycode =? modifierKey m) && isPressed m) eqn:Hcond; simpl.
  - by rewrite andb_false_r.
  - by rewrite Hcond.
Qed.

Lemma iter_idempotent {A} (f : A -> A) (n : nat) (a : A) :
  (forall a, f (f a) = f a) -> (0 < n)%nat -> Nat.iter n f a = f a.
Proof.
  intros Hf Hn. induction n as [|n IH]; [lia |].
  destruct n as [|n]; [done |]. simpl in *. rewrite IH by lia. apply Hf.
Qed.

(** While the hook runs, a key event reaches the manager as if a single
    pair of listeners were registered. *)
Lemma keydown_once (keycode : Z) (m : PushToTalkManager) :
  consistent m -> keydown keycode m = if isRunning m then on_keydown keycode m else m.
Proof.
  intros (_ & _ & Hhooks). unfold keydown. destruct (isRunning m); [| done].
  apply iter_idempotent; [apply on_keydown_idempotent | by apply Hhooks].
Qed.

Lemma keyup_once (keycode : Z) (m : PushToTalkManager) :
  consistent m -> keyup keycode m = if isRunning m then on_keyup keycode m else m.
Proof.
  intros (_ & _ & Hhooks). unfold keyup. destruct (isRunning m); [| done].
  apply iter_idempotent; [apply on_keyup_idempotent | by apply Hhooks].
Qed.

Lemma emitted_on_keydown (keycode : Z) (m : PushToTalkManager) :
  emitted (on_keydown keycode m)
  = emitted m ++ (if (keycode =? modifierKey m) && negb (isPressed m)
                  then [Start] else []).
Proof. unfold on_keydown. destruct (_ && _); simpl; by rewrite ?app_nil_r. Qed.

Lemma emitted_on_keyup (keycode : Z) (m : PushToTalkManager) :
  emitted (on_keyup keycode m)
  = emitted m ++ (if (keycode =? modifierKey m) && isPressed m
                  then [Stop] else []).
Proof. unfold on_keyup. destruct (_ && _); simpl; by rewrite ?app_nil_r. Qed.

Lemma keydown_idempotent (keycode : Z) (m : PushToTalkManager) :
  consistent m -> keydown keycode (keydown keycode m) = keydown keycode m.
Proof.
  intros Hm. rewrite (keydown_once keycode m Hm).
  destruct (isRunning m) eqn:Hrun.
  - rewrite (keydown_once _ _ (consistent_on_keydown keycode m Hm)).
    assert (isRunning (on_keydown keycode m) = true) as ->.
    { unfold on_keydown. by destruct (_ && _). }
    apply on_keydown_idempotent.
  - by rewrite (keydown_once keycode m Hm), Hrun.
Qed.

Lemma keyup_idempotent (keycode : Z) (m : PushToTalkManager) :
  consistent m -> keyup keycode (keyup keycode m) = keyup keycode m.
Proof.
  intros Hm. rewrite (keyup_once keycode m Hm).
  destruct (isRunning m) eqn:Hrun.
  - rewrite (keyup_once _ _ (consistent_on_keyup keycode m Hm)).
    assert (isRunning (on_keyup keycode m) = true) as ->.
    { unfold on_keyup. by destruct (_ && _). }
    apply on_keyup_idempotent.
  - by rewrite (keyup_once keycode m Hm), Hrun.
Qed.

Lemma isRunning_iter_on_keydown (keycode : Z) (n : nat) (m : PushToTalkManager) :
  isRunning (Nat.iter n (on_keydown keycode) m) = isRunning m.
Proof.
  induction n as [|n IH]; [done |]. simpl. rewrite <- IH. unfold on_keydown.
  by destruct (_ && _).
Qed.

Lemma isRunning_iter_on_keyup (keycode : Z) (n : nat) (m : PushToTalkManager) :
  isRunning (Nat.iter n (on_keyup keycode) m) = isRunning m.
Proof.
  induction n as [|n IH]; [done |]. simpl. rewrite <- IH. unfold on_keyup.
  by destruct (_ && _).
Qed.

(** A key counts as held only while the hook runs. *)
Lemma held_is_running (steps : list Step) :
  isPressed (after steps) = true -> isRunning (after steps) = true.
Proof.
  unfold after. induction steps as [|s steps IH] using rev_ind; [done |].
  rewrite foldl_app. simpl. set (m := foldl step _ steps) in *.
  destruct s as [| | key | keycode | keycode]; simpl.
  - unfold start. destruct (isRunning m) eqn:Hrun; [by rewrite Hrun | done].
  - unfold stop. destruct (isRunning m) eqn:Hrun; simpl; [done |].
    intros Hp. specialize (IH Hp). congruence.
  - exact IH.
  - unfold keydown. destruct (isRunning m) eqn:Hrun.
    + intros _. by rewrite isRunning_iter_on_keydown.
    + intros Hp. specialize (IH Hp). congruence.
  - unfold keyup. destruct (isRunning m) eqn:Hrun.
    + intros _. by rewrite isRunning_iter_on_keyup.
    + intros Hp. specialize (IH Hp). congruence.
Qed.
End PushToTalkFacts.

(** X22. The events of the push-to-talk manager are well paired: after any
    history of [start], [stop], [setModifierKey] and key events, every
    ['stop'] it has emitted comes directly after a ['start'], so the log
    never begins with a ['stop']; and while the key counts as held the
    hook is running and the last event is a ['start']. *)
Theorem push_to_talk_events_are_paired `{PushToTalk.KeyMap}
    (steps : list PushToTalk.Step) :
  let m := PushToTalk.after steps in
  PushToTalk.well_paired (PushToTalk.emitted m)
  /\ (PushToTalk.isPressed m = true ->
      last (PushToTalk.emitted m) = Some PushToTalk.Start
      /\ PushToTalk.isRunning m = true)
  /\ head (PushToTalk.emitted m) <> Some PushToTalk.Stop.
Proof.
  intros m. destruct (consistent_after steps) as (Hlog & Hheld & _).
  split; [exact Hlog |]. split.
  - intros Hpressed. split; [by apply Hheld | by apply held_is_running].
  - intros Hhead. rewrite head_lookup in Hhead.
    by destruct (Hlog 0%nat Hhead) as (j & ? & _).
Qed.

(** X23. One event per key event, however often the manager was restarted:
    [start()] registers a new pair of listeners each time it runs, yet on
    any reachable manager a key going down emits exactly one ['start'] when
    the hook runs, the key is the modifier and it is not yet held, and
    nothing otherwise; a key going up emits exactly one ['stop'] when the
    hook runs and the modifier is held, and nothing otherwise; and a
    repeated key-down or key-up (auto-repeat) changes nothing. *)
Theorem one_event_per_key_event `{PushToTalk.KeyMap}
    (steps : list PushToTalk.Step) (keycode : Z) :
  let m := PushToTalk.after steps in
  PushToTalk.emitted (PushToTalk.keydown keycode m)
  = PushToTalk.emitted m
    ++ (if PushToTalk.isRunning m && (keycode =? PushToTalk.modifierKey m)
           && negb (PushToTalk.isPressed m)
        then [PushToTalk.Start] else [])
  /\ PushToTalk.emitted (PushToTalk.keyup keycode m)
     = PushToTalk.emitted m
       ++ (if PushToTalk.isRunning m && (keycode =? PushToTalk.modifierKey m)
              && PushToTalk.isPressed m
           then [PushToTalk.Stop] else [])
  /\ PushToTalk.keydown keycode (PushToTalk.keydown keycode m)
     = PushToTalk.keydown keycode m
  /\ PushToTalk.keyup keycode (PushToTalk.keyup keycode m)
     = PushToTalk.keyup keycode m.
Proof.
  intros m. pose proof (consistent_after steps) as Hm. fold m in Hm.
  split; [| split; [| split; [by apply keydown_idempotent | by apply keyup_idempotent]]].
  - rewrite (keydown_once _ _ Hm). destruct (PushToTalk.isRunning m); simpl.
    + apply emitted_on_keydown.
    + by rewrite app_nil_r.
  - rewrite (keyup_once _ _ Hm). destruct (PushToTalk.isRunning m); simpl.
    + apply emitted_on_keyup.
    + by rewrite app_nil_r.
Qed.

(** X24. Stopping the manager while the key is held loses the release:
    [stop()] resets [isPressed] without emitting, so after a restart the
    release of the key emits nothing and the next press emits a second
    ['start'] right after the first. *)
Theorem release_is_lost_when_stopped_while_held `{PushToTalk.KeyMap}
    (steps : list PushToTalk.Step) :
  let m := PushToTalk.after steps in
  PushToTalk.isPressed m = true ->
  let key := PushToTalk.modifierKey m in
  last (PushToTalk.emitted m) = Some PushToTalk.Start
  /\ PushToTalk.emitted
       (foldl PushToTalk.step m
          [PushToTalk.DoStop; PushToTalk.DoStart; PushToTalk.KeyUp key])
     = PushToTalk.emitted m
  /\ PushToTalk.emitted
       (foldl PushToTalk.step m
          [PushToTalk.DoStop; PushToTalk.DoStart; PushToTalk.KeyUp key;
           PushToTalk.KeyDown key])
     = PushToTalk.emitted m ++ [PushToTalk.Start].
Proof.
  intros m Hpressed key.
  pose proof (consistent_after steps) as Hm. fold m in Hm.
  pose proof (held_is_running steps Hpressed) as Hrun. fold m in Hrun.
  split; [by apply Hm |]. simpl.
  set (m1 := PushToTalk.start (PushToTalk.stop m)).
  assert (Hm1 : PushToTalk.consistent m1).
  { apply (consistent_step _ PushToTalk.DoStart),
      (consistent_step _ PushToTalk.DoStop), Hm. }
  assert (Hup : PushToTalk.keyup key m1 = m1).
  { rewrite (keyup_once _ _ Hm1). unfold m1, PushToTalk.start, PushToTalk.stop.
    rewrite Hrun. simpl. unfold PushToTalk.on_keyup. simpl.
    by rewrite andb_false_r. }
  rewrite Hup. rewrite (keydown_once _ _ Hm1).
  unfold m1, PushToTalk.start, PushToTalk.stop. rewrite Hrun. simpl.
  split; [done |]. unfold PushToTalk.on_keydown. simpl.
  unfold key. by rewrite Z.eqb_refl.
Qed.

Lemma release_is_lost_witness :
  let m := @PushToTalk.after PushToTalk.sample_keys
             [PushToTalk.DoStart; PushToTalk.KeyDown 3640] in
  last (PushToTalk.emitted m) = Some PushToTalk.Start
  /\ PushToTalk.emitted
       (foldl (@PushToTalk.step PushToTalk.sample_keys) m
          [PushToTalk.DoStop; PushToTalk.DoStart; PushToTalk.KeyUp 3640])
     = [PushToTalk.Start]
  /\ PushToTalk.emitted
       (foldl (@PushToTalk.step PushToTalk.sample_keys) m
          [PushToTalk.DoStop; PushToTalk.DoStart; PushToTalk.KeyUp 3640;
           PushToTalk.KeyDown 3640])
     = [PushToTalk.Start; PushToTalk.Start].
Proof.
  intros m.
  apply (@release_is_lost_when_stopped_while_held PushToTalk.sample_keys
           [PushToTalk.DoStart; PushToTalk.KeyDown 3640]).
  reflexivity.
Defined.

(** X25. Changing the modifier while the old one is held: [setModifierKey]
    leaves [isPressed] set, so the release of the old key is ignored, a
    press of the new key is ignored as well, and the first event the new
    key produces is the ['stop'] of its release. *)
Theorem modifier_change_while_held `{PushToTalk.KeyMap}
    (steps : list PushToTalk.Step) (key : PushToTalk.ModifierKey) :
  let m := PushToTalk.after steps in
  PushToTalk.isPressed m = true ->
  PushToTalk.MODIFIER_KEY_MAP key <> PushToTalk.modifierKey m ->
  let m' := PushToTalk.setModifierKey key m in
  PushToTalk.keyup (PushToTalk.modifierKey m) m' = m'
  /\ PushToTalk.keydown (PushToTalk.MODIFIER_KEY_MAP key) m' = m'
  /\ PushToTalk.emitted (PushToTalk.keyup (PushToTalk.MODIFIER_KEY_MAP key) m')
     = PushToTalk.emitted m ++ [PushToTalk.Stop].
Proof.
  intros m Hpressed Hother m'.
  pose proof (consistent_after steps) as Hm. fold m in Hm.
  pose proof (held_is_running steps Hpressed) as Hrun. fold m in Hrun.
  assert (Hm' : PushToTalk.consistent m').
  { apply (consistent_step _ (PushToTalk.DoSetModifierKey key)), Hm. }
  rewrite !(keyup_once _ _ Hm'), (keydown_once _ _ Hm').
  unfold m', PushToTalk.setModifierKey, PushToTalk.on_keyup, PushToTalk.on_keydown.
  simpl. rewrite Hrun, Hpressed, Z.eqb_refl. simpl.
  rewrite ?andb_false_r, ?andb_true_r.
  destruct (PushToTalk.modifierKey m =? PushToTalk.MODIFIER_KEY_MAP key) eqn:Heq.
  - apply Z.eqb_eq in Heq. congruence.
  - done.
Qed.

Lemma modifier_change_while_held_witness :
  let m := @PushToTalk.after PushToTalk.sample_keys
             [PushToTalk.DoStart; PushToTalk.KeyDown 3640] in
  let m' := @PushToTalk.setModifierKey PushToTalk.sample_keys PushToTalk.LeftAlt m in
  PushToTalk.keyup 3640 m' = m'
  /\ PushToTalk.keydown 56 m' = m'
  /\ PushToTalk.emitted (PushToTalk.keyup 56 m')
     = [PushToTalk.Start; PushToTalk.Stop].
Proof.
  intros m.
  apply (@modifier_change_while_held PushToTalk.sample_keys
           [PushToTalk.DoStart; PushToTalk.KeyDown 3640] PushToTalk.LeftAlt).
  - reflexivity.
  - discriminate.
Defined.

(** ** The renderer store and the toggle *)
Section RendererFacts.
Import Transcription Ipc Handlers Cycle Renderer.
Context `{Database.Tokenizer}.

Lemma received_snoc (st : ParrotState) (msgs : list Message) (m : Message) :
  received st (msgs ++ [m]) = receive (received st msgs) m.
Proof. unfold received. by rewrite foldl_app. Qed.

Lemma new_messages_app (w w' : World) (msgs : list Message) :
  sent w' = sent w ++ msgs -> new_messages w w' = msgs.
Proof. intros Hsent. unfold new_messages. rewrite Hsent. apply drop_app_length. Qed.

(** A toggle the renderer resolves to a start request. *)
Lemma toggle_start (env : Env) (w : World) (st : ParrotState) :
  onHotkeyToggle st = Some StartRecording ->
  let both := toggle env (w, st) in
  in_step both
  /\ (recordingState both.2 = recording \/ recordingState both.2 = Ipc.error)
  /\ (Audio.isRecording (audio w) = true -> recordingState both.2 = recording).
Proof.
  intros Hreq. unfold toggle. rewrite Hreq. simpl.
  unfold audio_start, try_catch, bindM, do_startRecording, send, modify, ret,
    Audio.startRecording, in_step.
  destruct (Audio.isRecording (audio w)) eqn:Hrec; simpl.
  - rewrite (new_messages_app w _ [RecordingStateMsg recording]) by done.
    simpl. rewrite Hrec. by repeat split; auto.
  - destruct (hardware env) as [| e | e]; simpl.
    + rewrite (new_messages_app w _ [RecordingStateMsg recording]) by done.
      simpl. by repeat split; auto.
    + rewrite (new_messages_app w _ [ErrorMsg (Js.message_or "Failed to start recording"
                                                 (Audio.emit_error e))]) by done.
      simpl. repeat split; auto; done.
    + rewrite (new_messages_app w _ [ErrorMsg (Js.message_or "Failed to start recording"
                                                 (Audio.emit_error e))]) by done.
      simpl. repeat split; auto; done.
Qed.

(** The ['audio:stop'] handler, whatever its outcome: no capture is left
    running, and the messages it sent end in [complete] or [error]. *)
Lemma audio_stop_settles (env : Env) (w : World) (st : ParrotState) :
  let w' := (audio_stop env w).1 in
  Audio.isRecording (audio w') = false
  /\ (recordingState (received st (new_messages w w')) = complete
      \/ recordingState (received st (new_messages w w')) = Ipc.error).
Proof.
  intros w'. subst w'. unfold audio_stop, try_catch.
  destruct (audio_stop_try env w) as [w1 [thrown | resp]] eqn:Htry; simpl.
  - split.
    + destruct (Audio.isRecording (audio w)) eqn:Hrec.
      * by destruct (audio_stop_try_closes_stream env w w1 _ Hrec Htry) as (_ & ? & _).
      * rewrite (audio_stop_try_not_recording env w Hrec) in Htry. by simplify_eq.
    + right. destruct (audio_stop_try_throws env w w1 thrown Htry) as [Hsent | Hsent].
      * by rewrite (new_messages_app w _ [ErrorMsg (Js.message_or "Transcription failed" thrown);
                                          RecordingStateMsg Ipc.error])
          by (simpl; rewrite Hsent; by rewrite <- app_assoc).
      * by rewrite (new_messages_app w _ [RecordingStateMsg processing;
                                          ErrorMsg (Js.message_or "Transcription failed" thrown);
                                          RecordingStateMsg Ipc.error])
          by (simpl; rewrite Hsent; by rewrite <- !app_assoc).
  - destruct (audio_stop_try_returns env w w1 resp Htry)
      as (result & buf & _ & Hstop & _ & _ & _ & _ & _ & _ & _ & Hsent).
    split.
    + destruct (Audio.isRecording (audio w)) eqn:Hrec.
      * by destruct (audio_stop_try_closes_stream env w w1 _ Hrec Htry) as (_ & ? & _).
      * rewrite (audio_stop_try_not_recording env w Hrec) in Htry. by simplify_eq.
    + left. by rewrite (new_messages_app w _ _ Hsent).
Qed.

(** A toggle the renderer resolves to a stop request. *)
Lemma toggle_stop (env : Env) (w : World) (st : ParrotState) :
  onHotkeyToggle st = Some StopRecording ->
  let both := toggle env (w, st) in
  Audio.isRecording (audio both.1) = false
  /\ (recordingState both.2 = complete \/ recordingState both.2 = Ipc.error).
Proof.
  intros Hreq. unfold toggle. rewrite Hreq. simpl. apply audio_stop_settles.
Qed.

Lemma in_step_idle (w : World) (st : ParrotState) :
  Audio.isRecording (audio w) = false -> recordingState st <> recording ->
  in_step (w, st).
Proof. intros Hrec Hst. unfold in_step. simpl. rewrite Hrec. split; [done | done]. Qed.
End RendererFacts.

(** X26. A toggle brings the renderer and the main process back in step,
    whatever they were before.  While the store says [processing] the
    toggle is dropped.  When it says [recording] the renderer asks to stop:
    afterwards no capture runs and the store says [complete] or [error].
    Otherwise it asks to start: afterwards the store says [recording]
    exactly when a capture runs, and [error] when it does not; a capture
    that was already running is adopted as [recording]. *)
Theorem toggle_brings_renderer_in_step `{Database.Tokenizer}
    (env : Ipc.Env) (w : Ipc.World) (st : Renderer.ParrotState) :
  let both := Renderer.toggle env (w, st) in
  match Renderer.recordingState st with
  | Ipc.processing => both = (w, st)
  | Ipc.recording =>
      Audio.isRecording (Ipc.audio both.1) = false
      /\ (Renderer.recordingState both.2 = Ipc.complete
          \/ Renderer.recordingState both.2 = Ipc.error)
  | _ =>
      Renderer.in_step both
      /\ (Renderer.recordingState both.2 = Ipc.recording
          \/ Renderer.recordingState both.2 = Ipc.error)
      /\ (Audio.isRecording (Ipc.audio w) = true ->
          Renderer.recordingState both.2 = Ipc.recording)
  end.
Proof.
  intros both. subst both.
  destruct (Renderer.recordingState st) eqn:Hst.
  - apply toggle_start. unfold Renderer.onHotkeyToggle. by rewrite Hst.
  - apply toggle_stop. unfold Renderer.onHotkeyToggle. by rewrite Hst.
  - unfold Renderer.toggle, Renderer.onHotkeyToggle. by rewrite Hst.
  - apply toggle_start. unfold Renderer.onHotkeyToggle. by rewrite Hst.
  - apply toggle_start. unfold Renderer.onHotkeyToggle. by rewrite Hst.
Qed.

(** X27. What the store holds after any batch of messages from the main
    process: the state of the last ['recording:state'] or ['error']
    message, the text of the last ['error'] message, the result of the last
    ['transcription:result'] message, each unchanged when the batch has no
    such message; the view is untouched.  No message clears [error]: once
    set it stays set, also across later successful cycles. *)
Theorem store_after_messages (st : Renderer.ParrotState) (msgs : list Ipc.Message) :
  let st' := Renderer.received st msgs in
  Renderer.recordingState st'
  = default (Renderer.recordingState st) (last (omap Renderer.state_of msgs))
  /\ Renderer.error st'
     = match last (Handlers.error_messages msgs) with
       | Some e => Some e
       | None => Renderer.error st
       end
  /\ Renderer.lastResult st'
     = match last (omap Renderer.result_of msgs) with
       | Some r => Some r
       | None => Renderer.lastResult st
       end
  /\ Renderer.currentView st' = Renderer.currentView st
  /\ (is_Some (Renderer.error st) -> is_Some (Renderer.error st')).
Proof.
  intros st'. subst st'.
  induction msgs as [|m msgs IH] using rev_ind.
  - by repeat split.
  - destruct IH as (Hstate & Herr & Hres & Hview & Hkeep).
    rewrite received_snoc. unfold Handlers.error_messages in *.
    rewrite !omap_app.
    destruct m as [s | e | r | level]; simpl;
      rewrite ?app_nil_r, ?last_snoc; simpl; repeat split; auto.
Qed.



(** ** The encoder with any parameters *)
Section WavFormatFacts.
Import Buf Wav WavFormat.

Lemma writeUIntLE_fits (w : nat) (pre : Buffer) (m off : nat) (q : Js.number) :
  off = length pre -> (w <= m)%nat -> fits w q = true ->
  writeUIntLE w (pre ++ replicate m x00) q off
  = inr ((pre ++ le_bytes w (Qfloor q)) ++ replicate (m - w) x00).
Proof.
  intros Hoff Hfit Hq. apply andb_true_iff in Hq as [H0 Hmax].
  by apply writeUIntLE_cursor.
Qed.

Lemma writeUIntLE_unfit (w : nat) (buf : Buffer) (q : Js.number) (off : nat) :
  fits w q = false -> writeUIntLE w buf q off = inl Js.ERR_OUT_OF_RANGE.
Proof. unfold fits, writeUIntLE. by intros ->. Qed.

Lemma fits_riff_size (n : nat) :
  fits 4 (Js.of_nat (44 + n) - 8)%Q = (Z.of_nat n + 36 <=? 4294967295).
Proof.
  unfold fits. apply eq_true_iff_eq.
  rewrite andb_true_iff, !Qle_bool_iff, !riff_size_value, Z.leb_le.
  unfold Qle, inject_Z; simpl. lia.
Qed.

Lemma fits_data_size (n : nat) :
  Z.of_nat n + 36 <= 4294967295 -> fits 4 (Js.of_nat n) = true.
Proof.
  intros Hn. unfold fits. apply andb_true_iff.
  rewrite !Qle_bool_iff. unfold Js.of_nat, Qle, inject_Z; simpl. lia.
Qed.
End WavFormatFacts.

(** One write of the encoder on the buffer filled so far: a tag, a constant
    field, or a field whose value may fail the range check. *)
Ltac encode_step :=
  first
    [ rewrite write_cursor by (first [reflexivity | simpl; lia]);
      rewrite bind_inr
    | rewrite writeUIntLE_fits by (first [reflexivity | assumption | simpl; lia]);
      rewrite bind_inr
    | match goal with
      | |- context [Buf.writeUIntLE ?w _ ?q _] =>
          destruct (WavFormat.fits w q) eqn:?;
          [ rewrite writeUIntLE_fits by (first [reflexivity | assumption | simpl; lia]);
            rewrite bind_inr
          | rewrite writeUIntLE_unfit by assumption; simpl;
            rewrite ?andb_false_r; reflexivity ]
      end ].

(** X29. [encodeWav] with any integers as parameters (of magnitude at
    most 2^53, so that they are numbers and the products the encoder forms
    from accepted fields are exact): it
    throws a range error when the payload is too long for the 32-bit size
    fields or when one of the format fields it writes (channels, sample
    rate, byte rate, block align, bits per sample) fails the range check of
    its write; otherwise it returns the 44-byte header, with a fractional
    byte rate or block align truncated, followed by the payload,
    unchanged. *)
Theorem encodeWav_layout_for_integer_parameters
    (audioBuffer : Buf.Buffer) (sampleRate channels bitsPerSample : Z) :
  Z.abs sampleRate <= 2 ^ 53 ->
  Z.abs channels <= 2 ^ 53 ->
  Z.abs bitsPerSample <= 2 ^ 53 ->
  let n := Z.of_nat (length audioBuffer) in
  let sr := inject_Z sampleRate in
  let ch := inject_Z channels in
  let bits := inject_Z bitsPerSample in
  Wav.encodeWav audioBuffer sr ch bits
  = if (n + 36 <=? 4294967295) && WavFormat.parameters_fit sr ch bits
    then inr (WavFormat.header n sr ch bits ++ audioBuffer)
    else inl Js.ERR_OUT_OF_RANGE.
Proof.
  intros _ _ _ n0 sr ch bits. subst n0.
  unfold Wav.encodeWav, Buf.alloc, Buf.writeUInt32LE, Buf.writeUInt16LE,
    WavFormat.parameters_fit.
  set (n := length audioBuffer) in *.
  change (replicate (44 + n) Byte.x00) with ([] ++ replicate (44 + n) Byte.x00).
  rewrite write_cursor by (first [reflexivity | simpl; lia]).
  rewrite bind_inr. rewrite <- fits_riff_size.
  do 11 encode_step.
  assert (Hsize : Z.of_nat n + 36 <= 4294967295).
  { apply Z.leb_le. rewrite <- fits_riff_size. assumption. }
  rewrite writeUIntLE_fits
    by (first [reflexivity | by apply fits_data_size | simpl; lia]).
  rewrite bind_inr. simpl andb. cbv iota.
  unfold Buf.copy. f_equal.
  rewrite (Qfloor_comp _ _ (riff_size_value n)).
  unfold Js.of_nat. rewrite !Qfloor_Z.
  match goal with
  | |- Buf.blit (?hdr ++ ?zeros) ?off _ = _ =>
      change off with (length hdr);
      rewrite (blit_app_r hdr zeros) by (rewrite length_replicate; simpl; lia)
  end.
  unfold WavFormat.header. rewrite <- !app_assoc. reflexivity.
Qed.

Lemma encodeWav_layout_witness :
  Wav.encodeWav [x01; x02; x03; x04] 48000%Q 2%Q 16%Q
  = inr (WavFormat.header 4 48000%Q 2%Q 16%Q ++ [x01; x02; x03; x04]).
Proof.
  apply (encodeWav_layout_for_integer_parameters [x01; x02; x03; x04] 48000 2 16);
    simpl; lia.
Defined.

(** X30. The ['config:set'] handler never takes a backend away.  It stores
    the value and answers success; for the key or the model of OpenAI, with
    a key stored afterwards, it configures the manager with the stored key
    and model, which [transcribe] then uses; in every other case the
    manager is left as it was.  Clearing the key therefore leaves a
    configured manager configured, with the key it had. *)
Theorem config_set_never_unconfigures
    (calls : list Scenario.ManagerCall) (w : Ipc.World) (s : Settings.Setting)
    (api : Transcription.RemoteApi) (audio : Buf.Buffer)
    (options : Transcription.TranscriptionOptions) :
  let w0 := Ipc.set_transcription (Scenario.manager_after calls) w in
  let out := Settings.config_set s w0 in
  let cfg := Ipc.config out.1 in
  out.2 = inr (Ipc.Success tt)
  /\ cfg = Settings.setConfigValue s (Ipc.config w)
  /\ Ipc.sent out.1 = Ipc.sent w
  /\ Ipc.database out.1 = Ipc.database w
  /\ (Transcription.isConfigured (Ipc.transcription w0) = true ->
      Transcription.isConfigured (Ipc.transcription out.1) = true)
  /\ Transcription.transcribe api (Ipc.transcription out.1) audio options
     = (if Settings.is_openai_key s && Js.truthy (Ipc.openai_apiKey cfg)
        then Transcription.service_transcribe api
               (Transcription.new_service (Ipc.openai_apiKey cfg) (Ipc.openai_model cfg))
               audio options
        else Transcription.transcribe api (Ipc.transcription w0) audio options)
  /\ Ipc.transcription (Settings.config_set (Settings.OpenaiApiKey "") w0).1
     = Ipc.transcription w0.
Proof.
  intros w0 out cfg. subst w0 out cfg.
  pose proof (manager_shape_after calls) as Hshape.
  unfold Settings.config_set, Ipc.bindM, Ipc.modify, Ipc.get_world, Ipc.ret.
  destruct s as [v | v | v | v | v | v]; simpl;
    try (by repeat split).
  - destruct (configureOpenAI_services v (Ipc.openai_model (Ipc.config w)) _ Hshape)
      as [Hs Hp].
    destruct (Js.truthy v) eqn:Hv; simpl; repeat split; auto; intros;
      unfold Transcription.isConfigured, Transcription.transcribe, JsMap.has;
      rewrite ?Hv, ?Hs, ?Hp; done.
  - destruct (configureOpenAI_services (Ipc.openai_apiKey (Ipc.config w)) v _ Hshape)
      as [Hs Hp].
    destruct (Js.truthy (Ipc.openai_apiKey (Ipc.config w))) eqn:Hv; simpl;
      repeat split; auto; intros;
      unfold Transcription.isConfigured, Transcription.transcribe, JsMap.has;
      rewrite ?Hv, ?Hs, ?Hp; done.
Qed.
